(** * mercari-build-training (Go): catalog store and image blob store

    A shallow embedding of [go/app/infra.go] (the item repository over
    SQLite) and of the handlers of [go/app/server.go], with the
    parts of the Go standard library and of the storage engine they call:
    [crypto/sha256], [path/filepath] (Unix flavour: the service is built
    and run on Linux), and the four SQL statements of the repository.
    Next to them stand [Insert] as it was before it ran in a transaction
    and the image address that the item list of the web client builds.

    Layout: definitions first (digest, paths, tables, the world and its
    monad, the repository, the handlers), then the facts about them. *)

From Stdlib Require Import ZArith Lia List Sorted DecimalString.
From Stdlib.Strings Require Import String Ascii Byte.
From stdpp Require Import base option list gmap strings.

Import ListNotations.
Local Open Scope string_scope.
Local Open Scope list_scope.
Local Open Scope Z_scope.

(* ===================================================================== *)
(** ** crypto/sha256 and the [%x] verb                                    *)
(* ===================================================================== *)

Module Sha256.

(** 32-bit words are [Z] in [0, 2^32); every operation that can leave
    that range is followed by [wrap]. *)
Definition wrap (x : Z) : Z := x mod 2 ^ 32.
Definition add32 (x y : Z) : Z := wrap (x + y).
Definition rotr (n x : Z) : Z :=
  Z.lor (Z.shiftr x n) (wrap (Z.shiftl x (32 - n))).
Definition shr (n x : Z) : Z := Z.shiftr x n.
Definition not32 (x : Z) : Z := Z.lxor x (2 ^ 32 - 1).

Definition Ch (x y z : Z) : Z := Z.lxor (Z.land x y) (Z.land (not32 x) z).
Definition Maj (x y z : Z) : Z :=
  Z.lxor (Z.lxor (Z.land x y) (Z.land x z)) (Z.land y z).
Definition bsig0 (x : Z) : Z := Z.lxor (Z.lxor (rotr 2 x) (rotr 13 x)) (rotr 22 x).
Definition bsig1 (x : Z) : Z := Z.lxor (Z.lxor (rotr 6 x) (rotr 11 x)) (rotr 25 x).
Definition ssig0 (x : Z) : Z := Z.lxor (Z.lxor (rotr 7 x) (rotr 18 x)) (shr 3 x).
Definition ssig1 (x : Z) : Z := Z.lxor (Z.lxor (rotr 17 x) (rotr 19 x)) (shr 10 x).

(** The round constants are the first 32 bits of the fractional parts of
    the cube roots of the first 64 primes, the initial state those of the
    square roots of the first 8; both are computed rather than tabulated. *)
Definition primes : list Z :=
  [2; 3; 5; 7; 11; 13; 17; 19; 23; 29; 31; 37; 41; 43; 47; 53;
   59; 61; 67; 71; 73; 79; 83; 89; 97; 101; 103; 107; 109; 113; 127; 131;
   137; 139; 149; 151; 157; 163; 167; 173; 179; 181; 191; 193; 197; 199;
   211; 223; 227; 229; 233; 239; 241; 251; 257; 263; 269; 271; 277; 281;
   283; 293; 307; 311].

(** Largest [x] below [2^bits] with [x^3 <= n], built bit by bit. *)
Fixpoint icbrt (bits : nat) (n acc : Z) : Z :=
  match bits with
  | O => acc
  | S b =>
      let cand := acc + 2 ^ Z.of_nat b in
      icbrt b n (if cand * cand * cand <=? n then cand else acc)
  end.

Definition K : list Z :=
  Eval vm_compute in map (fun p => wrap (icbrt 40 (p * 2 ^ 96) 0)) primes.
Definition H0 : list Z :=
  Eval vm_compute in map (fun p => wrap (Z.sqrt (p * 2 ^ 64))) (firstn 8 primes).

(** Padding: a 1 bit, zeros up to 56 mod 64, the bit length on 8 bytes. *)
Fixpoint be_bytes (n : nat) (x : Z) : list Z :=
  match n with
  | O => []
  | S n' => be_bytes n' (Z.shiftr x 8) ++ [x mod 256]
  end.

Definition pad (msg : list Z) : list Z :=
  let len := Z.of_nat (length msg) in
  let zeros := Z.to_nat ((55 - len) mod 64) in
  msg ++ [128] ++ repeat 0 zeros ++ be_bytes 8 (8 * len).

Fixpoint be_words (n : nat) (bs : list Z) : list Z :=
  match n, bs with
  | S n', b0 :: b1 :: b2 :: b3 :: rest =>
      (b0 * 2 ^ 24 + b1 * 2 ^ 16 + b2 * 2 ^ 8 + b3) :: be_words n' rest
  | _, _ => []
  end.

Fixpoint chunks (n : nat) (ws : list Z) : list (list Z) :=
  match n with
  | O => []
  | S n' => firstn 16 ws :: chunks n' (skipn 16 ws)
  end.

Definition w_at (ws : list Z) (i : nat) : Z := nth i ws 0.

(** Message schedule: [ws] holds W_0 .. W_{t-1}; each step appends W_t. *)
Fixpoint schedule (n : nat) (ws : list Z) : list Z :=
  match n with
  | O => ws
  | S n' =>
      let t := length ws in
      let w := add32 (add32 (ssig1 (w_at ws (t - 2))) (w_at ws (t - 7)))
                     (add32 (ssig0 (w_at ws (t - 15))) (w_at ws (t - 16))) in
      schedule n' (ws ++ [w])
  end.

Definition round (st : list Z) (kw : Z * Z) : list Z :=
  match st with
  | [a; b; c; d; e; f; g; h] =>
      let t1 := add32 (add32 (add32 h (bsig1 e)) (add32 (Ch e f g) (fst kw))) (snd kw) in
      let t2 := add32 (bsig0 a) (Maj a b c) in
      [add32 t1 t2; a; b; c; add32 d t1; e; f; g]
  | _ => st
  end.

Definition compress (st block : list Z) : list Z :=
  let ws := schedule 48 block in
  let st' := fold_left round (combine K ws) st in
  map (fun p => add32 (fst p) (snd p)) (combine st st').

Definition digest_words (msg : list Z) : list Z :=
  let padded := pad msg in
  let ws := be_words (length padded / 4) padded in
  fold_left compress (chunks (length ws / 16) ws) H0.

Definition byte_of_Z (x : Z) : byte :=
  match Byte.of_N (Z.to_N x) with Some b => b | None => x00 end.
Definition Z_of_byte (b : byte) : Z := Z.of_N (Byte.to_N b).

(** [sha256.Sum256(data)]: the 32 bytes of the digest. *)
Definition Sum256 (data : list byte) : list byte :=
  map byte_of_Z (flat_map (be_bytes 4) (digest_words (map Z_of_byte data))).

(** [fmt.Sprintf("%x", hash)] on a byte array: two lower-case hex digits
    per byte. *)
Definition hex_digit (n : Z) : ascii :=
  nth (Z.to_nat n) (list_ascii_of_string "0123456789abcdef") "0"%char.

Fixpoint hex (bs : list byte) : string :=
  match bs with
  | [] => ""
  | b :: rest =>
      String (hex_digit (Z_of_byte b / 16))
        (String (hex_digit (Z_of_byte b mod 16)) (hex rest))
  end.

End Sha256.

(** The bytes of a string literal. *)
Definition bytes_of_string (s : string) : list byte := list_byte_of_string s.

(* ===================================================================== *)
(** ** strings and path/filepath (Unix)                                   *)
(* ===================================================================== *)

Module Strings.

(** [strings.HasPrefix(s, prefix)]. *)
Definition HasPrefix (s prefix : string) : bool := String.prefix prefix s.

(** A suffix of [s] is a prefix of [s] read backwards. *)
Definition reverse (s : string) : string :=
  string_of_list_ascii (rev (list_ascii_of_string s)).

(** [strings.HasSuffix(s, suffix)]. *)
Definition HasSuffix (s suffix : string) : bool :=
  String.prefix (reverse suffix) (reverse s).

(** [s[n:]] *)
Fixpoint drop (n : nat) (s : string) : string :=
  match n, s with
  | S n', String _ rest => drop n' rest
  | _, _ => s
  end.

(** [strings.TrimPrefix(s, prefix)]: [s] without the leading [prefix],
    [s] itself when it does not start with it. *)
Definition TrimPrefix (s prefix : string) : string :=
  if HasPrefix s prefix then drop (String.length prefix) s else s.

(** [strings.ToLower(s)] on the letters A to Z; other bytes are kept. *)
Definition lower_ascii (c : ascii) : ascii :=
  let n := nat_of_ascii c in
  if ((65 <=? n) && (n <=? 90))%nat then ascii_of_nat (n + 32) else c.

Fixpoint ToLower (s : string) : string :=
  match s with
  | EmptyString => EmptyString
  | String c rest => String (lower_ascii c) (ToLower rest)
  end.

End Strings.

Module Filepath.

Definition Separator : ascii := "/"%char.

(** [strings.Split(s, "/")]: the pieces between separators, never empty
    as a list. *)
Fixpoint split_sep (s : string) : list string :=
  match s with
  | EmptyString => [""]
  | String c rest =>
      if Ascii.eqb c Separator then "" :: split_sep rest
      else match split_sep rest with
           | x :: xs => String c x :: xs
           | [] => [String c ""]
           end
  end.

(** [strings.Join(elems, "/")]. *)
Fixpoint join_sep (l : list string) : string :=
  match l with
  | [] => ""
  | [x] => x
  | x :: rest => x +:+ String Separator (join_sep rest)
  end.

Definition rooted (path : string) : bool :=
  match path with
  | String c _ => Ascii.eqb c Separator
  | EmptyString => false
  end.

(** One element of the input read by [Clean]. [out] is the output so far,
    last element first. Empty and [.] elements are dropped; [..] removes
    the last element when there is one to remove, is kept at the front of
    a relative path, and is dropped at the root. *)
Definition clean_step (is_rooted : bool) (out : list string) (elem : string)
  : list string :=
  if String.eqb elem "" then out
  else if String.eqb elem "." then out
  else if String.eqb elem ".." then
    match out with
    | top :: below => if String.eqb top ".." then elem :: out else below
    | [] => if is_rooted then [] else [elem]
    end
  else elem :: out.

Definition clean_elems (path : string) : list string :=
  rev (fold_left (clean_step (rooted path)) (split_sep path) []).

Definition render (is_rooted : bool) (names : list string) : string :=
  if is_rooted then String Separator (join_sep names)
  else match names with
       | [] => "."
       | _ => join_sep names
       end.

(** [filepath.Clean(path)]: the shortest path name equivalent to [path]
    by purely lexical processing. *)
Definition Clean (path : string) : string :=
  if String.eqb path "" then "."
  else render (rooted path) (clean_elems path).

(** [filepath.Join(a, b)]: empty elements are ignored, the rest is joined
    with a separator from the first non-empty element on, and cleaned. *)
Definition Join (a b : string) : string :=
  if negb (String.eqb a "") then Clean (a +:+ String Separator b)
  else if negb (String.eqb b "") then Clean b
  else "".

(** [filepath.ToSlash(path)]: the separator already is a slash. *)
Definition ToSlash (path : string) : string := path.

(** The elements the loop of [Rel] walks over, on a cleaned path: the
    empty string has none, a rooted path starts with an empty element. *)
Definition elems (p : string) : list string :=
  if String.eqb p "" then []
  else if String.eqb p "/" then [""]
  else split_sep p.

(** Drops the longest common prefix of two element lists. *)
Fixpoint strip_common (bs ts : list string) : list string * list string :=
  match bs, ts with
  | b :: bs', t :: ts' =>
      if String.eqb b t then strip_common bs' ts' else (bs, ts)
  | _, _ => (bs, ts)
  end.

(** [filepath.Rel(basepath, targpath)]: [None] stands for the error
    "Rel: can't make targpath relative to basepath". When elements of the
    base are left over, the result is that error or a path that starts
    with [..]; a caller that refuses both, as [buildImagePath] does, need
    not tell them apart. *)
Definition Rel (basepath targpath : string) : option string :=
  let base := Clean basepath in
  let targ := Clean targpath in
  if String.eqb targ base then Some "."
  else
    let base := if String.eqb base "." then "" else base in
    if negb (Bool.eqb (rooted base) (rooted targ)) then None
    else
      match strip_common (elems base) (elems targ) with
      | ([], ts) => Some (join_sep ts)
      | (b :: bs, []) => Some (join_sep (repeat ".." (S (length bs))))
      | (b :: bs, t :: ts) =>
          if String.eqb b ".." then None
          else Some (join_sep (repeat ".." (S (length bs)) ++ t :: ts))
      end.

End Filepath.

(* ===================================================================== *)
(** ** The storage engine: the two relations of db/items.sql              *)
(* ===================================================================== *)

Module Sqlite.

(** [categories (id INTEGER PRIMARY KEY AUTOINCREMENT, name TEXT NOT NULL UNIQUE)] *)
Record CategoryRow := { cat_id : Z; cat_name : string }.

(** [items (id INTEGER PRIMARY KEY AUTOINCREMENT, name TEXT NOT NULL,
     category_id INTEGER NOT NULL, image_name TEXT NOT NULL)].
    The foreign key of [category_id] is declared but not enforced: the
    connection string does not switch [foreign_keys] on. *)
Record ItemRow :=
  { item_id : Z; item_name : string; item_category_id : Z; item_image_name : string }.

(** Rows are kept in rowid order, which is the order a scan yields them.
    The [_seq] fields are the rows of [sqlite_sequence]: the largest rowid
    ever handed out for the table. *)
Record DB :=
  { categories : list CategoryRow; categories_seq : Z;
    items : list ItemRow; items_seq : Z }.

Definition empty_db : DB :=
  {| categories := []; categories_seq := 0; items := []; items_seq := 0 |}.

Definition max_rowid : Z := 9223372036854775807.

(** AUTOINCREMENT: one more than the largest rowid ever used, or no rowid
    at all (SQLITE_FULL) once the largest 64-bit integer has been used. *)
Definition next_rowid (ids : list Z) (seq : Z) : option Z :=
  let largest := fold_right Z.max seq ids in
  if largest <? max_rowid then Some (largest + 1) else None.

(** [SELECT id FROM categories WHERE name = ?], first row. *)
Definition select_category_id (name : string) (d : DB) : option Z :=
  option_map cat_id
    (List.find (fun c => String.eqb (cat_name c) name) (categories d)).

Inductive exec_result := Done (d : DB) | Failed (msg : string).

(** [INSERT INTO categories (name) VALUES (?)]. *)
Definition insert_category (name : string) (d : DB) : exec_result :=
  if existsb (fun c => String.eqb (cat_name c) name) (categories d)
  then Failed "UNIQUE constraint failed: categories.name"
  else match next_rowid (map cat_id (categories d)) (categories_seq d) with
       | None => Failed "database or disk is full"
       | Some id =>
           Done {| categories := categories d ++ [{| cat_id := id; cat_name := name |}];
                   categories_seq := id;
                   items := items d; items_seq := items_seq d |}
       end.

(** [INSERT INTO items (name, category_id, image_name) VALUES (?, ?, ?)]. *)
Definition insert_item (name : string) (category_id : Z) (image_name : string)
    (d : DB) : exec_result :=
  match next_rowid (map item_id (items d)) (items_seq d) with
  | None => Failed "database or disk is full"
  | Some id =>
      Done {| categories := categories d; categories_seq := categories_seq d;
              items := items d ++ [{| item_id := id; item_name := name;
                                      item_category_id := category_id;
                                      item_image_name := image_name |}];
              items_seq := id |}
  end.

(** The row of the result set of
    [SELECT items.id, items.name, categories.name AS category, items.image_name
     FROM items INNER JOIN categories ON items.category_id = categories.id]. *)
Record JoinedRow :=
  { j_id : Z; j_name : string; j_category : string; j_image_name : string }.

Definition join_item (d : DB) (it : ItemRow) : list JoinedRow :=
  map (fun c => {| j_id := item_id it; j_name := item_name it;
                   j_category := cat_name c; j_image_name := item_image_name it |})
      (List.filter (fun c => cat_id c =? item_category_id it) (categories d)).

(** The join restricted by a WHERE clause on the item. *)
Definition select_items (where_ : ItemRow -> bool) (d : DB) : list JoinedRow :=
  flat_map (join_item d) (List.filter where_ (items d)).

(** *** The LIKE operator, as the engine ships it

    [likeFunc] refuses a pattern of more than
    [SQLITE_MAX_LIKE_PATTERN_LENGTH] bytes and takes pattern and text as C
    strings, so that each ends before its first zero byte. [patternCompare]
    then reads both one character at a time with [sqlite3Utf8Read]: [%]
    matches any sequence of characters, [_] any one character, anything
    else itself, upper and lower case ASCII letters being equal; there is
    no escape character. *)

(** [sqlite3UpperToLower] on a byte. *)
Definition lower (c : ascii) : ascii :=
  let n := nat_of_ascii c in
  if ((65 <=? n) && (n <=? 90))%nat then ascii_of_nat (n + 32) else c.

Definition SQLITE_MAX_LIKE_PATTERN_LENGTH : Z := 50000.

(** A text as a C string. *)
Fixpoint cstr (s : string) : string :=
  match s with
  | EmptyString => EmptyString
  | String b rest => if Ascii.eqb b zero then EmptyString else String b (cstr rest)
  end.

Definition byte_value (b : ascii) : Z := Z.of_N (N_of_ascii b).

(** [sqlite3Utf8Trans1[b - 0xc0]]: the payload bits of a lead byte. *)
Definition sqlite3Utf8Trans1 (b : Z) : Z :=
  if b <? 0xe0 then b - 0xc0
  else if b <? 0xf0 then b - 0xe0
  else if b <? 0xf8 then b - 0xf0
  else if b <? 0xfc then b - 0xf8
  else if b <? 0xfe then b - 0xfc
  else 0.

(** The last step of [sqlite3Utf8Read] for a character that began with a
    lead byte: overlong forms of ASCII, surrogates, [0xFFFE] and [0xFFFF]
    become [0xFFFD]. *)
Definition utf8_checked (c : Z) : Z :=
  if (c <? 0x80) || (Z.land c 0xFFFFF800 =? 0xD800) || (Z.land c 0xFFFFFFFE =? 0xFFFE)
  then 0xFFFD else c.

(** The characters that [sqlite3Utf8Read] yields, call after call. A byte
    below [0xc0] is a character by itself. A byte from [0xc0] on begins a
    character, which takes up all the bytes [0x80..0xbf] that follow, six
    bits each, in an unsigned 32-bit integer; [pending] is the character
    that has begun. *)
Fixpoint utf8_chars (pending : option Z) (s : string) : list Z :=
  match s with
  | EmptyString =>
      match pending with
      | Some c => [utf8_checked c]
      | None => []
      end
  | String b rest =>
      let n := byte_value b in
      match pending with
      | Some c =>
          if (0x80 <=? n) && (n <? 0xc0)
          then utf8_chars (Some ((c * 64 + Z.land n 0x3f) mod 2 ^ 32)) rest
          else utf8_checked c
               :: (if n <? 0xc0 then n :: utf8_chars None rest
                   else utf8_chars (Some (sqlite3Utf8Trans1 n)) rest)
      | None =>
          if n <? 0xc0 then n :: utf8_chars None rest
          else utf8_chars (Some (sqlite3Utf8Trans1 n)) rest
      end
  end.

(** The characters of a text, as [patternCompare] reads them. *)
Definition chars (s : string) : list Z := utf8_chars None (cstr s).

(** [sqlite3Tolower] and [sqlite3Toupper] where [patternCompare] uses them:
    they change ASCII letters only. *)
Definition sqlite3Tolower (c : Z) : Z :=
  if (65 <=? c) && (c <=? 90) then c + 32 else c.
Definition sqlite3Toupper (c : Z) : Z :=
  if (97 <=? c) && (c <=? 122) then c - 32 else c.

(** [likeInfoNorm]: the two wildcards. *)
Definition matchAll : Z := 37.
Definition matchOne : Z := 95.

Inductive outcome := SQLITE_MATCH | SQLITE_NOMATCH | SQLITE_NOWILDCARDMATCH.

(** Whether the search after a [%] stops at the character [c2] of the
    text, [c] being the character of the pattern that follows the [%]:
    [zStop] holds both cases of an ASCII [c]. An ASCII character is one
    byte and no part of another character, so that the search by bytes of
    the engine finds what a search by characters finds. *)
Definition stops_at (c c2 : Z) : bool :=
  if c <? 0x80 then (c2 =? sqlite3Toupper c) || (c2 =? sqlite3Tolower c)
  else c2 =? c.

(** Whether [c] of the pattern takes [c2] of the text, outside a [%]. *)
Definition takes (c c2 : Z) : bool :=
  (c =? c2)
  || ((sqlite3Tolower c =? sqlite3Tolower c2) && (c <? 0x80) && (c2 <? 0x80))
  || (c =? matchOne).

(** [patternCompare] for LIKE without ESCAPE, on the characters of the
    pattern and of the text. [wild] says that a [%] has been read and only
    [%] and [_] since: each such [_] takes one character of the text. *)
Fixpoint patternCompare (wild : bool) (zPattern zString : list Z) {struct zPattern}
  : outcome :=
  match zPattern with
  | [] =>
      if wild then SQLITE_MATCH
      else match zString with
           | [] => SQLITE_MATCH
           | _ :: _ => SQLITE_NOMATCH
           end
  | c :: zPattern' =>
      if c =? matchAll then patternCompare true zPattern' zString
      else if wild then
        if c =? matchOne then
          match zString with
          | [] => SQLITE_NOWILDCARDMATCH
          | _ :: zString' => patternCompare true zPattern' zString'
          end
        else
          (fix search (zString : list Z) : outcome :=
             match zString with
             | [] => SQLITE_NOWILDCARDMATCH
             | c2 :: zString' =>
                 if stops_at c c2 then
                   match patternCompare false zPattern' zString' with
                   | SQLITE_NOMATCH => search zString'
                   | bMatch => bMatch
                   end
                 else search zString'
             end) zString
      else
        match zString with
        | [] => SQLITE_NOMATCH
        | c2 :: zString' =>
            if takes c c2 then patternCompare false zPattern' zString'
            else SQLITE_NOMATCH
        end
  end.

(** [s LIKE pattern] for two texts, the pattern being short enough. *)
Definition like (pattern s : string) : bool :=
  match patternCompare false (chars pattern) (chars s) with
  | SQLITE_MATCH => true
  | _ => false
  end.

(** The rows of the join [WHERE items.name LIKE ?]. A pattern beyond the
    limit makes the statement fail with "LIKE or GLOB pattern too complex"
    at the first row it looks at. That is inside a [rows.Next()], which
    then returns false as it does after the last row, so that the loops of
    the repository see no row at all. *)
Definition select_like (pattern : string) (d : DB) : list JoinedRow :=
  if SQLITE_MAX_LIKE_PATTERN_LENGTH <? Z.of_nat (String.length pattern) then []
  else select_items (fun it => like pattern (item_name it)) d.

End Sqlite.

(* ===================================================================== *)
(** ** The world the program runs in, and its errors                      *)
(* ===================================================================== *)

(** Go's [error] values that the program makes or tells apart. *)
Inductive error :=
| ErrNoRows                      (** [sql.ErrNoRows] *)
| ErrTxDone                      (** [sql.ErrTxDone] *)
| errImageNotFound               (** infra.go: "image not found" *)
| errItemNotFound                (** infra.go: "item not found" *)
| SqliteError (msg : string)     (** an error of the database driver *)
| PathError (msg : string)       (** an error of package [os] *)
| Errorf (msg : string)          (** [errors.New] and [fmt.Errorf] without [%w] *)
| Wrap (msg : string) (e : error) (** [fmt.Errorf("msg: %w", e)] *).

Definition is_ErrNoRows (e : error) : bool :=
  match e with ErrNoRows => true | _ => false end.

(** [errors.Is(err, errImageNotFound)]: looks through [%w] wrappers. *)
Fixpoint is_errImageNotFound (e : error) : bool :=
  match e with
  | errImageNotFound => true
  | Wrap _ e' => is_errImageNotFound e'
  | _ => false
  end.

Inductive result (A : Type) :=
| Ok (a : A)
| Err (e : error).
Arguments Ok {A} a.
Arguments Err {A} e.

(** The committed database, the open transaction of the handle (its private
    copy of the database), the files on disk, and what the environment will
    do to the coming calls of the driver and of [os]: each call takes the
    head of [faults]; [Some msg] makes that call fail with [msg], [None], or
    an exhausted list, lets it run. *)
Record World :=
  { db : Sqlite.DB;
    tx : option Sqlite.DB;
    fs : gmap string (list byte);
    faults : list (option string) }.

Definition set_db (d : Sqlite.DB) (w : World) : World :=
  {| db := d; tx := tx w; fs := fs w; faults := faults w |}.
Definition set_tx (t : option Sqlite.DB) (w : World) : World :=
  {| db := db w; tx := t; fs := fs w; faults := faults w |}.
Definition set_fs (f : gmap string (list byte)) (w : World) : World :=
  {| db := db w; tx := tx w; fs := f; faults := faults w |}.
Definition set_faults (l : list (option string)) (w : World) : World :=
  {| db := db w; tx := tx w; fs := fs w; faults := l |}.

(** Computations that read and change the world and may return an error. *)
Definition M (A : Type) : Type := World -> result A * World.

Definition ret {A} (a : A) : M A := fun w => (Ok a, w).
Definition throw {A} (e : error) : M A := fun w => (Err e, w).
Definition bind {A B} (m : M A) (k : A -> M B) : M B :=
  fun w => match m w with
           | (Ok a, w') => k a w'
           | (Err e, w') => (Err e, w')
           end.
(** [if err != nil { handler }] around one call. *)
Definition catch {A} (m : M A) (handler : error -> M A) : M A :=
  fun w => match m w with
           | (Ok a, w') => (Ok a, w')
           | (Err e, w') => handler e w'
           end.
(** [defer cleanup()]: runs when the body returns, whatever it returns; the
    value of [cleanup] is dropped. *)
Definition defer {A} (cleanup : M unit) (body : M A) : M A :=
  fun w => let (r, w') := body w in (r, snd (cleanup w')).

Notation "'let*' x ':=' m 'in' k" := (bind m (fun x => k))
  (at level 10, x name, m at level 100, k at level 200).

(** One call into the environment: fails when the environment says so. *)
Definition call (mk : string -> error) : M unit :=
  fun w => match faults w with
           | [] => (Ok tt, w)
           | None :: rest => (Ok tt, set_faults rest w)
           | Some msg :: rest => (Err (mk msg), set_faults rest w)
           end.

(** *** database/sql on the one handle of the process *)

(** [db.BeginTx(ctx, nil)]: the transaction starts from the committed state. *)
Definition BeginTx : M unit :=
  let* _ := call SqliteError in
  fun w => (Ok tt, set_tx (Some (db w)) w).

(** A statement run inside the transaction: it sees and changes the
    transaction's copy only. *)
Definition in_tx {A} (stmt : Sqlite.DB -> result A * Sqlite.DB) : M A :=
  fun w => match tx w with
           | None => (Err ErrTxDone, w)
           | Some d =>
               match call SqliteError w with
               | (Ok _, w') => let (r, d') := stmt d in (r, set_tx (Some d') w')
               | (Err e, w') => (Err e, w')
               end
           end.

(** [tx.Commit()]: a commit that fails leaves nothing behind (the driver
    rolls back). Either way the transaction is over. *)
Definition Commit : M unit :=
  fun w => match tx w with
           | None => (Err ErrTxDone, w)
           | Some d =>
               match call SqliteError w with
               | (Ok _, w') => (Ok tt, set_tx None (set_db d w'))
               | (Err e, w') => (Err e, set_tx None w')
               end
           end.

(** [tx.Rollback()]. *)
Definition Rollback : M unit :=
  fun w => match tx w with
           | None => (Err ErrTxDone, w)
           | Some _ => (Ok tt, set_tx None w)
           end.

(** [QueryRow(...).Scan(&x)] on rows already there: the first row,
    [sql.ErrNoRows] without one. *)
Definition scan_row {A} (rows : list A) : result A :=
  match rows with
  | r :: _ => Ok r
  | [] => Err ErrNoRows
  end.

(** [db.QueryRow(query, args...).Scan(...)] on the handle itself: it reads
    the committed state, and [Scan] reports what went wrong on the way. *)
Definition query_row {A} (q : Sqlite.DB -> list A) : M A :=
  let* _ := call SqliteError in
  fun w => (scan_row (q (db w)), w).

(** The loop [for rows.Next() { rows.Scan(...); items = append(items, item) }]
    over the rows of a result set. Every [rows.Next()] is a call of the
    driver. One that fails returns false, as the end of the rows does; its
    error is kept for [rows.Err()], which the repository never reads. *)
Fixpoint next_rows {A} (rows : list A) (w : World) : list A * World :=
  match call SqliteError w with
  | (Err _, w') => ([], w')
  | (Ok _, w') =>
      match rows with
      | [] => ([], w')
      | r :: rest => let (got, w'') := next_rows rest w' in (r :: got, w'')
      end
  end.

(** [db.Query(query, args...)] on the handle itself, and the loop over its
    rows. *)
Definition query_rows {A} (q : Sqlite.DB -> list A) : M (list A) :=
  let* _ := call SqliteError in
  fun w => let (got, w') := next_rows (q (db w)) w in (Ok got, w').

Definition exec_stmt (stmt : Sqlite.DB -> Sqlite.exec_result)
    (d : Sqlite.DB) : result unit * Sqlite.DB :=
  match stmt d with
  | Sqlite.Done d' => (Ok tt, d')
  | Sqlite.Failed msg => (Err (SqliteError msg), d)
  end.

(** *** package os *)

(** [os.Stat(name)] *)
Definition Stat (name : string) : M unit :=
  let* _ := call PathError in
  fun w => match fs w !! name with
           | Some _ => (Ok tt, w)
           | None => (Err (PathError "no such file or directory"), w)
           end.

(** [os.OpenFile(name, O_WRONLY|O_CREATE|O_TRUNC, perm)]: when it succeeds
    the file is there and empty, whatever it held. Whether it succeeds is
    up to the environment: the directory may be missing or read-only, the
    disk full. *)
Definition OpenFile (name : string) : M unit :=
  let* _ := call PathError in
  fun w => (Ok tt, set_fs (<[name := []]> (fs w)) w).

(** [f.Write(data)] on the file opened as [name], which holds [written]:
    the bytes reach the file one after the other, and the environment can
    make the write fail at any of them. The bytes before that one stay in
    the file. *)
Fixpoint Write (name : string) (written data : list byte) : M unit :=
  match data with
  | [] => ret tt
  | b :: rest =>
      let* _ := call PathError in
      let* _ := fun w => (Ok tt, set_fs (<[name := written ++ [b]]> (fs w)) w) in
      Write name (written ++ [b]) rest
  end.

(** [f.Close()] *)
Definition Close : M unit := call PathError.

(** [os.WriteFile(name, data, 0644)]: open, write, close. The file is
    closed whatever the write returned, and the error of [Close] counts
    only when the write returned none. *)
Definition WriteFile (name : string) (data : list byte) : M unit :=
  let* _ := OpenFile name in
  fun w =>
    let (err, w1) := Write name [] data w in
    let (err1, w2) := Close w1 in
    (match err with
     | Ok _ => err1
     | Err _ => err
     end, w2).

(** [os.ReadFile(name)] *)
Definition ReadFile (name : string) : M (list byte) :=
  let* _ := call PathError in
  fun w => match fs w !! name with
           | Some data => (Ok data, w)
           | None => (Err (PathError "no such file or directory"), w)
           end.

(* ===================================================================== *)
(** ** go/app/infra.go: the item repository                               *)
(* ===================================================================== *)

Record Item := { ID : Z; Name : string; Category : string; Image : string }.

Definition item_of_row (r : Sqlite.JoinedRow) : Item :=
  {| ID := Sqlite.j_id r; Name := Sqlite.j_name r;
     Category := Sqlite.j_category r; Image := Sqlite.j_image_name r |}.

(** [tx.QueryRowContext(ctx, "SELECT id FROM categories WHERE name = ?", name).Scan(&categoryID)] *)
Definition queryCategoryID (name : string) : M Z :=
  in_tx (fun d => (match Sqlite.select_category_id name d with
                   | Some id => Ok id
                   | None => Err ErrNoRows
                   end, d)).

(** [tx.ExecContext(ctx, "INSERT INTO categories (name) VALUES (?)", name)] *)
Definition execInsertCategory (name : string) : M unit :=
  in_tx (exec_stmt (Sqlite.insert_category name)).

(** [tx.ExecContext(ctx, query, item.Name, categoryID, item.Image)] *)
Definition execInsertItem (name : string) (categoryID : Z) (image : string) : M unit :=
  in_tx (exec_stmt (Sqlite.insert_item name categoryID image)).

(** infra.go, lines 75 to 92: the id of the category of the item, after
    creating the category when the lookup finds no row. *)
Definition resolveCategory (name : string) : M Z :=
  catch (queryCategoryID name)
    (fun err =>
       if is_ErrNoRows err then
         let* _ := execInsertCategory name in
         queryCategoryID name
       else throw err).

(** [(i *itemRepository) Insert(ctx, item)] *)
Definition Insert (item : Item) : M unit :=
  let* _ := BeginTx in
  defer Rollback
    (let* categoryID := resolveCategory (Category item) in
     let* _ := execInsertItem (Name item) categoryID (Image item) in
     Commit).

(** [(i *itemRepository) GetAll(ctx)] *)
Definition GetAll : M (list Item) :=
  query_rows (fun d => map item_of_row (Sqlite.select_items (fun _ => true) d)).

Section Engine.

(** How the engine reads a TEXT value that is compared with an INTEGER
    column: the integer the text stands for, if it stands for one. The
    rules for that belong to the engine and not to this program, so the
    conversion is a parameter. *)
Variable text_to_integer : string -> option Z.

Definition id_equals (item_id : string) (it : Sqlite.ItemRow) : bool :=
  match text_to_integer item_id with
  | Some n => Sqlite.item_id it =? n
  | None => false
  end.

(** [(i *itemRepository) GetItemById(ctx, item_id)] *)
Definition GetItemById (item_id : string) : M Item :=
  catch
    (query_row (fun d => map item_of_row
                           (Sqlite.select_items (id_equals item_id) d)))
    (fun err => if is_ErrNoRows err then throw errItemNotFound else throw err).

End Engine.

(** [(i *itemRepository) SearchItemsByKeyword(ctx, keyword)] *)
Definition SearchItemsByKeyword (keyword : string) : M (list Item) :=
  query_rows (fun d =>
    map item_of_row (Sqlite.select_like ("%" +:+ keyword +:+ "%") d)).

(** The reading of plain decimal numerals: one conversion of TEXT to
    INTEGER, used where a concrete one is needed. *)
Definition decimal_text (s : string) : option Z :=
  option_map Z.of_int (NilZero.int_of_string s).

(** [StoreImage(fileName, image)] of infra.go, which nothing calls since
    [storeImage] of the handlers took over. *)
Definition StoreImage (fileName : string) (image : list byte) : M unit :=
  let savePath := Filepath.ToSlash (Filepath.Join "images" fileName) in
  WriteFile savePath image.

(* ===================================================================== *)
(** ** go/app/server.go: the image store and the handlers around it       *)
(* ===================================================================== *)

(** [err.Error()] *)
Fixpoint Error (e : error) : string :=
  match e with
  | ErrNoRows => "sql: no rows in result set"
  | ErrTxDone => "sql: transaction has already been committed or rolled back"
  | errImageNotFound => "image not found"
  | errItemNotFound => "item not found"
  | SqliteError msg => msg
  | PathError msg => msg
  | Errorf msg => msg
  | Wrap msg e' => msg +:+ ": " +:+ Error e'
  end.

Record Handlers := { imgDirPath : string }.

(** What a handler does with the response writer. *)
Inductive Response :=
| HttpError (msg : string) (status : Z)   (** [http.Error(w, msg, status)] *)
| ServeFile (path : string)               (** [http.ServeFile(w, r, path)] *)
| WriteJSON (message : string)            (** the encoded [AddItemResponse] *).

(** [(s *Handlers) storeImage(image)] *)
Definition storeImage (s : Handlers) (image : list byte) : M string :=
  let hash := Sha256.Sum256 image in
  let fileName := Sha256.hex hash +:+ ".jpg" in
  let filePath := Filepath.ToSlash (Filepath.Join (imgDirPath s) fileName) in
  catch (let* _ := Stat filePath in ret filePath)
    (fun _ =>
       catch (let* _ := WriteFile filePath image in ret filePath)
         (fun err => throw (Wrap "failed to write image file" err))).

Definition accepted_suffix (path : string) : bool :=
  Strings.HasSuffix path ".jpg" || Strings.HasSuffix path ".jpeg".

(** [(s *Handlers) buildImagePath(imageFileName)]: Go returns both a path
    and an error; [None] is the nil error. *)
Definition buildImagePath (s : Handlers) (imageFileName : string)
  : World -> (string * option error) * World :=
  fun w =>
    let imgPath := Filepath.Join (imgDirPath s) (Filepath.Clean imageFileName) in
    let invalid := ("", Some (Errorf ("invalid image path: " +:+ imgPath))) in
    match Filepath.Rel (imgDirPath s) imgPath with
    | None => (invalid, w)
    | Some rel =>
        if Strings.HasPrefix rel ".." then (invalid, w)
        else if negb (Strings.HasSuffix imgPath ".jpg")
                && negb (Strings.HasSuffix imgPath ".jpeg")
        then (("", Some (Errorf ("image path does not end with .jpg or .jpeg: "
                                   +:+ imgPath))), w)
        else match Stat imgPath w with
             | (Err _, w') => ((imgPath, Some errImageNotFound), w')
             | (Ok _, w') => ((imgPath, None), w')
             end
    end.

(** [parseGetImageRequest(r)]: [fileName] is [r.PathValue("filename")]. *)
Definition parseGetImageRequest (fileName : string) : result string :=
  if String.eqb fileName "" then Err (Errorf "filename is required")
  else Ok fileName.

(** [(s *Handlers) GetImage(w, r)] *)
Definition GetImage (s : Handlers) (fileName : string) : World -> Response * World :=
  fun w =>
    match parseGetImageRequest fileName with
    | Err err => (HttpError (Error err) 400, w)
    | Ok req =>
        match buildImagePath s req w with
        | ((imgPath, None), w') => (ServeFile imgPath, w')
        | ((imgPath, Some err), w') =>
            if negb (is_errImageNotFound err)
            then (HttpError (Error err) 400, w')
            else (ServeFile (Filepath.Join (imgDirPath s) "default.jpg"), w')
        end
    end.

(** What [r.FormFile("image")] and [io.ReadAll(file)] give. *)
Inductive FormFileResult :=
| MissingFile                                      (** [http.ErrMissingFile] *)
| FormFileError (msg : string)                     (** any other error of [FormFile] *)
| Uploaded (filename : string) (imageData : list byte)
| Unreadable (filename : string) (msg : string)    (** [io.ReadAll] fails *).

(** The part of an [*http.Request] that [parseAddItemRequest] looks at.
    [ParseError] is the error of [ParseMultipartForm] or [ParseForm]. *)
Record Request :=
  { ContentType : string;
    ParseError : option string;
    FormName : string;
    FormCategory : string;
    FormFile : FormFileResult }.

Record AddItemRequest :=
  { req_Name : string; req_Category : string; req_Image : list byte }.

(** [parseAddItemRequest(r)] *)
Definition parseAddItemRequest (r : Request) : result AddItemRequest :=
  let validate (image : list byte) :=
    if String.eqb (FormName r) "" then Err (Errorf "name is required")
    else if String.eqb (FormCategory r) "" then Err (Errorf "category is required")
    else Ok {| req_Name := FormName r; req_Category := FormCategory r;
               req_Image := image |} in
  let jpg (filename : string) :=
    Strings.HasSuffix (Strings.ToLower filename) ".jpg"
    || Strings.HasSuffix (Strings.ToLower filename) ".jpeg" in
  if Strings.HasPrefix (ContentType r) "multipart/form-data" then
    match ParseError r with
    | Some msg => Err (Wrap "failed to parse multipart form" (Errorf msg))
    | None =>
        match FormFile r with
        | MissingFile => validate []
        | FormFileError msg => Err (Wrap "failed to get image file" (Errorf msg))
        | Uploaded filename imageData =>
            if negb (jpg filename)
            then Err (Errorf "only .jpg or .jpeg files are allowed")
            else if (length imageData =? 0)%nat
            then Err (Errorf "image data is empty")
            else validate imageData
        | Unreadable filename msg =>
            if negb (jpg filename)
            then Err (Errorf "only .jpg or .jpeg files are allowed")
            else Err (Wrap "failed to read image data" (Errorf msg))
        end
    end
  else
    match ParseError r with
    | Some msg => Err (Wrap "failed to parse form" (Errorf msg))
    | None => validate []
    end.

(** [(s *Handlers) AddItem(w, r)] *)
Definition AddItem (s : Handlers) (r : Request) : World -> Response * World :=
  fun w =>
    match parseAddItemRequest r with
    | Err err => (HttpError (Error err) 500, w)
    | Ok req =>
        let stored :=
          if (0 <? length (req_Image req))%nat
          then storeImage s (req_Image req) w
          else (let* defaultImage :=
                  ReadFile (Filepath.Join (imgDirPath s) "default.jpg") in
                storeImage s defaultImage) w in
        match stored with
        | (Err err, w1) => (HttpError (Error err) 500, w1)
        | (Ok fileName, w1) =>
            let item := {| ID := 0; Name := req_Name req; Category := req_Category req;
                           Image := Strings.TrimPrefix fileName "images/" |} in
            match Insert item w1 with
            | (Err err, w2) => (HttpError (Error err) 500, w2)
            | (Ok _, w2) => (WriteJSON ("item received: " +:+ Name item), w2)
            end
        end
    end.

(* ===================================================================== *)
(** ** go/app/server.go: the handlers that answer with JSON               *)
(* ===================================================================== *)

(** [errors.Is(err, errItemNotFound)] *)
Fixpoint is_errItemNotFound (e : error) : bool :=
  match e with
  | errItemNotFound => true
  | Wrap _ e' => is_errItemNotFound e'
  | _ => false
  end.

(** A JSON document, before it is written out. *)
#[warnings="-register-all"]
Inductive Json :=
| JNull
| JNumber (n : Z)
| JString (s : string)
| JArray (elements : list Json)
| JObject (members : list (string * Json)).

(** [json.Marshal(item)], by the tags of [Item]. The element type of the
    response of [GetItems] carries the same four tags. *)
Definition item_json (item : Item) : Json :=
  JObject [("id", JNumber (ID item)); ("name", JString (Name item));
           ("category", JString (Category item));
           ("image_name", JString (Image item))].

(** A Go slice of documents: nil until [append] gives it an element, and
    [null] in JSON as long as it is nil. *)
Definition append_slice (s : option (list Json)) (x : Json) : option (list Json) :=
  Some (match s with
        | None => [x]
        | Some l => l ++ [x]
        end).

Definition slice_json (s : option (list Json)) : Json :=
  match s with
  | None => JNull
  | Some l => JArray l
  end.

(** [Item{}] *)
Definition zero_Item : Item := {| ID := 0; Name := ""; Category := ""; Image := "" |}.

(** What a handler calls on its [http.ResponseWriter], in the order of the
    calls. Writing to the client is taken to succeed. *)
Inductive WriterCall :=
| SendError (msg : string) (code : Z)   (** [http.Error(w, msg, code)] *)
| SetHeader (key value : string)        (** [w.Header().Set(key, value)] *)
| EncodeJSON (doc : Json)               (** [json.NewEncoder(w).Encode(v)] *)
| WriteBody (doc : Json)                (** [w.Write(jsonData)] after [json.Marshal] *).

(** How a handler ends: it returns, or it dereferences a nil pointer. *)
Inductive Ending := Returned | Panicked.

Definition Handler : Type := World -> (list WriterCall * Ending) * World.

(** The status net/http sends for these calls: that of the first
    [http.Error]; 200 when the body is written before any, or when nothing
    is written at all. Setting a header sends nothing. *)
Fixpoint status_code (calls : list WriterCall) : Z :=
  match calls with
  | SendError _ code :: _ => code
  | SetHeader _ _ :: rest => status_code rest
  | EncodeJSON _ :: _ => 200
  | WriteBody _ :: _ => 200
  | [] => 200
  end.

(** The documents written to the body, in order. *)
Fixpoint documents (calls : list WriterCall) : list Json :=
  match calls with
  | EncodeJSON doc :: rest => doc :: documents rest
  | WriteBody doc :: rest => doc :: documents rest
  | _ :: rest => documents rest
  | [] => []
  end.

(** [parseGetItemByIdRequest(r)]: [item_id] is [r.PathValue("item_id")].
    With the error Go returns a nil request. *)
Definition parseGetItemByIdRequest (item_id : string) : result string :=
  if String.eqb item_id "" then Err (Errorf "id is required")
  else Ok item_id.

(** [parseGetItemByKeywordRequest(r)]: [keyword] is
    [r.URL.Query().Get("keyword")]. *)
Definition parseGetItemByKeywordRequest (keyword : string) : result string :=
  if String.eqb keyword "" then Err (Errorf "keyword is required")
  else Ok keyword.

Module Handlers.

(** [(s *Handlers) Hello(w, r)] *)
Definition Hello : Handler :=
  fun w => (([EncodeJSON (JObject [("message", JString "Hello, world!")])], Returned), w).

(** [(s *Handlers) GetItems(w, r)]: the items are appended one by one to
    the nil slice [response.Items]. *)
Definition GetItems : Handler :=
  fun w =>
    match GetAll w with
    | (Err err, w') => (([SendError (Error err) 500], Returned), w')
    | (Ok items, w') =>
        let response_Items :=
          fold_left (fun acc item => append_slice acc (item_json item)) items None in
        (([SetHeader "Content-Type" "application/json";
           EncodeJSON (JObject [("items", slice_json response_Items)])], Returned), w')
    end.

(** [(s *Handlers) GetItemById(w, r)]. Neither the failure of
    [parseGetItemByIdRequest] nor an error other than [errItemNotFound] is
    followed by a return: after the first the nil request is dereferenced,
    after the second the zero item that came with the error is written. *)
Definition GetItemById (text_to_integer : string -> option Z) (item_id : string)
  : Handler :=
  fun w =>
    match parseGetItemByIdRequest item_id with
    | Err err => (([SendError (Error err) 400], Panicked), w)
    | Ok req =>
        let write (item : Item) :=
          [SetHeader "Content-Type" "application/json"; WriteBody (item_json item)] in
        match GetItemById text_to_integer req w with
        | (Err err, w') =>
            if is_errItemNotFound err
            then (([SendError (Error err) 404], Returned), w')
            else ((SendError (Error err) 400 :: write zero_Item, Returned), w')
        | (Ok item, w') => ((write item, Returned), w')
        end
    end.

(** [(s *Handlers) SearchItemsByKeyword(w, r)]. An error other than
    [errItemNotFound] is not followed by a return either; the slice that
    came with it is nil, and a nil slice is replaced by an empty one before
    it is written. The repository returns a nil slice exactly when it has
    appended no item. *)
Definition SearchItemsByKeyword (keyword : string) : Handler :=
  fun w =>
    match parseGetItemByKeywordRequest keyword with
    | Err err => (([SendError (Error err) 400], Returned), w)
    | Ok req =>
        let write (items : list Item) :=
          [SetHeader "Content-Type" "application/json";
           WriteBody (JArray (map item_json items))] in
        match SearchItemsByKeyword req w with
        | (Err err, w') =>
            if is_errItemNotFound err
            then (([SendError (Error err) 404], Returned), w')
            else ((SendError (Error err) 400 :: write [], Returned), w')
        | (Ok items, w') => ((write items, Returned), w')
        end
    end.

End Handlers.

(* ===================================================================== *)
(** ** The repository before the transaction, and the item list of the web client *)
(* ===================================================================== *)

(** [db.Exec(query, args...)] on the handle itself: the statement is a
    transaction of its own. The value is the database the statement left,
    for what the [sql.Result] tells about it. *)
Definition Exec (stmt : Sqlite.DB -> Sqlite.exec_result) : M Sqlite.DB :=
  let* _ := call SqliteError in
  fun w => match stmt (db w) with
           | Sqlite.Done d' => (Ok d', set_db d' w)
           | Sqlite.Failed msg => (Err (SqliteError msg), w)
           end.

(** [res.LastInsertId()] after an insert into [categories]. *)
Definition LastInsertId (res : Sqlite.DB) : Z := Sqlite.categories_seq res.

Module Earlier.

(** [(i *itemRepository) Insert(ctx, item)] as an earlier revision of
    infra.go has it, before it ran in a transaction: the lookup, the insert
    of the category and the insert of the item are three statements on the
    handle itself, and the id of a new category is [res.LastInsertId()]. *)
Definition Insert (item : Item) : M unit :=
  let* categoryID :=
    catch (query_row (fun d => match Sqlite.select_category_id (Category item) d with
                               | Some id => [id]
                               | None => []
                               end))
      (fun err =>
         if is_ErrNoRows err then
           let* res := Exec (Sqlite.insert_category (Category item)) in
           ret (LastInsertId res)
         else throw err) in
  let* _ := Exec (Sqlite.insert_item (Name item) categoryID (Image item)) in
  ret tt.

End Earlier.

(** typescript/simple-mercari-web/src/components/ItemList.tsx: the [src] of
    the picture of an item,
    [`http://localhost:9000/images/${item.image_name}.jpg`]. *)
Definition ItemList_img_src (image_name : string) : string :=
  "http://localhost:9000/images/" +:+ image_name +:+ ".jpg".

(* ===================================================================== *)
(** ** Invariants of the stored state, and sample data                    *)
(* ===================================================================== *)

Definition category_names (d : Sqlite.DB) : list string :=
  map Sqlite.cat_name (Sqlite.categories d).

(** Some category row has exactly this name. *)
Definition category_seen (name : string) (d : Sqlite.DB) : bool :=
  existsb (fun c => String.eqb (Sqlite.cat_name c) name) (Sqlite.categories d).

(** What db/items.sql declares of every state: the two [id] columns are
    primary keys and [categories.name] is UNIQUE. *)
Definition schema_ok (d : Sqlite.DB) : Prop :=
  NoDup (map Sqlite.cat_id (Sqlite.categories d))
  /\ NoDup (category_names d)
  /\ NoDup (map Sqlite.item_id (Sqlite.items d)).

(** Every item row refers to a category row. The engine does not check
    this; [Insert] keeps it. *)
Definition references_ok (d : Sqlite.DB) : Prop :=
  Forall (fun it => In (Sqlite.item_category_id it)
                       (map Sqlite.cat_id (Sqlite.categories d)))
         (Sqlite.items d).

(** The databases the repository can produce: the empty one that
    [NewItemRepository] provisions, and what calls of [Insert] make of it,
    whatever the rest of the world is at each call and whatever the call
    returns. *)
Inductive reachable : Sqlite.DB -> Prop :=
| reachable_empty : reachable Sqlite.empty_db
| reachable_Insert w item r w' :
    reachable (db w) -> Insert item w = (r, w') -> reachable (db w').

(** The category step of a transaction that started from [d]. *)
Inductive category_resolved (name : string) (d : Sqlite.DB) : Z -> Sqlite.DB -> Prop :=
| category_found cid :
    Sqlite.select_category_id name d = Some cid ->
    category_resolved name d cid d
| category_created cid d1 :
    Sqlite.select_category_id name d = None ->
    Sqlite.insert_category name d = Sqlite.Done d1 ->
    Sqlite.select_category_id name d1 = Some cid ->
    category_resolved name d cid d1.

(** *** Being under the image directory *)

Fixpoint has_sep (s : string) : bool :=
  match s with
  | EmptyString => false
  | String c rest => Ascii.eqb c Filepath.Separator || has_sep rest
  end.

(** A name of a file or directory: not empty, not [.], not [..], and
    without a separator. *)
Definition plain (e : string) : bool :=
  negb (String.eqb e "") && negb (String.eqb e ".") && negb (String.eqb e "..")
  && negb (has_sep e).

(** The shape of a cleaned path: [..] elements in front, and only in a
    relative path, then plain names. *)
Definition clean_shape (is_rooted : bool) (names : list string) : Prop :=
  exists k plains, names = repeat ".." k ++ plains
                   /\ Forall (fun e => plain e = true) plains
                   /\ (is_rooted = true -> k = 0%nat).

(** The elements of the cleaned image directory, the current directory
    having none. *)
Definition root_elems (dir : string) : list string :=
  let base := Filepath.Clean dir in
  Filepath.elems (if String.eqb base "." then "" else base).

(** [path] leads to the image directory or below it: its elements are
    those of the cleaned directory followed by plain names only. *)
Definition under_root (dir path : string) : Prop :=
  exists names, Forall (fun e => plain e = true) names
                /\ Filepath.elems path = root_elems dir ++ names.

(** [path] leads below the image directory, not to it. *)
Definition strictly_under_root (dir path : string) : Prop :=
  exists name names, Forall (fun e => plain e = true) (name :: names)
                     /\ Filepath.elems path = root_elems dir ++ name :: names.

(** The errors of [buildImagePath] that [GetImage] answers with status 400:
    all but [errImageNotFound]. *)
Definition invalid_request (e : option error) : bool :=
  match e with
  | Some err => negb (is_errImageNotFound err)
  | None => false
  end.

(** *** Holding a keyword, whatever the case of its ASCII letters *)

Fixpoint prefix_nocase (keyword s : string) : bool :=
  match keyword, s with
  | EmptyString, _ => true
  | String k keyword', String c s' =>
      Ascii.eqb (Sqlite.lower k) (Sqlite.lower c) && prefix_nocase keyword' s'
  | String _ _, EmptyString => false
  end.

(** [keyword] occurs somewhere in [s]. *)
Fixpoint contains_nocase (keyword s : string) : bool :=
  prefix_nocase keyword s
  || match s with
     | EmptyString => false
     | String _ s' => contains_nocase keyword s'
     end.

(** A keyword without the two wildcards of LIKE. *)
Fixpoint wildcard_free (keyword : string) : bool :=
  match keyword with
  | EmptyString => true
  | String c rest =>
      negb (Ascii.eqb c "%") && negb (Ascii.eqb c "_") && wildcard_free rest
  end.

(** A text without a zero byte. *)
Fixpoint zero_free (s : string) : bool :=
  match s with
  | EmptyString => true
  | String c rest => negb (Ascii.eqb c zero) && zero_free rest
  end.

(** A text of ASCII characters only. *)
Fixpoint ascii_only (s : string) : bool :=
  match s with
  | EmptyString => true
  | String c rest => (Sqlite.byte_value c <? 128) && ascii_only rest
  end.

(** Two characters that are the same to LIKE: equal, or ASCII letters that
    differ in case only. *)
Definition same_char (c c2 : Z) : bool :=
  (c =? c2)
  || ((Sqlite.sqlite3Tolower c =? Sqlite.sqlite3Tolower c2) && (c <? 128) && (c2 <? 128)).

Fixpoint prefix_chars (keyword s : list Z) : bool :=
  match keyword, s with
  | [], _ => true
  | k :: keyword', c :: s' => same_char k c && prefix_chars keyword' s'
  | _ :: _, [] => false
  end.

(** The characters of [keyword] occur somewhere in [s], one after the other. *)
Fixpoint contains_chars (keyword s : list Z) : bool :=
  prefix_chars keyword s
  || match s with
     | [] => false
     | _ :: s' => contains_chars keyword s'
     end.

(** A character of a pattern that is no wildcard. *)
Definition literal (c : Z) : Prop := c <> Sqlite.matchAll /\ c <> Sqlite.matchOne.

(** An item as [GetAll] shows it, next to its row. *)
Definition shows (d : Sqlite.DB) (it : Sqlite.ItemRow) (item : Item) : Prop :=
  ID item = Sqlite.item_id it /\ Name item = Sqlite.item_name it
  /\ Image item = Sqlite.item_image_name it
  /\ In {| Sqlite.cat_id := Sqlite.item_category_id it; Sqlite.cat_name := Category item |}
        (Sqlite.categories d).

(** The coming call into the environment is not made to fail. *)
Definition next_call_ok (w : World) : bool :=
  match faults w with
  | Some _ :: _ => false
  | _ => true
  end.

(** The environment makes no coming call fail. *)
Definition no_faults (w : World) : bool :=
  forallb (fun f => match f with None => true | Some _ => false end) (faults w).

(** A freshly provisioned service: empty tables, the default image on disk. *)
Definition fresh_world : World :=
  {| db := Sqlite.empty_db; tx := None;
     fs := {[ "images/default.jpg" := bytes_of_string "default image" ]};
     faults := [] |}.

Definition new_item (name category image : string) : Item :=
  {| ID := 0; Name := name; Category := category; Image := image |}.

(** The world after [m]. *)
Definition after {A} (m : M A) (w : World) : World := snd (m w).

(** The catalog of the search example of the spec. *)
Definition shirts_world : World :=
  after (Insert (new_item "Pants" "Bottoms" "c.jpg"))
    (after (Insert (new_item "Shirt" "Tops" "b.jpg"))
       (after (Insert (new_item "Blue Shirt" "Tops" "a.jpg")) fresh_world)).

Definition images_handlers : Handlers := {| imgDirPath := "images" |}.

(** *** The catalog as the handlers show it *)

(** The name of the category row of this id, the empty string without one. *)
Definition category_name_of (d : Sqlite.DB) (cid : Z) : string :=
  match List.find (fun c => Sqlite.cat_id c =? cid) (Sqlite.categories d) with
  | Some c => Sqlite.cat_name c
  | None => ""
  end.

(** An item row with the name of its category. *)
Definition shown (d : Sqlite.DB) (it : Sqlite.ItemRow) : Item :=
  {| ID := Sqlite.item_id it; Name := Sqlite.item_name it;
     Category := category_name_of d (Sqlite.item_category_id it);
     Image := Sqlite.item_image_name it |}.

(** The answer with one JSON document and status 200. *)
Definition json_answer (write : Json -> WriterCall) (doc : Json)
  : list WriterCall * Ending :=
  ([SetHeader "Content-Type" "application/json"; write doc], Returned).

(** Nothing stored has changed between two worlds. *)
Definition untouched (w w' : World) : Prop :=
  db w' = db w /\ tx w' = tx w /\ fs w' = fs w.

(** The ids of the item rows, in storage order. *)
Definition item_ids (d : Sqlite.DB) : list Z := map Sqlite.item_id (Sqlite.items d).

(** A file name that [parseAddItemRequest] takes for that of a JPEG. *)
Definition jpg_name (filename : string) : bool :=
  Strings.HasSuffix (Strings.ToLower filename) ".jpg"
  || Strings.HasSuffix (Strings.ToLower filename) ".jpeg".

(** The image bytes that [parseAddItemRequest] takes from a request: those
    of a non-empty file with the name of a JPEG in a multipart form, none
    when the form has no file or is not multipart. Other forms are refused. *)
Definition accepted_image (r : Request) (image : list byte) : Prop :=
  if Strings.HasPrefix (ContentType r) "multipart/form-data"
  then (FormFile r = MissingFile /\ image = [])
       \/ (exists filename, FormFile r = Uploaded filename image
                            /\ image <> [] /\ jpg_name filename = true)
  else image = [].

(* ===================================================================== *)
(** * Facts                                                               *)
(* ===================================================================== *)

(** ** The digest on the standard test vectors *)

Example sha256_abc :
  Sha256.hex (Sha256.Sum256 (bytes_of_string "abc"))
  = "ba7816bf8f01cfea414140de5dae2223b00361a396177a9cb410ff61f20015ad".
Proof. vm_compute. reflexivity. Qed.

Example sha256_empty :
  Sha256.hex (Sha256.Sum256 [])
  = "e3b0c44298fc1c149afbf4c8996fb92427ae41e4649b934ca495991b7852b855".
Proof. vm_compute. reflexivity. Qed.

(** ** What the primitives leave alone *)

Lemma call_frame mk w r w' :
  call mk w = (r, w') -> db w' = db w /\ tx w' = tx w /\ fs w' = fs w.
Proof.
  unfold call. destruct (faults w) as [|[msg|] rest]; intros [= <- <-]; auto.
Qed.

Lemma BeginTx_ok w w0 :
  BeginTx w = (Ok tt, w0) ->
  db w0 = db w /\ tx w0 = Some (db w) /\ fs w0 = fs w.
Proof.
  unfold BeginTx, bind. destruct (call SqliteError w) as [[[]|e] w1] eqn:Hc; [|discriminate].
  apply call_frame in Hc as (Hd & _ & Hf). intros [= <-]. cbn. rewrite Hd. auto.
Qed.

Lemma BeginTx_err w e w0 :
  BeginTx w = (Err e, w0) ->
  db w0 = db w /\ tx w0 = tx w /\ fs w0 = fs w.
Proof.
  unfold BeginTx, bind. destruct (call SqliteError w) as [[[]|e'] w1] eqn:Hc; [discriminate|].
  intros [= <- <-]. eapply call_frame; eauto.
Qed.

Lemma in_tx_frame {A} (stmt : Sqlite.DB -> result A * Sqlite.DB) w r w' :
  in_tx stmt w = (r, w') ->
  db w' = db w /\ fs w' = fs w /\ (tx w = None -> tx w' = None).
Proof.
  unfold in_tx. destruct (tx w) as [d|] eqn:Ht.
  - destruct (call SqliteError w) as [[[]|e] w1] eqn:Hc.
    + apply call_frame in Hc as (Hd & _ & Hf).
      destruct (stmt d) as [r' d']. intros [= <- <-]. cbn. repeat split; auto. discriminate.
    + apply call_frame in Hc as (Hd & _ & Hf). intros [= <- <-]. repeat split; auto. discriminate.
  - intros [= <- <-]. auto.
Qed.

Lemma Rollback_frame w :
  db (snd (Rollback w)) = db w /\ tx (snd (Rollback w)) = None
  /\ fs (snd (Rollback w)) = fs w.
Proof. unfold Rollback. destruct (tx w) eqn:Ht; cbn; auto. Qed.

Lemma Commit_err w e w' :
  Commit w = (Err e, w') -> db w' = db w /\ fs w' = fs w.
Proof.
  unfold Commit. destruct (tx w) as [d|]; [|intros [= <- <-]; auto].
  destruct (call SqliteError w) as [[[]|e'] w1] eqn:Hc; [discriminate|].
  apply call_frame in Hc as (Hd & _ & Hf). intros [= <- <-]. cbn. auto.
Qed.

Lemma resolveCategory_frame name w r w' :
  resolveCategory name w = (r, w') ->
  db w' = db w /\ fs w' = fs w /\ (tx w = None -> tx w' = None).
Proof.
  unfold resolveCategory, catch, queryCategoryID, execInsertCategory, bind, throw.
  destruct (in_tx _ w) as [[id|e] w1] eqn:H1.
  - intros [= <- <-]. eapply in_tx_frame; eauto.
  - apply in_tx_frame in H1 as (Hd1 & Hf1 & Ht1).
    destruct (is_ErrNoRows e).
    + destruct (in_tx _ w1) as [[[]|e2] w2] eqn:H2.
      * apply in_tx_frame in H2 as (Hd2 & Hf2 & Ht2).
        intros H3. apply in_tx_frame in H3 as (Hd3 & Hf3 & Ht3).
        repeat split; try congruence. auto.
      * apply in_tx_frame in H2 as (Hd2 & Hf2 & Ht2).
        intros [= <- <-]. repeat split; try congruence. auto.
    + intros [= <- <-]. auto.
Qed.

(** Whatever makes [Insert] return an error, the committed database and the
    files are what they were before the call. *)
Lemma Insert_err_unchanged item w e w' :
  Insert item w = (Err e, w') -> db w' = db w /\ fs w' = fs w.
Proof.
  unfold Insert, bind, defer.
  destruct (BeginTx w) as [[[]|e0] w0] eqn:Hb.
  - apply BeginTx_ok in Hb as (Hd0 & _ & Hf0).
    destruct (resolveCategory _ w0) as [[id|e1] w1] eqn:Hr.
    + apply resolveCategory_frame in Hr as (Hd1 & Hf1 & _).
      destruct (execInsertItem _ _ _ w1) as [[[]|e2] w2] eqn:Hi.
      * apply in_tx_frame in Hi as (Hd2 & Hf2 & _).
        destruct (Commit w2) as [[[]|e3] w3] eqn:Hc; [discriminate|].
        apply Commit_err in Hc as (Hd3 & Hf3).
        intros [= <- <-]. destruct (Rollback_frame w3) as (-> & _ & ->).
        split; congruence.
      * apply in_tx_frame in Hi as (Hd2 & Hf2 & _).
        intros [= <- <-]. destruct (Rollback_frame w2) as (-> & _ & ->).
        split; congruence.
    + apply resolveCategory_frame in Hr as (Hd1 & Hf1 & _).
      intros [= <- <-]. destruct (Rollback_frame w1) as (-> & _ & ->).
      split; congruence.
  - intros [= <- <-]. apply BeginTx_err in Hb as (? & _ & ?). auto.
Qed.

(** C1. [Insert] is all or nothing. Whenever the insert of the item row
    fails, after the transaction began and the category was looked up or
    created inside it, [Insert] returns that error, the transaction is
    closed, and the committed database equals the one before the call: a
    category row created on the way is gone with the transaction. *)
Theorem Insert_atomic_on_item_failure item w w0 id w1 e w2 :
  BeginTx w = (Ok tt, w0) ->
  resolveCategory (Category item) w0 = (Ok id, w1) ->
  execInsertItem (Name item) id (Image item) w1 = (Err e, w2) ->
  exists w', Insert item w = (Err e, w')
             /\ db w' = db w /\ tx w' = None /\ fs w' = fs w.
Proof.
  intros Hb Hr Hi. eexists. split.
  - unfold Insert, bind, defer. rewrite Hb, Hr, Hi. reflexivity.
  - cbn. destruct (Rollback_frame w2) as (-> & -> & ->).
    apply BeginTx_ok in Hb as (Hd0 & _ & Hf0).
    apply resolveCategory_frame in Hr as (Hd1 & Hf1 & _).
    apply in_tx_frame in Hi as (Hd2 & Hf2 & _).
    repeat split; congruence.
Qed.

(** C1 at work: the category "Sports" is new, the item insert hits a disk
    error after the category row was written inside the transaction. *)
Lemma Insert_atomic_on_item_failure_witness :
  let w := set_faults [None; None; None; None; Some "disk I/O error"] fresh_world in
  exists w', Insert (new_item "Bike" "Sports" "f.jpg") w
             = (Err (SqliteError "disk I/O error"), w')
             /\ db w' = db w /\ tx w' = None /\ fs w' = fs w.
Proof.
  eapply (Insert_atomic_on_item_failure (new_item "Bike" "Sports" "f.jpg"));
    reflexivity.
Defined.

(** ** What a successful [Insert] did *)

Lemma in_tx_ok {A} (stmt : Sqlite.DB -> result A * Sqlite.DB) w a w' :
  in_tx stmt w = (Ok a, w') ->
  exists d d', tx w = Some d /\ stmt d = (Ok a, d') /\ tx w' = Some d'
               /\ db w' = db w /\ fs w' = fs w.
Proof.
  unfold in_tx. destruct (tx w) as [d|] eqn:Ht; [|discriminate].
  destruct (call SqliteError w) as [[[]|e] w1] eqn:Hc; [|discriminate].
  apply call_frame in Hc as (Hd & _ & Hf).
  destruct (stmt d) as [r d'] eqn:Hs. intros [= -> <-].
  exists d, d'. cbn. auto.
Qed.

Lemma in_tx_no_rows {A} (stmt : Sqlite.DB -> result A * Sqlite.DB) w e w' :
  in_tx stmt w = (Err e, w') -> is_ErrNoRows e = true ->
  exists d d', tx w = Some d /\ stmt d = (Err ErrNoRows, d') /\ tx w' = Some d'
               /\ db w' = db w /\ fs w' = fs w.
Proof.
  unfold in_tx. destruct (tx w) as [d|] eqn:Ht; [|intros [= <- <-]; discriminate].
  unfold call. destruct (faults w) as [|[msg|] rest];
    try (intros [= <- <-]; discriminate);
    destruct (stmt d) as [r d'] eqn:Hs; intros [= -> <-] He;
    destruct e; try discriminate; exists d, d'; cbn; auto.
Qed.

Lemma Commit_ok w w' :
  Commit w = (Ok tt, w') ->
  exists d, tx w = Some d /\ db w' = d /\ tx w' = None /\ fs w' = fs w.
Proof.
  unfold Commit. destruct (tx w) as [d|] eqn:Ht; [|discriminate].
  destruct (call SqliteError w) as [[[]|e] w1] eqn:Hc; [|discriminate].
  apply call_frame in Hc as (Hd & _ & Hf). intros [= <-]. exists d. cbn. auto.
Qed.

Lemma exec_stmt_ok stmt d d' :
  exec_stmt stmt d = (Ok tt, d') -> stmt d = Sqlite.Done d'.
Proof. unfold exec_stmt. destruct (stmt d); intros [= <-]; reflexivity. Qed.

Lemma resolveCategory_ok name w cid w1 d :
  tx w = Some d ->
  resolveCategory name w = (Ok cid, w1) ->
  exists d1, category_resolved name d cid d1 /\ tx w1 = Some d1
             /\ db w1 = db w /\ fs w1 = fs w.
Proof.
  intros Ht. unfold resolveCategory, catch, queryCategoryID, execInsertCategory, bind, throw.
  destruct (in_tx _ w) as [[id|e] w0] eqn:H1.
  - intros [= -> <-]. apply in_tx_ok in H1 as (d0 & d0' & Ht0 & Hs & Ht' & Hd & Hf).
    rewrite Ht in Ht0. injection Ht0 as <-.
    destruct (Sqlite.select_category_id name d) as [id|] eqn:Hsel; [|discriminate].
    injection Hs as -> <-. exists d. split; [constructor; exact Hsel|auto].
  - destruct (is_ErrNoRows e) eqn:He; [|discriminate].
    apply in_tx_no_rows in H1 as (d0 & d0' & Ht0 & Hs & Ht' & Hd & Hf); [|exact He].
    rewrite Ht in Ht0. injection Ht0 as <-.
    destruct (Sqlite.select_category_id name d) as [id|] eqn:Hsel; [discriminate|].
    injection Hs as <-.
    destruct (in_tx _ w0) as [[[]|e2] w2] eqn:H2; [|discriminate].
    apply in_tx_ok in H2 as (d2 & d2' & Ht2 & Hs2 & Ht2' & Hd2 & Hf2).
    rewrite Ht' in Ht2. injection Ht2 as <-.
    apply exec_stmt_ok in Hs2.
    intros H3. apply in_tx_ok in H3 as (d3 & d3' & Ht3 & Hs3 & Ht3' & Hd3 & Hf3).
    rewrite Ht2' in Ht3. injection Ht3 as <-.
    destruct (Sqlite.select_category_id name d2') as [id|] eqn:Hsel3; [|discriminate].
    injection Hs3 as -> <-.
    exists d2'. split; [eapply category_created; eauto|].
    repeat split; congruence.
Qed.

Lemma Insert_ok item w w' :
  Insert item w = (Ok tt, w') ->
  exists cid d1,
    category_resolved (Category item) (db w) cid d1
    /\ Sqlite.insert_item (Name item) cid (Image item) d1 = Sqlite.Done (db w')
    /\ tx w' = None /\ fs w' = fs w.
Proof.
  unfold Insert, bind, defer.
  destruct (BeginTx w) as [[[]|e0] w0] eqn:Hb; [|discriminate].
  apply BeginTx_ok in Hb as (Hd0 & Ht0 & Hf0).
  destruct (resolveCategory _ w0) as [[cid|e1] w1] eqn:Hr;
    [|intros [= <-]; discriminate].
  eapply resolveCategory_ok in Hr as (d1 & Hcat & Ht1 & Hd1 & Hf1); [|exact Ht0].
  destruct (execInsertItem _ _ _ w1) as [[[]|e2] w2] eqn:Hi;
    [|intros [= <-]; discriminate].
  apply in_tx_ok in Hi as (d2 & d2' & Ht2 & Hs2 & Ht2' & Hd2 & Hf2).
  rewrite Ht1 in Ht2. injection Ht2 as <-. apply exec_stmt_ok in Hs2.
  destruct (Commit w2) as [[[]|e3] w3] eqn:Hc; [|intros [= <-]; discriminate].
  apply Commit_ok in Hc as (d3 & Ht3 & Hd3 & Ht3' & Hf3).
  rewrite Ht2' in Ht3. injection Ht3 as <-.
  intros [= <-]. exists cid, d1.
  destruct (Rollback_frame w3) as (-> & -> & ->).
  rewrite Hd3. repeat split; auto; congruence.
Qed.

(** ** Row ids and the two INSERT statements *)

Lemma fold_max_ge ids seq x :
  In x ids -> x <= fold_right Z.max seq ids.
Proof.
  induction ids as [|y ids IH]; cbn; [tauto|].
  intros [->|H]; [lia|]. specialize (IH H). lia.
Qed.

Lemma next_rowid_fresh ids seq id :
  Sqlite.next_rowid ids seq = Some id -> ~ In id ids.
Proof.
  unfold Sqlite.next_rowid.
  destruct (_ <? _); [|discriminate]. intros [= <-] Hin.
  apply (fold_max_ge _ seq) in Hin. lia.
Qed.

Lemma NoDup_snoc {A} (l : list A) (x : A) :
  NoDup l -> ~ In x l -> NoDup (l ++ [x]).
Proof.
  induction 1 as [|y l Hy Hl IH]; cbn; intros Hx.
  - constructor; [|constructor]. rewrite list_elem_of_In. tauto.
  - constructor.
    + rewrite list_elem_of_In, in_app_iff. rewrite list_elem_of_In in Hy.
      cbn. intuition congruence.
    + apply IH. tauto.
Qed.

Lemma NoDup_map_inj {A B} (f : A -> B) (l : list A) (a b : A) :
  NoDup (map f l) -> In a l -> In b l -> f a = f b -> a = b.
Proof.
  induction l as [|x l IH]; cbn; [tauto|].
  rewrite NoDup_cons, list_elem_of_In. intros [Hx Hl] [->|Ha] [->|Hb] Hf; auto.
  - exfalso. apply Hx. rewrite Hf. apply in_map, Hb.
  - exfalso. apply Hx. rewrite <- Hf. apply in_map, Ha.
Qed.

Lemma insert_category_Done name d d1 :
  Sqlite.insert_category name d = Sqlite.Done d1 ->
  exists id,
    Sqlite.categories d1
    = Sqlite.categories d ++ [{| Sqlite.cat_id := id; Sqlite.cat_name := name |}]
    /\ ~ In id (map Sqlite.cat_id (Sqlite.categories d))
    /\ ~ In name (category_names d)
    /\ Sqlite.items d1 = Sqlite.items d
    /\ Sqlite.items_seq d1 = Sqlite.items_seq d.
Proof.
  unfold Sqlite.insert_category.
  destruct (existsb _ _) eqn:Hex; [discriminate|].
  destruct (Sqlite.next_rowid _ _) as [id|] eqn:Hid; [|discriminate].
  intros [= <-]. exists id. cbn. repeat split; auto.
  - eapply next_rowid_fresh; eauto.
  - unfold category_names. rewrite in_map_iff. intros (c & Hc & Hin).
    assert (existsb (fun c => String.eqb (Sqlite.cat_name c) name) (Sqlite.categories d) = true)
      as Habs; [|congruence].
    apply existsb_exists. exists c. split; [exact Hin|]. now apply String.eqb_eq.
Qed.

Lemma insert_item_Done name cid image d d2 :
  Sqlite.insert_item name cid image d = Sqlite.Done d2 ->
  exists id,
    Sqlite.items d2
    = Sqlite.items d ++ [{| Sqlite.item_id := id; Sqlite.item_name := name;
                            Sqlite.item_category_id := cid;
                            Sqlite.item_image_name := image |}]
    /\ ~ In id (map Sqlite.item_id (Sqlite.items d))
    /\ Sqlite.categories d2 = Sqlite.categories d.
Proof.
  unfold Sqlite.insert_item.
  destruct (Sqlite.next_rowid _ _) as [id|] eqn:Hid; [|discriminate].
  intros [= <-]. exists id. cbn. repeat split; auto.
  eapply next_rowid_fresh; eauto.
Qed.

Lemma select_category_id_Some name d cid :
  Sqlite.select_category_id name d = Some cid ->
  In {| Sqlite.cat_id := cid; Sqlite.cat_name := name |} (Sqlite.categories d).
Proof.
  unfold Sqlite.select_category_id.
  destruct (List.find _ _) as [c|] eqn:Hf; [|discriminate].
  apply find_some in Hf as [Hin Heq]. apply String.eqb_eq in Heq.
  intros [= <-]. destruct c; cbn in *. now subst.
Qed.

Lemma select_category_id_None name d :
  Sqlite.select_category_id name d = None -> ~ In name (category_names d).
Proof.
  unfold Sqlite.select_category_id, category_names.
  destruct (List.find _ _) as [c|] eqn:Hf; [discriminate|]. intros _.
  rewrite in_map_iff. intros (c & Hc & Hin).
  eapply find_none in Hf; [|exact Hin]. cbn in Hf.
  apply String.eqb_neq in Hf. auto.
Qed.

(** A name that is in the table is found: the lookup is exact. *)
Lemma select_category_id_seen name d :
  In name (category_names d) ->
  exists cid, Sqlite.select_category_id name d = Some cid.
Proof.
  intros Hin. destruct (Sqlite.select_category_id name d) as [cid|] eqn:Hs; eauto.
  apply select_category_id_None in Hs. tauto.
Qed.

Lemma category_seen_In name d :
  category_seen name d = true <-> In name (category_names d).
Proof.
  unfold category_seen, category_names. rewrite existsb_exists, in_map_iff.
  split; intros (c & H1 & H2).
  - exists c. apply String.eqb_eq in H2. auto.
  - exists c. split; [exact H2|]. now apply String.eqb_eq.
Qed.

(** What the category step leaves in the transaction. *)
Lemma category_resolved_spec name d cid d1 :
  category_resolved name d cid d1 ->
  In {| Sqlite.cat_id := cid; Sqlite.cat_name := name |} (Sqlite.categories d1)
  /\ Sqlite.items d1 = Sqlite.items d
  /\ (if category_seen name d
      then d1 = d
      else Sqlite.categories d1
           = Sqlite.categories d ++ [{| Sqlite.cat_id := cid; Sqlite.cat_name := name |}]
           /\ ~ In cid (map Sqlite.cat_id (Sqlite.categories d))).
Proof.
  intros [cid' Hsel | cid' d1' Hnone Hins Hsel].
  - split; [now apply select_category_id_Some|]. split; [reflexivity|].
    destruct (category_seen name d) eqn:Hseen; [reflexivity|].
    apply select_category_id_Some in Hsel.
    assert (category_seen name d = true) as Habs; [|congruence].
    apply category_seen_In, in_map_iff. eexists. split; [|exact Hsel]. reflexivity.
  - apply select_category_id_None in Hnone.
    destruct (category_seen name d) eqn:Hseen.
    { apply category_seen_In in Hseen. tauto. }
    apply insert_category_Done in Hins as (id & Hcats & Hfresh & Hnew & Hitems & _).
    pose proof (select_category_id_Some _ _ _ Hsel) as Hin.
    rewrite Hcats in Hin. apply in_app_iff in Hin as [Hin|[Heq|[]]].
    + exfalso. apply Hnew. unfold category_names. apply in_map_iff.
      eexists. split; [|exact Hin]. reflexivity.
    + injection Heq as <-. split.
      * rewrite Hcats. apply in_app_iff. right. now left.
      * auto.
Qed.

(** A successful [Insert], told on the committed state alone: one item row
    is appended; the category table is untouched when the name was there,
    and gets one row for the name otherwise. *)
Lemma Insert_step item w w' :
  Insert item w = (Ok tt, w') ->
  exists cid id,
    Sqlite.items (db w')
    = Sqlite.items (db w) ++ [{| Sqlite.item_id := id; Sqlite.item_name := Name item;
                                 Sqlite.item_category_id := cid;
                                 Sqlite.item_image_name := Image item |}]
    /\ ~ In id (map Sqlite.item_id (Sqlite.items (db w)))
    /\ In {| Sqlite.cat_id := cid; Sqlite.cat_name := Category item |}
          (Sqlite.categories (db w'))
    /\ (if category_seen (Category item) (db w)
        then Sqlite.categories (db w') = Sqlite.categories (db w)
        else Sqlite.categories (db w')
             = Sqlite.categories (db w)
               ++ [{| Sqlite.cat_id := cid; Sqlite.cat_name := Category item |}]
             /\ ~ In cid (map Sqlite.cat_id (Sqlite.categories (db w)))).
Proof.
  intros H. apply Insert_ok in H as (cid & d1 & Hcat & Hins & _ & _).
  apply category_resolved_spec in Hcat as (Hin & Hitems & Hcats).
  apply insert_item_Done in Hins as (id & Hrows & Hfresh & Hsame).
  exists cid, id. rewrite Hrows, Hsame, Hitems. rewrite Hitems in Hfresh.
  repeat split; auto.
  destruct (category_seen _ _); [now subst|exact Hcats].
Qed.

Lemma Insert_preserves_schema item w r w' :
  schema_ok (db w) -> Insert item w = (r, w') -> schema_ok (db w').
Proof.
  intros (Hids & Hnames & Hitems) H. destruct r as [[]|e].
  - apply Insert_step in H as (cid & id & Hrows & Hfresh & _ & Hcats).
    unfold schema_ok, category_names in *. rewrite Hrows, map_app. cbn.
    destruct (category_seen (Category item) (db w)) eqn:Hseen.
    + rewrite Hcats. repeat split; auto. now apply NoDup_snoc.
    + destruct Hcats as [-> Hcid]. rewrite !map_app. cbn.
      repeat split; apply NoDup_snoc; auto.
      intros Hin. apply category_seen_In in Hin. congruence.
  - apply Insert_err_unchanged in H as [-> _]. repeat split; auto.
Qed.

Lemma Insert_preserves_references item w r w' :
  references_ok (db w) -> Insert item w = (r, w') -> references_ok (db w').
Proof.
  unfold references_ok. intros Href H. destruct r as [[]|e].
  - apply Insert_step in H as (cid & id & Hrows & _ & Hin & Hcats).
    assert (forall x, In x (map Sqlite.cat_id (Sqlite.categories (db w))) ->
                      In x (map Sqlite.cat_id (Sqlite.categories (db w')))) as Hmono.
    { destruct (category_seen _ _); [now rewrite Hcats|].
      destruct Hcats as [-> _]. intros x Hx. rewrite map_app, in_app_iff. now left. }
    rewrite Hrows. apply Forall_app. split.
    + eapply Forall_impl; [exact Href|]. cbn. auto.
    + constructor; [|constructor]. cbn.
      apply in_map_iff. eexists. split; [|exact Hin]. reflexivity.
  - apply Insert_err_unchanged in H as [-> _]. exact Href.
Qed.

Lemma reachable_consistent d :
  reachable d -> schema_ok d /\ references_ok d.
Proof.
  induction 1 as [|w item r w' _ [IH1 IH2] H].
  - split; [repeat split; cbn; constructor|constructor].
  - split; [eapply Insert_preserves_schema|eapply Insert_preserves_references]; eauto.
Qed.

(** C2. Along any sequence of [Insert]s from the empty database no two
    category rows share a name. A successful [Insert] whose category name
    is, byte for byte, the name of a category row leaves the category table
    as it is and gives the new item the id of that row; with a name not
    seen before it adds exactly one category row, for that name, and the
    new item refers to it. *)
Theorem Insert_category_rows_unique item w w' :
  reachable (db w) ->
  Insert item w = (Ok tt, w') ->
  NoDup (category_names (db w))
  /\ NoDup (category_names (db w'))
  /\ exists cid id,
      Sqlite.items (db w')
      = Sqlite.items (db w) ++ [{| Sqlite.item_id := id; Sqlite.item_name := Name item;
                                   Sqlite.item_category_id := cid;
                                   Sqlite.item_image_name := Image item |}]
      /\ if category_seen (Category item) (db w)
         then Sqlite.categories (db w') = Sqlite.categories (db w)
              /\ In {| Sqlite.cat_id := cid; Sqlite.cat_name := Category item |}
                    (Sqlite.categories (db w))
         else Sqlite.categories (db w')
              = Sqlite.categories (db w)
                ++ [{| Sqlite.cat_id := cid; Sqlite.cat_name := Category item |}].
Proof.
  intros Hreach H.
  pose proof (reachable_consistent _ Hreach) as [(_ & Hnames & _) _].
  pose proof (reachable_consistent _ (reachable_Insert _ _ _ _ Hreach H))
    as [(_ & Hnames' & _) _].
  split; [exact Hnames|]. split; [exact Hnames'|].
  apply Insert_step in H as (cid & id & Hrows & _ & Hin & Hcats).
  exists cid, id. split; [exact Hrows|].
  destruct (category_seen _ _).
  - rewrite Hcats in Hin. auto.
  - tauto.
Qed.

(** C2 at work: a second item of category "Sports". *)
Lemma Insert_category_rows_unique_witness :
  let w := after (Insert (new_item "Bike" "Sports" "f.jpg")) fresh_world in
  let w' := after (Insert (new_item "Ball" "Sports" "g.jpg")) w in
  NoDup (category_names (db w))
  /\ NoDup (category_names (db w'))
  /\ exists cid id,
      Sqlite.items (db w')
      = Sqlite.items (db w) ++ [{| Sqlite.item_id := id; Sqlite.item_name := "Ball";
                                   Sqlite.item_category_id := cid;
                                   Sqlite.item_image_name := "g.jpg" |}]
      /\ if category_seen "Sports" (db w)
         then Sqlite.categories (db w') = Sqlite.categories (db w)
              /\ In {| Sqlite.cat_id := cid; Sqlite.cat_name := "Sports" |}
                    (Sqlite.categories (db w))
         else Sqlite.categories (db w')
              = Sqlite.categories (db w)
                ++ [{| Sqlite.cat_id := cid; Sqlite.cat_name := "Sports" |}].
Proof.
  apply (Insert_category_rows_unique (new_item "Ball" "Sports" "g.jpg")
           (after (Insert (new_item "Bike" "Sports" "f.jpg")) fresh_world)).
  - apply (reachable_Insert fresh_world (new_item "Bike" "Sports" "f.jpg") (Ok tt));
      [apply reachable_empty|reflexivity].
  - reflexivity.
Defined.

(** ** Reading the catalog *)

Lemma call_ok mk w :
  next_call_ok w = true -> exists w1, call mk w = (Ok tt, w1) /\ db w1 = db w.
Proof.
  unfold next_call_ok, call. destruct (faults w) as [|[msg|] rest]; [|discriminate|];
    intros _; eexists; split; reflexivity.
Qed.

Lemma query_row_ok {A} (q : Sqlite.DB -> list A) w :
  next_call_ok w = true -> fst (query_row q w) = scan_row (q (db w)).
Proof.
  intros Hok. unfold query_row, bind.
  destruct (call_ok SqliteError w Hok) as (w1 & -> & ->). reflexivity.
Qed.

Lemma query_row_fault {A} (q : Sqlite.DB -> list A) w msg rest :
  faults w = Some msg :: rest -> fst (query_row q w) = Err (SqliteError msg).
Proof. intros Hf. unfold query_row, bind, call. rewrite Hf. reflexivity. Qed.

Lemma call_no_faults mk w :
  no_faults w = true ->
  exists w1, call mk w = (Ok tt, w1) /\ db w1 = db w /\ no_faults w1 = true.
Proof.
  unfold no_faults, call. destruct (faults w) as [|[msg|] rest] eqn:Hf; cbn [forallb].
  - intros _. exists w. rewrite Hf. auto.
  - discriminate.
  - intros H. exists (set_faults rest w). auto.
Qed.

Lemma next_rows_no_faults {A} (rows : list A) w :
  no_faults w = true -> fst (next_rows rows w) = rows.
Proof.
  revert w. induction rows as [|r rows IH]; intros w Hok; cbn [next_rows];
    destruct (call_no_faults SqliteError w Hok) as (w1 & -> & _ & Hok1).
  - reflexivity.
  - specialize (IH w1 Hok1). destruct (next_rows rows w1) as [got w2].
    cbn in *. now subst.
Qed.

Lemma query_rows_no_faults {A} (q : Sqlite.DB -> list A) w :
  no_faults w = true -> fst (query_rows q w) = Ok (q (db w)).
Proof.
  intros Hok. unfold query_rows, bind.
  destruct (call_no_faults SqliteError w Hok) as (w1 & -> & Hd & Hok1).
  pose proof (next_rows_no_faults (q (db w1)) w1 Hok1) as Hrows.
  destruct (next_rows (q (db w1)) w1) as [got w2]. cbn in *. congruence.
Qed.

Lemma filter_head {A} (p : A -> bool) (l : list A) (a : A) :
  In a l -> p a = true -> (forall b, In b l -> p b = true -> b = a) ->
  exists k, List.filter p l = a :: k.
Proof.
  induction l as [|x l IH]; cbn; [tauto|]. intros Hin Hpa Huniq.
  destruct (p x) eqn:Hpx.
  - exists (List.filter p l). f_equal. apply Huniq; auto.
  - destruct Hin as [->|Hin]; [congruence|]. apply IH; auto.
Qed.

Lemma filter_none {A} (p : A -> bool) (l : list A) :
  (forall b, In b l -> p b = false) -> List.filter p l = [].
Proof.
  induction l as [|x l IH]; cbn; [reflexivity|]. intros H.
  rewrite (H x) by auto. apply IH. auto.
Qed.

(** The join of one item row in a database that keeps its promises: one
    row, with the name of the category the item refers to. *)
Lemma join_item_head d it c :
  NoDup (map Sqlite.cat_id (Sqlite.categories d)) ->
  In c (Sqlite.categories d) -> Sqlite.cat_id c = Sqlite.item_category_id it ->
  exists k, Sqlite.join_item d it
            = {| Sqlite.j_id := Sqlite.item_id it; Sqlite.j_name := Sqlite.item_name it;
                 Sqlite.j_category := Sqlite.cat_name c;
                 Sqlite.j_image_name := Sqlite.item_image_name it |} :: k.
Proof.
  intros Hnd Hin Hid. unfold Sqlite.join_item.
  destruct (filter_head (fun c => Sqlite.cat_id c =? Sqlite.item_category_id it)
              (Sqlite.categories d) c) as (k & ->); auto.
  - apply Z.eqb_eq, Hid.
  - intros b Hb Heq. apply Z.eqb_eq in Heq.
    eapply NoDup_map_inj; eauto. congruence.
  - cbn. eauto.
Qed.

Section EngineFacts.

Variable text_to_integer : string -> option Z.

(** C8. [GetItemById] on any id string, numeric or not: with no item row of
    that id the result is [errItemNotFound]; when the query itself fails,
    the driver's error comes back as it is; and otherwise, in a database
    made by [Insert]s, the result is the one item of that id with the
    name of its category. *)
Theorem GetItemById_outcomes (item_id : string) (w : World) :
  (next_call_ok w = true ->
   (forall it, In it (Sqlite.items (db w)) ->
               id_equals text_to_integer item_id it = false) ->
   fst (GetItemById text_to_integer item_id w) = Err errItemNotFound)
  /\ (forall msg rest, faults w = Some msg :: rest ->
      fst (GetItemById text_to_integer item_id w) = Err (SqliteError msg))
  /\ (next_call_ok w = true -> reachable (db w) ->
      forall it, In it (Sqlite.items (db w)) ->
                 id_equals text_to_integer item_id it = true ->
      (forall it', In it' (Sqlite.items (db w)) ->
                   id_equals text_to_integer item_id it' = true -> it' = it)
      /\ exists c, In c (Sqlite.categories (db w))
                   /\ Sqlite.cat_id c = Sqlite.item_category_id it
                   /\ fst (GetItemById text_to_integer item_id w)
                      = Ok {| ID := Sqlite.item_id it; Name := Sqlite.item_name it;
                              Category := Sqlite.cat_name c;
                              Image := Sqlite.item_image_name it |}).
Proof.
  assert (forall it it', In it (Sqlite.items (db w)) -> In it' (Sqlite.items (db w)) ->
            reachable (db w) ->
            id_equals text_to_integer item_id it = true ->
            id_equals text_to_integer item_id it' = true -> it' = it) as Hone.
  { intros it it' Hin Hin' Hreach. unfold id_equals.
    destruct (text_to_integer item_id) as [n|]; [|discriminate].
    intros H1 H2. apply Z.eqb_eq in H1, H2.
    apply reachable_consistent in Hreach as [(_ & _ & Hnd) _].
    eapply NoDup_map_inj; eauto. congruence. }
  split; [|split].
  - intros Hok Hnone. unfold GetItemById, catch.
    pose proof (query_row_ok (fun d => map item_of_row
                  (Sqlite.select_items (id_equals text_to_integer item_id) d)) w Hok) as Hq.
    destruct (query_row _ w) as [r w1]. cbn in Hq. subst r.
    unfold Sqlite.select_items. rewrite filter_none by exact Hnone. reflexivity.
  - intros msg rest Hf. unfold GetItemById, catch.
    pose proof (query_row_fault (fun d => map item_of_row
                  (Sqlite.select_items (id_equals text_to_integer item_id) d)) w _ _ Hf) as Hq.
    destruct (query_row _ w) as [r w1]. cbn in Hq. subst r. reflexivity.
  - intros Hok Hreach it Hin Heq. split; [intros it' Hin' Heq'; eapply Hone; eauto|].
    pose proof (reachable_consistent _ Hreach) as [(Hids & _ & _) Href].
    unfold references_ok in Href. rewrite Forall_forall in Href.
    specialize (Href it). rewrite list_elem_of_In in Href. specialize (Href Hin).
    apply in_map_iff in Href as (c & Hc & Hcin).
    exists c. split; [exact Hcin|]. split; [exact Hc|].
    unfold GetItemById, catch.
    pose proof (query_row_ok (fun d => map item_of_row
                  (Sqlite.select_items (id_equals text_to_integer item_id) d)) w Hok) as Hq.
    destruct (query_row _ w) as [r w1]. cbn in Hq. subst r.
    unfold Sqlite.select_items.
    assert (exists k, List.filter (id_equals text_to_integer item_id)
                        (Sqlite.items (db w)) = it :: k) as (k & ->).
    { apply filter_head; auto; intros b Hb Hpb; eapply Hone; eauto. }
    cbn. destruct (join_item_head (db w) it c Hids Hcin Hc) as (k' & ->).
    reflexivity.
Qed.

End EngineFacts.

Section InsertThenGet.

Variable text_to_integer : string -> option Z.

(** C3. After a successful [Insert] the new item row has an id of its own,
    and [GetItemById], given any text the engine reads as that id, returns
    the submitted name, category name and image file name under that id,
    in every world that holds the database [Insert] committed (unless the
    query itself is made to fail). Non-empty fields are not needed for it. *)
Theorem GetItemById_after_Insert item w w' :
  reachable (db w) ->
  Insert item w = (Ok tt, w') ->
  exists id cid,
    Sqlite.items (db w')
    = Sqlite.items (db w) ++ [{| Sqlite.item_id := id; Sqlite.item_name := Name item;
                                 Sqlite.item_category_id := cid;
                                 Sqlite.item_image_name := Image item |}]
    /\ forall item_id w2,
        text_to_integer item_id = Some id ->
        db w2 = db w' -> next_call_ok w2 = true ->
        fst (GetItemById text_to_integer item_id w2)
        = Ok {| ID := id; Name := Name item; Category := Category item;
                Image := Image item |}.
Proof.
  intros Hreach H.
  pose proof (reachable_consistent _ (reachable_Insert _ _ _ _ Hreach H))
    as [(Hids & _ & _) _].
  apply Insert_step in H as (cid & id & Hrows & Hfresh & Hin & _).
  exists id, cid. split; [exact Hrows|].
  intros item_id w2 Htext Hdb Hok.
  unfold GetItemById, catch.
  pose proof (query_row_ok (fun d => map item_of_row
                (Sqlite.select_items (id_equals text_to_integer item_id) d)) w2 Hok) as Hq.
  destruct (query_row _ w2) as [r w3]. cbn in Hq. subst r. rewrite Hdb.
  unfold Sqlite.select_items. rewrite Hrows, List.filter_app.
  rewrite filter_none.
  - cbn. unfold id_equals at 1. rewrite Htext. cbn. rewrite Z.eqb_refl. cbn.
    edestruct (join_item_head (db w')) as (k & ->); [exact Hids|exact Hin|reflexivity|].
    reflexivity.
  - intros b Hb. unfold id_equals. rewrite Htext. apply Z.eqb_neq.
    intros Heq. apply Hfresh. rewrite <- Heq. now apply in_map.
Qed.

End InsertThenGet.

Lemma shirts_world_reachable : reachable (db shirts_world).
Proof.
  set (w1 := after (Insert (new_item "Blue Shirt" "Tops" "a.jpg")) fresh_world).
  set (w2 := after (Insert (new_item "Shirt" "Tops" "b.jpg")) w1).
  apply (reachable_Insert w2 (new_item "Pants" "Bottoms" "c.jpg") (Ok tt)); [|reflexivity].
  apply (reachable_Insert w1 (new_item "Shirt" "Tops" "b.jpg") (Ok tt)); [|reflexivity].
  apply (reachable_Insert fresh_world (new_item "Blue Shirt" "Tops" "a.jpg") (Ok tt));
    [|reflexivity].
  apply reachable_empty.
Qed.

(** C3 at work: the end-to-end example of the spec, on the decimal numeral
    of the id. *)
Lemma GetItemById_after_Insert_witness :
  exists id cid,
    Sqlite.items (db (after (Insert (new_item "Bike" "Sports" "f.jpg")) shirts_world))
    = Sqlite.items (db shirts_world)
      ++ [{| Sqlite.item_id := id; Sqlite.item_name := "Bike";
             Sqlite.item_category_id := cid; Sqlite.item_image_name := "f.jpg" |}]
    /\ forall item_id w2,
        decimal_text item_id = Some id ->
        db w2 = db (after (Insert (new_item "Bike" "Sports" "f.jpg")) shirts_world) ->
        next_call_ok w2 = true ->
        fst (GetItemById decimal_text item_id w2)
        = Ok {| ID := id; Name := "Bike"; Category := "Sports"; Image := "f.jpg" |}.
Proof.
  apply (GetItemById_after_Insert decimal_text (new_item "Bike" "Sports" "f.jpg")
           shirts_world).
  - exact shirts_world_reachable.
  - reflexivity.
Defined.

(** C8 at work on the catalog of three items: an id that is no number, a
    query that fails, and the id of the second item. *)
Lemma GetItemById_outcomes_witness :
  fst (GetItemById decimal_text "abc" shirts_world) = Err errItemNotFound
  /\ fst (GetItemById decimal_text "2" (set_faults [Some "disk I/O error"] shirts_world))
     = Err (SqliteError "disk I/O error")
  /\ fst (GetItemById decimal_text "2" shirts_world)
     = Ok {| ID := 2; Name := "Shirt"; Category := "Tops"; Image := "b.jpg" |}.
Proof.
  split; [|split].
  - apply (GetItemById_outcomes decimal_text "abc" shirts_world); [reflexivity|].
    intros it Hin. reflexivity.
  - apply (GetItemById_outcomes decimal_text "2"
             (set_faults [Some "disk I/O error"] shirts_world)
             ) with (rest := []). reflexivity.
  - destruct (GetItemById_outcomes decimal_text "2" shirts_world) as (_ & _ & H).
    destruct (H eq_refl shirts_world_reachable
                {| Sqlite.item_id := 2; Sqlite.item_name := "Shirt";
                   Sqlite.item_category_id := 1; Sqlite.item_image_name := "b.jpg" |})
      as (_ & c & Hc & Hid & ->).
    + right. left. reflexivity.
    + reflexivity.
    + cbn in Hc. destruct Hc as [<-|[<-|[]]]; cbn in Hid; [reflexivity|discriminate].
Defined.

(** ** The image store *)

Lemma Stat_frame name w r w' :
  Stat name w = (r, w') -> fs w' = fs w /\ db w' = db w.
Proof.
  unfold Stat, bind. destruct (call PathError w) as [[[]|e] w0] eqn:Hc;
    apply call_frame in Hc as (Hd & _ & Hf).
  - destruct (fs w0 !! name); intros [= <- <-]; auto.
  - intros [= <- <-]. auto.
Qed.

Lemma Stat_ok name w w' :
  Stat name w = (Ok tt, w') -> is_Some (fs w !! name).
Proof.
  unfold Stat, bind. destruct (call PathError w) as [[[]|e] w0] eqn:Hc; [|discriminate].
  apply call_frame in Hc as (_ & _ & Hf). rewrite <- Hf.
  destruct (fs w0 !! name); [eauto|discriminate].
Qed.

Lemma Stat_found name w :
  next_call_ok w = true -> is_Some (fs w !! name) ->
  exists w', Stat name w = (Ok tt, w') /\ fs w' = fs w.
Proof.
  intros Hok [data Hdata]. unfold Stat, bind.
  destruct (call_ok PathError w Hok) as (w0 & Hc & _). rewrite Hc.
  apply call_frame in Hc as (_ & _ & Hf). rewrite Hf, Hdata. eauto.
Qed.

Lemma call_err mk w e w' : call mk w = (Err e, w') -> exists msg, e = mk msg.
Proof.
  unfold call. destruct (faults w) as [|[msg|] rest]; intros [= <- <-]. eauto.
Qed.

(** [f.Write] on a file that holds [written]: all the bytes are added, or
    it fails and those before the failure are. *)
Lemma Write_cases name data written w :
  fs w !! name = Some written ->
  match Write name written data w with
  | (Ok _, w') =>
      fs w' = <[name := written ++ data]> (fs w) /\ db w' = db w /\ tx w' = tx w
  | (Err e, w') =>
      db w' = db w /\ tx w' = tx w
      /\ (exists cause, e = PathError cause)
      /\ exists n, (n < length data)%nat
                   /\ fs w' = <[name := written ++ firstn n data]> (fs w)
  end.
Proof.
  revert written w. induction data as [|b rest IH]; intros written w Hw.
  - cbn. rewrite app_nil_r, insert_id by exact Hw. auto.
  - cbn [Write]. unfold bind.
    destruct (call PathError w) as [[[]|e] w0] eqn:Hc;
      pose proof (call_frame _ _ _ _ Hc) as (Hd & Ht & Hf).
    + specialize (IH (written ++ [b]) (set_fs (<[name := written ++ [b]]> (fs w0)) w0)
                    (lookup_insert_eq _ _ _)).
      destruct (Write name (written ++ [b]) rest _) as [[[]|e] w'];
        cbn [fs db tx set_fs] in IH.
      * destruct IH as (-> & -> & ->).
        rewrite insert_insert_eq, <- app_assoc, Hf. auto.
      * destruct IH as (-> & -> & Hcause & n & Hn & ->).
        split; [exact Hd|]. split; [exact Ht|]. split; [exact Hcause|].
        exists (S n). split; [cbn; lia|].
        rewrite insert_insert_eq, <- app_assoc, Hf. reflexivity.
    + split; [exact Hd|]. split; [exact Ht|].
      split; [apply call_err in Hc as [msg ->]; eauto|].
      exists 0%nat. split; [cbn; lia|].
      cbn [firstn]. now rewrite app_nil_r, insert_id, Hf by exact Hw.
Qed.

(** [os.WriteFile]: when it succeeds the file holds the bytes given. When
    it fails, the file is as it was (it could not be opened) or it holds the
    bytes written before the failure: none, some, or all of them if it is
    [Close] that failed. No other file changes. *)
Lemma WriteFile_cases name data w :
  match WriteFile name data w with
  | (Ok _, w') => fs w' = <[name := data]> (fs w) /\ db w' = db w /\ tx w' = tx w
  | (Err e, w') =>
      db w' = db w /\ tx w' = tx w
      /\ (exists cause, e = PathError cause)
      /\ (fs w' = fs w
          \/ exists n, (n <= length data)%nat /\ fs w' = <[name := firstn n data]> (fs w))
  end.
Proof.
  unfold WriteFile, OpenFile, Close, bind.
  destruct (call PathError w) as [[[]|e] w0] eqn:Hc;
    pose proof (call_frame _ _ _ _ Hc) as (Hd & Ht & Hf).
  - pose proof (Write_cases name data [] (set_fs (<[name := []]> (fs w0)) w0)
                  (lookup_insert_eq _ _ _)) as HW.
    destruct (Write name [] data _) as [[[]|e] w1];
      cbn [fs db tx set_fs app] in HW;
      destruct (call PathError w1) as [r2 w2] eqn:Hc2;
      pose proof (call_frame _ _ _ _ Hc2) as (Hd2 & Ht2 & Hf2).
    + destruct HW as (HWf & HWd & HWt).
      rewrite insert_insert_eq, Hf in HWf.
      destruct r2 as [[]|e2].
      * repeat split; congruence.
      * split; [congruence|]. split; [congruence|].
        split; [apply call_err in Hc2 as [msg ->]; eauto|].
        right. exists (length data). split; [lia|]. rewrite firstn_all. congruence.
    + destruct HW as (HWd & HWt & Hcause & n & Hn & HWf).
      rewrite insert_insert_eq, Hf in HWf.
      split; [congruence|]. split; [congruence|]. split; [exact Hcause|].
      right. exists n. split; [lia|congruence].
  - split; [exact Hd|]. split; [exact Ht|].
    split; [apply call_err in Hc as [msg ->]; eauto|]. left. exact Hf.
Qed.

Lemma WriteFile_ok name data w w' :
  WriteFile name data w = (Ok tt, w') ->
  fs w' = <[name := data]> (fs w) /\ db w' = db w.
Proof.
  intros H. pose proof (WriteFile_cases name data w) as HW. rewrite H in HW. tauto.
Qed.

(** What a successful [storeImage] did: it found the file, or wrote it. *)
Lemma storeImage_ok s image w path w1 :
  storeImage s image w = (Ok path, w1) ->
  path = Filepath.Join (imgDirPath s) (Sha256.hex (Sha256.Sum256 image) +:+ ".jpg")
  /\ db w1 = db w
  /\ ((is_Some (fs w !! path) /\ fs w1 = fs w)
      \/ fs w1 = <[path := image]> (fs w)).
Proof.
  unfold storeImage, Filepath.ToSlash.
  set (p := Filepath.Join (imgDirPath s) (Sha256.hex (Sha256.Sum256 image) +:+ ".jpg")).
  unfold catch, bind, ret, throw.
  destruct (Stat p w) as [[[]|e] w0] eqn:HS.
  - intros [= <- <-]. pose proof (Stat_ok _ _ _ HS) as Hsome.
    apply Stat_frame in HS as [Hf Hd]. auto.
  - apply Stat_frame in HS as [Hf Hd].
    destruct (WriteFile p image w0) as [[[]|e'] w2] eqn:HW; [|discriminate].
    apply WriteFile_ok in HW as [Hf2 Hd2]. intros [= <- <-].
    split; [reflexivity|]. split; [congruence|]. right. congruence.
Qed.

(** With the file in place, [storeImage] asks [os.Stat] and nothing else. *)
Lemma storeImage_found s image w :
  let path := Filepath.Join (imgDirPath s) (Sha256.hex (Sha256.Sum256 image) +:+ ".jpg") in
  next_call_ok w = true -> is_Some (fs w !! path) ->
  storeImage s image w = (Ok path, set_faults (tl (faults w)) w).
Proof.
  cbv zeta. intros Hok [data Hdata].
  unfold storeImage, Filepath.ToSlash, catch, Stat, bind, ret, call.
  unfold next_call_ok in Hok. destruct w as [d t f fl]. cbn [faults fs] in *.
  destruct fl as [|[msg|] rest]; [|discriminate|];
    cbn [fs faults set_faults tl]; rewrite Hdata; reflexivity.
Qed.

(** C4 fails as written on what is returned: not the file name made of
    the digest, but the path of the file, which begins with the image
    directory. Here the three bytes "abc" are stored twice in the
    directory of the service, [images]. *)
Lemma storeImage_returns_path :
  let image := bytes_of_string "abc" in
  let name := Sha256.hex (Sha256.Sum256 image) +:+ ".jpg" in
  let w1 := after (storeImage images_handlers image) fresh_world in
  fst (storeImage images_handlers image fresh_world) = Ok ("images/" +:+ name)
  /\ fst (storeImage images_handlers image w1) = Ok ("images/" +:+ name)
  /\ "images/" +:+ name <> name.
Proof. cbv zeta. split; [|split]; vm_compute; [reflexivity|reflexivity|discriminate]. Qed.

(** C4, as the code has it. [storeImage] is idempotent. A call that
    succeeds returns the path of the file named by the hex SHA-256 digest
    of the bytes, with [.jpg], in the image directory. Either [os.Stat]
    found that file and no file was changed, or the file was written and
    holds exactly the bytes given; it holds them whenever it was not there
    before. No other file was added. A second call with the same bytes,
    on the files the first call left, returns the same path after one call
    into the environment, that of [os.Stat]: it opens and writes no file,
    whatever the environment would do to later calls, and leaves the world
    as it is. Empty input is no exception. *)
Theorem storeImage_idempotent s image w path w1 :
  storeImage s image w = (Ok path, w1) ->
  path = Filepath.Join (imgDirPath s) (Sha256.hex (Sha256.Sum256 image) +:+ ".jpg")
  /\ ((is_Some (fs w !! path) /\ fs w1 = fs w) \/ fs w1 = <[path := image]> (fs w))
  /\ (fs w !! path = None -> fs w1 !! path = Some image)
  /\ is_Some (fs w1 !! path)
  /\ dom (fs w1) = {[path]} ∪ dom (fs w)
  /\ forall w1', fs w1' = fs w1 -> next_call_ok w1' = true ->
       storeImage s image w1' = (Ok path, set_faults (tl (faults w1')) w1').
Proof.
  intros H. apply storeImage_ok in H as (Hpath & _ & Hfs).
  assert (is_Some (fs w1 !! path) /\ dom (fs w1) = {[path]} ∪ dom (fs w))
    as [Hsome Hdom].
  { destruct Hfs as [[Hsome ->] | ->].
    - split; [exact Hsome|]. destruct Hsome as [data Hdata].
      symmetry. apply subseteq_union_1_L, singleton_subseteq_l.
      eapply elem_of_dom_2, Hdata.
    - rewrite lookup_insert_eq. split; [eauto|apply dom_insert_L]. }
  split; [exact Hpath|]. split; [exact Hfs|]. split; [|split; [exact Hsome|split]].
  - intros Hnone. destruct Hfs as [[Hthere _] | ->].
    + rewrite Hnone in Hthere. now destruct Hthere.
    + apply lookup_insert_eq.
  - exact Hdom.
  - intros w1' Hfs' Hok. rewrite <- Hfs' in Hsome. subst path.
    now apply storeImage_found.
Qed.

(** C4 at work: the three bytes "abc" stored in a fresh image directory. *)
Lemma storeImage_idempotent_witness :
  let w1 := after (storeImage images_handlers (bytes_of_string "abc")) fresh_world in
  let path := "images/ba7816bf8f01cfea414140de5dae2223b00361a396177a9cb410ff61f20015ad.jpg" in
  path = Filepath.Join "images"
           (Sha256.hex (Sha256.Sum256 (bytes_of_string "abc")) +:+ ".jpg")
  /\ ((is_Some (fs fresh_world !! path) /\ fs w1 = fs fresh_world)
      \/ fs w1 = <[path := bytes_of_string "abc"]> (fs fresh_world))
  /\ (fs fresh_world !! path = None -> fs w1 !! path = Some (bytes_of_string "abc"))
  /\ is_Some (fs w1 !! path)
  /\ dom (fs w1) = {[path]} ∪ dom (fs fresh_world)
  /\ forall w1', fs w1' = fs w1 -> next_call_ok w1' = true ->
       storeImage images_handlers (bytes_of_string "abc") w1'
       = (Ok path, set_faults (tl (faults w1')) w1').
Proof.
  apply (storeImage_idempotent images_handlers (bytes_of_string "abc") fresh_world).
  vm_compute. reflexivity.
Defined.

(** ** Paths: splitting, joining and cleaning *)

Lemma join_sep_cons x l :
  l <> [] -> Filepath.join_sep (x :: l) = x +:+ String "/" (Filepath.join_sep l).
Proof. destruct l; [congruence|reflexivity]. Qed.

Lemma split_sep_nonempty s : Filepath.split_sep s <> [].
Proof.
  destruct s as [|c s]; cbn; [discriminate|].
  destruct (Ascii.eqb _ _); [discriminate|]. destruct (Filepath.split_sep s); discriminate.
Qed.

Lemma join_sep_push c x l :
  Filepath.join_sep (String c x :: l) = String c (Filepath.join_sep (x :: l)).
Proof. destruct l; reflexivity. Qed.

Lemma join_split s : Filepath.join_sep (Filepath.split_sep s) = s.
Proof.
  induction s as [|c s IH]; [reflexivity|]. cbn [Filepath.split_sep].
  destruct (Ascii.eqb c Filepath.Separator) eqn:Hc.
  - apply Ascii.eqb_eq in Hc. subst c.
    rewrite join_sep_cons by apply split_sep_nonempty. cbn. now rewrite IH.
  - pose proof (split_sep_nonempty s) as Hne.
    destruct (Filepath.split_sep s) as [|x l]; [congruence|].
    rewrite join_sep_push. now rewrite IH.
Qed.

Lemma split_sep_no_sep s :
  Forall (fun e => has_sep e = false) (Filepath.split_sep s).
Proof.
  induction s as [|c s IH]; cbn [Filepath.split_sep].
  - constructor; [reflexivity|constructor].
  - destruct (Ascii.eqb c Filepath.Separator) eqn:Hc.
    + constructor; [reflexivity|exact IH].
    + destruct (Filepath.split_sep s) as [|x l].
      * constructor; [cbn; now rewrite Hc|constructor].
      * inversion IH; subst. constructor; [cbn; now rewrite Hc|assumption].
Qed.

Lemma split_sep_String c rest :
  Filepath.split_sep (String c rest)
  = if Ascii.eqb c Filepath.Separator then "" :: Filepath.split_sep rest
    else match Filepath.split_sep rest with
         | x :: xs => String c x :: xs
         | [] => [String c ""]
         end.
Proof. reflexivity. Qed.

Lemma split_sep_app_no_sep e s :
  has_sep e = false ->
  Filepath.split_sep (e +:+ String "/" s) = e :: Filepath.split_sep s.
Proof.
  induction e as [|c e IH]; intros H.
  - reflexivity.
  - cbn [has_sep] in H. apply orb_false_iff in H as [Hc He].
    change (String c e +:+ String "/" s) with (String c (e +:+ String "/" s)).
    rewrite split_sep_String, Hc, IH by exact He. reflexivity.
Qed.

Lemma split_sep_single e :
  has_sep e = false -> Filepath.split_sep e = [e].
Proof.
  induction e as [|c e IH]; intros H; [reflexivity|].
  cbn [has_sep] in H. apply orb_false_iff in H as [Hc He].
  rewrite split_sep_String, Hc, IH by exact He. reflexivity.
Qed.

Lemma split_join names :
  names <> [] -> Forall (fun e => has_sep e = false) names ->
  Filepath.split_sep (Filepath.join_sep names) = names.
Proof.
  induction names as [|x l IH]; [congruence|]. intros _ Hall.
  inversion Hall as [|? ? Hx Hl]; subst.
  destruct l as [|y l]; [now apply split_sep_single|].
  rewrite join_sep_cons by discriminate.
  rewrite split_sep_app_no_sep by exact Hx. f_equal. apply IH; [discriminate|exact Hl].
Qed.

Lemma plain_no_sep e : plain e = true -> has_sep e = false.
Proof.
  unfold plain. intros H. apply andb_prop in H as [_ H]. now apply negb_true_iff.
Qed.

Lemma plain_not_special e :
  plain e = true -> e <> "" /\ e <> "." /\ e <> "..".
Proof.
  unfold plain. intros H.
  apply andb_prop in H as [H _]. apply andb_prop in H as [H H3].
  apply andb_prop in H as [H1 H2].
  apply negb_true_iff in H1, H2, H3. apply String.eqb_neq in H1, H2, H3. auto.
Qed.

Lemma clean_step_plain r out e :
  plain e = true -> Filepath.clean_step r out e = e :: out.
Proof.
  intros H. apply plain_not_special in H as (H1 & H2 & H3).
  unfold Filepath.clean_step.
  apply String.eqb_neq in H1, H2, H3. now rewrite H1, H2, H3.
Qed.

Lemma clean_step_stack r out e :
  has_sep e = false ->
  (exists k ps, out = ps ++ repeat ".." k /\ Forall (fun e => plain e = true) ps
                /\ (r = true -> k = 0%nat)) ->
  exists k ps, Filepath.clean_step r out e = ps ++ repeat ".." k
               /\ Forall (fun e => plain e = true) ps
               /\ (r = true -> k = 0%nat).
Proof.
  intros Hsep (k & ps & -> & Hps & Hr). unfold Filepath.clean_step.
  destruct (String.eqb e "") eqn:H1; [eauto|].
  destruct (String.eqb e ".") eqn:H2; [eauto|].
  destruct (String.eqb e "..") eqn:H3.
  - apply String.eqb_eq in H3. subst e.
    destruct ps as [|p ps]; cbn [app].
    + destruct k as [|k]; cbn [repeat].
      * destruct r.
        -- exists 0%nat, []. repeat split; auto.
        -- exists 1%nat, []. repeat split; auto. discriminate.
      * cbn. exists (S (S k)), []. repeat split; auto.
        intros H. apply Hr in H. discriminate.
    + inversion Hps as [|? ? Hp Hps']; subst.
      apply plain_not_special in Hp as (_ & _ & Hp).
      apply String.eqb_neq in Hp. rewrite Hp. eauto.
  - exists k, (e :: ps). repeat split; auto. constructor; [|exact Hps].
    unfold plain. now rewrite H1, H2, H3, Hsep.
Qed.

Lemma fold_clean_step_stack r l out :
  Forall (fun e => has_sep e = false) l ->
  (exists k ps, out = ps ++ repeat ".." k /\ Forall (fun e => plain e = true) ps
                /\ (r = true -> k = 0%nat)) ->
  exists k ps, fold_left (Filepath.clean_step r) l out = ps ++ repeat ".." k
               /\ Forall (fun e => plain e = true) ps
               /\ (r = true -> k = 0%nat).
Proof.
  intros Hl. revert out. induction Hl as [|e l He Hl IH]; intros out Hout; [exact Hout|].
  cbn. apply IH. now apply clean_step_stack.
Qed.

Lemma clean_elems_shape path : clean_shape (Filepath.rooted path) (Filepath.clean_elems path).
Proof.
  unfold Filepath.clean_elems.
  destruct (fold_clean_step_stack (Filepath.rooted path) (Filepath.split_sep path) [])
    as (k & ps & -> & Hps & Hr).
  - apply split_sep_no_sep.
  - exists 0%nat, []. repeat split; auto.
  - exists k, (rev ps). rewrite rev_app_distr, rev_repeat. repeat split; auto.
    apply Forall_forall. intros x Hx. rewrite Forall_forall in Hps. apply Hps.
    rewrite list_elem_of_In in *. now apply in_rev.
Qed.

(** Every cleaned path is the rendering of such a shape. *)
Lemma Clean_render path :
  exists r names, Filepath.Clean path = Filepath.render r names /\ clean_shape r names.
Proof.
  unfold Filepath.Clean. destruct (String.eqb path "").
  - exists false, []. split; [reflexivity|]. exists 0%nat, []. repeat split; auto.
  - eexists _, _. split; [reflexivity|]. apply clean_elems_shape.
Qed.

Lemma clean_shape_elements r names :
  clean_shape r names ->
  Forall (fun e => has_sep e = false /\ e <> "") names.
Proof.
  intros (k & ps & -> & Hps & _). apply Forall_app. split.
  - apply Forall_forall. intros x Hx. rewrite list_elem_of_In in Hx.
    apply repeat_spec in Hx. subst x. split; [reflexivity|discriminate].
  - eapply Forall_impl; [exact Hps|]. cbn. intros x Hx. split.
    + now apply plain_no_sep.
    + now apply plain_not_special in Hx.
Qed.

Lemma append_String c s t : String c s +:+ t = String c (s +:+ t).
Proof. reflexivity. Qed.

Lemma append_empty_r s : s +:+ "" = s.
Proof.
  induction s as [|c s IH]; [reflexivity|]. now rewrite append_String, IH.
Qed.

Lemma join_sep_head x l :
  exists tail, Filepath.join_sep (x :: l) = x +:+ tail.
Proof.
  destruct l as [|y l].
  - exists "". cbn. now rewrite append_empty_r.
  - eexists. apply join_sep_cons. discriminate.
Qed.

Lemma rooted_join_sep x l :
  has_sep x = false -> x <> "" -> Filepath.rooted (Filepath.join_sep (x :: l)) = false.
Proof.
  intros Hsep Hne. destruct (join_sep_head x l) as (tail & ->).
  destruct x as [|c x]; [congruence|]. rewrite append_String.
  cbn [has_sep Filepath.rooted] in *.
  now apply orb_false_iff in Hsep as [-> _].
Qed.

Lemma join_sep_not_empty x l :
  x <> "" -> Filepath.join_sep (x :: l) <> "".
Proof.
  intros Hne. destruct (join_sep_head x l) as (tail & ->).
  destruct x; [congruence|discriminate].
Qed.

Lemma rooted_render r names :
  clean_shape r names -> Filepath.rooted (Filepath.render r names) = r.
Proof.
  intros Hshape. apply clean_shape_elements in Hshape.
  unfold Filepath.render. destruct r; [reflexivity|].
  destruct names as [|x l]; [reflexivity|].
  inversion Hshape as [|? ? [Hsep Hne] _]; subst. now apply rooted_join_sep.
Qed.

(** The elements of a cleaned path, as [Rel] walks over them. *)
Lemma elems_render r names :
  clean_shape r names ->
  Filepath.elems (Filepath.render r names)
  = if r then "" :: names
    else match names with [] => ["."] | _ => names end.
Proof.
  intros Hshape. apply clean_shape_elements in Hshape.
  assert (Forall (fun e => has_sep e = false) names) as Hsep.
  { eapply Forall_impl; [exact Hshape|]. cbn. tauto. }
  unfold Filepath.render, Filepath.elems. destruct r.
  - destruct names as [|x l]; [reflexivity|].
    inversion Hshape as [|? ? [_ Hne] _]; subst.
    pose proof (join_sep_not_empty x l Hne) as Hj.
    set (J := Filepath.join_sep (x :: l)) in *.
    assert ((String Filepath.Separator J =? "")%string = false) as -> by reflexivity.
    assert ((String Filepath.Separator J =? "/")%string = false) as ->.
    { apply String.eqb_neq. intros [= H]. congruence. }
    rewrite split_sep_String, Ascii.eqb_refl. f_equal.
    apply split_join; [discriminate|exact Hsep].
  - destruct names as [|x l]; [reflexivity|].
    inversion Hshape as [|? ? [Hx Hne] _]; subst.
    pose proof (join_sep_not_empty x l Hne) as Hj.
    pose proof (rooted_join_sep x l Hx Hne) as Hroot.
    set (J := Filepath.join_sep (x :: l)) in *.
    assert ((J =? "")%string = false) as -> by now apply String.eqb_neq.
    assert ((J =? "/")%string = false) as ->.
    { apply String.eqb_neq. intros H. rewrite H in Hroot. discriminate. }
    apply split_join; [discriminate|exact Hsep].
Qed.

Lemma fold_clean_step_plains r ps out :
  Forall (fun e => plain e = true) ps ->
  fold_left (Filepath.clean_step r) ps out = rev ps ++ out.
Proof.
  intros H. revert out. induction H as [|e l He Hl IH]; intros out; [reflexivity|].
  cbn [fold_left rev]. rewrite clean_step_plain by exact He.
  rewrite IH, <- app_assoc. reflexivity.
Qed.

Lemma fold_clean_step_dotdots k n :
  fold_left (Filepath.clean_step false) (repeat ".." k) (repeat ".." n)
  = repeat ".." (k + n).
Proof.
  revert n. induction k as [|k IH]; intros n; [reflexivity|].
  cbn [repeat fold_left].
  replace (Filepath.clean_step false (repeat ".." n) "..") with (repeat ".." (S n)).
  - rewrite IH. f_equal. lia.
  - destruct n; reflexivity.
Qed.

Lemma clean_elems_of_shape r names out :
  clean_shape r names ->
  out = [] ->
  rev (fold_left (Filepath.clean_step r) names out) = names.
Proof.
  intros (k & ps & -> & Hps & Hr) ->.
  rewrite fold_left_app. destruct r.
  - rewrite (Hr eq_refl). cbn [repeat fold_left app].
    rewrite fold_clean_step_plains by exact Hps. now rewrite app_nil_r, rev_involutive.
  - pose proof (fold_clean_step_dotdots k 0) as Hdots.
    cbn [repeat] in Hdots. rewrite Hdots, Nat.add_0_r.
    rewrite fold_clean_step_plains by exact Hps.
    now rewrite rev_app_distr, rev_involutive, rev_repeat.
Qed.

(** Cleaning a cleaned path changes nothing. *)
Lemma Clean_render_id r names :
  clean_shape r names ->
  Filepath.Clean (Filepath.render r names) = Filepath.render r names.
Proof.
  intros Hshape.
  pose proof (rooted_render r names Hshape) as Hroot.
  pose proof (elems_render r names Hshape) as Helems.
  pose proof (clean_shape_elements r names Hshape) as Hall.
  destruct r.
  - destruct names as [|x l]; [reflexivity|].
    unfold Filepath.Clean, Filepath.clean_elems. rewrite Hroot.
    unfold Filepath.elems in Helems. cbn [Filepath.render] in *.
    set (J := Filepath.join_sep (x :: l)) in *.
    assert ((String Filepath.Separator J =? "")%string = false) as E1 by reflexivity.
    rewrite E1 in *.
    destruct (String Filepath.Separator J =? "/")%string; [discriminate|].
    rewrite Helems.
    change (fold_left (Filepath.clean_step true) ("" :: x :: l) [])
      with (fold_left (Filepath.clean_step true) (x :: l) []).
    rewrite clean_elems_of_shape by auto. reflexivity.
  - destruct names as [|x l]; [reflexivity|].
    unfold Filepath.Clean, Filepath.clean_elems. rewrite Hroot.
    unfold Filepath.elems in Helems. cbn [Filepath.render] in *.
    inversion Hall as [|? ? [_ Hne] _]; subst.
    pose proof (join_sep_not_empty x l Hne) as Hj.
    set (J := Filepath.join_sep (x :: l)) in *.
    assert ((J =? "")%string = false) as E1 by now apply String.eqb_neq.
    rewrite E1 in *.
    destruct (J =? "/")%string; [injection Helems as Hx _; congruence|].
    rewrite Helems. rewrite clean_elems_of_shape by auto. reflexivity.
Qed.

Lemma Clean_idempotent path : Filepath.Clean (Filepath.Clean path) = Filepath.Clean path.
Proof.
  destruct (Clean_render path) as (r & names & -> & Hshape).
  now apply Clean_render_id.
Qed.

(** ** [Rel] and the check of [buildImagePath] *)

Lemma elems_empty p : Filepath.elems p = [] -> p = "".
Proof.
  unfold Filepath.elems. destruct (p =? "")%string eqn:E; [now apply String.eqb_eq in E|].
  destruct (p =? "/")%string; [discriminate|]. intros H.
  now apply split_sep_nonempty in H.
Qed.

Lemma elems_inj p q : Filepath.elems p = Filepath.elems q -> p = q.
Proof.
  assert (forall s t, Filepath.split_sep s = t -> s = Filepath.join_sep t) as Hjoin.
  { intros s t <-. now rewrite join_split. }
  unfold Filepath.elems.
  destruct (String.eqb_spec p "") as [->|Hp], (String.eqb_spec q "") as [->|Hq].
  - reflexivity.
  - destruct (q =? "/")%string; [discriminate|]. intros H. symmetry in H.
    now apply split_sep_nonempty in H.
  - destruct (p =? "/")%string; [discriminate|]. intros H.
    now apply split_sep_nonempty in H.
  - destruct (String.eqb_spec p "/") as [->|Hp'], (String.eqb_spec q "/") as [->|Hq'].
    + reflexivity.
    + intros H. symmetry in H. apply Hjoin in H. cbn in H. congruence.
    + intros H. apply Hjoin in H. cbn in H. congruence.
    + intros H. apply Hjoin in H. now rewrite join_split in H.
Qed.

Lemma strip_common_spec bs ts bs' ts' :
  Filepath.strip_common bs ts = (bs', ts') ->
  exists common, bs = common ++ bs' /\ ts = common ++ ts'.
Proof.
  revert ts. induction bs as [|b bs IH]; intros ts; cbn.
  - intros [= <- <-]. now exists [].
  - destruct ts as [|t ts]; [intros [= <- <-]; now exists []|].
    destruct (String.eqb b t) eqn:E.
    + apply String.eqb_eq in E. subst t. intros H.
      apply IH in H as (c & -> & ->). now exists (b :: c).
    + intros [= <- <-]. now exists [].
Qed.

Lemma HasPrefix_dotdot l :
  Strings.HasPrefix (Filepath.join_sep (".." :: l)) ".." = true.
Proof. destruct (join_sep_head ".." l) as (tail & ->). destruct tail; reflexivity. Qed.

Lemma suffix_plain k ps front back :
  repeat ".." k ++ ps = front ++ back ->
  Forall (fun e => plain e = true) ps ->
  (forall l, back <> ".." :: l) ->
  Forall (fun e => plain e = true) back.
Proof.
  revert front. induction k as [|k IH]; intros front Heq Hps Hback.
  - cbn in Heq. rewrite Heq in Hps. now apply Forall_app in Hps.
  - destruct front as [|a front]; cbn in Heq.
    + symmetry in Heq. now apply Hback in Heq.
    + injection Heq as _ Heq. eapply IH; eauto.
Qed.

Lemma Clean_not_empty path : Filepath.Clean path <> "".
Proof.
  destruct (Clean_render path) as (r & names & -> & Hshape).
  apply clean_shape_elements in Hshape. unfold Filepath.render.
  destruct r; [discriminate|]. destruct names as [|x l]; [discriminate|].
  inversion Hshape as [|? ? [_ Hne] _]; subst. now apply join_sep_not_empty.
Qed.

Lemma accepted_suffix_not_short p :
  accepted_suffix p = true -> p <> "" /\ p <> ".".
Proof. intros H. split; intros ->; discriminate. Qed.

(** The heart of the traversal check: when [Rel] gives a relative path that
    does not start with [..], a cleaned target lies under the base. *)
Lemma Rel_accepts_under_root dir y rel :
  Filepath.Rel dir (Filepath.Clean y) = Some rel ->
  Strings.HasPrefix rel ".." = false ->
  accepted_suffix (Filepath.Clean y) = true ->
  under_root dir (Filepath.Clean y)
  /\ (accepted_suffix (Filepath.Clean dir) = false ->
      strictly_under_root dir (Filepath.Clean y)).
Proof.
  unfold Filepath.Rel. rewrite Clean_idempotent.
  set (p := Filepath.Clean y). set (base := Filepath.Clean dir).
  intros HRel Hpre Hsuf.
  pose proof (accepted_suffix_not_short p Hsuf) as [Hp1 Hp2].
  assert (Hroot : root_elems dir
                  = Filepath.elems (if (base =? ".")%string then "" else base))
    by reflexivity.
  destruct (p =? base)%string eqn:E.
  - apply String.eqb_eq in E.
    assert ((base =? ".")%string = false) as Eb by (apply String.eqb_neq; congruence).
    rewrite Eb in Hroot. split.
    + exists []. split; [constructor|]. now rewrite Hroot, app_nil_r, E.
    + intros Hbase. rewrite <- E in Hbase. congruence.
  - apply String.eqb_neq in E.
    set (base' := if (base =? ".")%string then "" else base) in *.
    destruct (negb (Bool.eqb (Filepath.rooted base') (Filepath.rooted p))) eqn:Hr;
      [discriminate|].
    apply negb_false_iff, Bool.eqb_prop in Hr.
    destruct (Filepath.strip_common _ _) as [bs' ts'] eqn:Es.
    apply strip_common_spec in Es as (c & Hc & Hts).
    destruct bs' as [|b bs'].
    + injection HRel as <-. rewrite app_nil_r in Hc. rewrite <- Hc, <- Hroot in Hts.
      assert (Forall (fun e => plain e = true) ts') as Hplain.
      { destruct (Clean_render y) as (r & names & Hrender & Hshape).
        fold p in Hrender.
        pose proof (elems_render r names Hshape) as He. rewrite <- Hrender in He.
        pose proof (rooted_render r names Hshape) as Hrp. rewrite <- Hrender in Hrp.
        destruct Hshape as (k & ps & -> & Hps & Hk).
        destruct r.
        - rewrite (Hk eq_refl) in He. cbn [repeat app] in He.
          destruct (root_elems dir) as [|c0 c'] eqn:Hre.
          + symmetry in Hroot. apply elems_empty in Hroot.
            fold base' in Hroot. rewrite Hroot, Hrp in Hr. discriminate.
          + rewrite Hts in He. injection He as _ He. rewrite <- He in Hps.
            now apply Forall_app in Hps.
        - destruct (repeat ".." k ++ ps) as [|x l] eqn:Hnames.
          + rewrite Hrender in Hp2. cbn in Hp2. congruence.
          + rewrite <- Hnames in He. rewrite Hts in He. symmetry in He.
            eapply suffix_plain; eauto.
            intros l' ->. rewrite HasPrefix_dotdot in Hpre. discriminate. }
      split; [exists ts'; auto|]. intros _.
      destruct ts' as [|t ts'].
      * exfalso. rewrite app_nil_r, Hroot in Hts. apply elems_inj in Hts.
        fold base' in Hts. unfold base' in Hts.
        destruct (base =? ".")%string; congruence.
      * exists t, ts'. auto.
    + exfalso. destruct ts' as [|t ts'].
      * change (repeat ".." (S (length bs')))
          with (".." :: repeat ".." (length bs')) in HRel.
        replace rel with (Filepath.join_sep (".." :: repeat ".." (length bs')))
          in Hpre by congruence.
        rewrite HasPrefix_dotdot in Hpre. discriminate.
      * destruct (b =? "..")%string; [discriminate|].
        change (repeat ".." (S (length bs')) ++ t :: ts')
          with (".." :: (repeat ".." (length bs') ++ t :: ts')) in HRel.
        replace rel
          with (Filepath.join_sep (".." :: (repeat ".." (length bs') ++ t :: ts')))
          in Hpre by congruence.
        rewrite HasPrefix_dotdot in Hpre. discriminate.
Qed.

Lemma Join_is_Clean a b : b <> "" -> exists y, Filepath.Join a b = Filepath.Clean y.
Proof.
  intros Hb. unfold Filepath.Join.
  destruct (a =? "")%string; cbn [negb]; [|eauto].
  apply String.eqb_neq in Hb. rewrite Hb. cbn [negb]. eauto.
Qed.

(** What [buildImagePath] returns, check by check. *)
Lemma buildImagePath_cases s fileName w :
  let imgPath := Filepath.Join (imgDirPath s) (Filepath.Clean fileName) in
  let r := fst (buildImagePath s fileName w) in
  (invalid_request (snd r) = true
   /\ (Filepath.Rel (imgDirPath s) imgPath = None
       \/ (exists rel, Filepath.Rel (imgDirPath s) imgPath = Some rel
                       /\ Strings.HasPrefix rel ".." = true)
       \/ accepted_suffix imgPath = false))
  \/ (invalid_request (snd r) = false
      /\ fst r = imgPath
      /\ accepted_suffix imgPath = true
      /\ exists rel, Filepath.Rel (imgDirPath s) imgPath = Some rel
                     /\ Strings.HasPrefix rel ".." = false).
Proof.
  cbv zeta. unfold buildImagePath, accepted_suffix.
  set (imgPath := Filepath.Join (imgDirPath s) (Filepath.Clean fileName)).
  destruct (Filepath.Rel (imgDirPath s) imgPath) as [rel|] eqn:HRel;
    [|left; split; [reflexivity|left; reflexivity]].
  destruct (Strings.HasPrefix rel "..") eqn:Hpre;
    [left; split; [reflexivity|right; left; eauto]|].
  rewrite <- negb_orb.
  destruct (Strings.HasSuffix imgPath ".jpg" || Strings.HasSuffix imgPath ".jpeg") eqn:Hsuf;
    cbn [negb]; [|left; split; [reflexivity|right; right; reflexivity]].
  right. destruct (Stat imgPath w) as [[[]|e] w']; cbn; eauto 10.
Qed.

(** C5, as the code has it. [buildImagePath] answers with an invalid-request
    error, before it looks at anything else, whenever the cleaned path
    joined to the image directory does not lie under that directory, and
    also whenever that path does not end in [.jpg] or [.jpeg]. So a path
    it returns, with or without [errImageNotFound], ends in an accepted
    suffix and lies under the image directory, and strictly below it unless
    the directory's own path ends in an accepted suffix. A file name is not
    rejected for containing [..] elements that cancel out inside the
    directory. *)
Theorem buildImagePath_stays_under_root s fileName w :
  let imgPath := Filepath.Join (imgDirPath s) (Filepath.Clean fileName) in
  let r := fst (buildImagePath s fileName w) in
  (~ under_root (imgDirPath s) imgPath -> invalid_request (snd r) = true)
  /\ (accepted_suffix imgPath = false -> invalid_request (snd r) = true)
  /\ (invalid_request (snd r) = false ->
      fst r = imgPath
      /\ accepted_suffix imgPath = true
      /\ under_root (imgDirPath s) imgPath
      /\ (accepted_suffix (Filepath.Clean (imgDirPath s)) = false ->
          strictly_under_root (imgDirPath s) imgPath)).
Proof.
  cbv zeta.
  destruct (Join_is_Clean (imgDirPath s) (Filepath.Clean fileName)
              (Clean_not_empty fileName)) as (y & Hy).
  destruct (buildImagePath_cases s fileName w)
    as [(Hinv & _) | (Hok & Hpath & Hsuf & rel & HRel & Hpre)].
  - rewrite Hinv. repeat split; auto; discriminate.
  - rewrite Hy in HRel, Hsuf.
    destruct (Rel_accepts_under_root _ _ _ HRel Hpre Hsuf) as [Hunder Hstrict].
    rewrite <- Hy in Hunder, Hstrict, Hsuf.
    split; [intros Hesc; tauto|]. split; [congruence|]. auto.
Qed.

(** C5 at work on the stored default image. *)
Lemma buildImagePath_stays_under_root_witness :
  fst (fst (buildImagePath images_handlers "default.jpg" fresh_world))
  = Filepath.Join "images" (Filepath.Clean "default.jpg")
  /\ accepted_suffix (Filepath.Join "images" (Filepath.Clean "default.jpg")) = true
  /\ under_root "images" (Filepath.Join "images" (Filepath.Clean "default.jpg"))
  /\ strictly_under_root "images" (Filepath.Join "images" (Filepath.Clean "default.jpg")).
Proof.
  destruct (buildImagePath_stays_under_root images_handlers "default.jpg" fresh_world)
    as (_ & _ & H).
  destruct (H eq_refl) as (H1 & H2 & H3 & H4).
  split; [exact H1|]. split; [exact H2|]. split; [exact H3|].
  apply H4. reflexivity.
Defined.

(** The claim as written fails twice. A file name with a [..] element that
    stays inside the directory is resolved, not rejected; and a directory
    whose own name ends in [.jpg] is itself returned for the file name
    [.], which is not strictly inside it. *)
Lemma buildImagePath_accepts_inner_dotdot :
  fst (buildImagePath images_handlers "a/../default.jpg" fresh_world)
  = ("images/default.jpg", None)
  /\ fst (buildImagePath {| imgDirPath := "pics.jpg" |} "." fresh_world)
     = ("pics.jpg", Some errImageNotFound).
Proof. split; vm_compute; reflexivity. Qed.

(** C6. A file name of valid form with no file behind it should end in
    [errImageNotFound] and the default image. It does not when the name
    begins with two dots: [..foo.jpg] is cleaned to a path strictly below
    the image directory, ends in an accepted suffix and has no file, yet
    the traversal check tests the relative path with
    [strings.HasPrefix(rel, "..")], takes the name for a step out of the
    directory, and [GetImage] answers with status 400. *)
Theorem GetImage_rejects_dotdot_name :
  let imgPath := Filepath.Join "images" (Filepath.Clean "..foo.jpg") in
  imgPath = "images/..foo.jpg"
  /\ strictly_under_root "images" imgPath
  /\ accepted_suffix imgPath = true
  /\ fs fresh_world !! imgPath = None
  /\ Filepath.Rel "images" imgPath = Some "..foo.jpg"
  /\ fst (buildImagePath images_handlers "..foo.jpg" fresh_world)
     = ("", Some (Errorf "invalid image path: images/..foo.jpg"))
  /\ fst (GetImage images_handlers "..foo.jpg" fresh_world)
     = HttpError "invalid image path: images/..foo.jpg" 400.
Proof.
  cbv zeta. split; [vm_compute; reflexivity|].
  split.
  { exists "..foo.jpg", []. split; [|vm_compute; reflexivity].
    constructor; [reflexivity|constructor]. }
  repeat split; vm_compute; reflexivity.
Qed.

(** ** The digest has 32 bytes, its file name 68 characters *)

Lemma round_length st kw : length (Sha256.round st kw) = length st.
Proof.
  unfold Sha256.round.
  do 9 (destruct st as [|? st]; [reflexivity|]). reflexivity.
Qed.

Lemma fold_round_length l st : length (fold_left Sha256.round l st) = length st.
Proof.
  revert st. induction l as [|kw l IH]; intros st; [reflexivity|].
  cbn [fold_left]. now rewrite IH, round_length.
Qed.

Lemma compress_length st block : length (Sha256.compress st block) = length st.
Proof.
  unfold Sha256.compress. rewrite length_map, length_combine, fold_round_length. lia.
Qed.

Lemma digest_words_length msg : length (Sha256.digest_words msg) = 8%nat.
Proof.
  unfold Sha256.digest_words.
  generalize (Sha256.chunks
                (length (Sha256.be_words (length (Sha256.pad msg) / 4) (Sha256.pad msg)) / 16)
                (Sha256.be_words (length (Sha256.pad msg) / 4) (Sha256.pad msg))).
  intros blocks. change 8%nat with (length Sha256.H0). generalize Sha256.H0.
  induction blocks as [|b blocks IH]; intros st; [reflexivity|].
  cbn [fold_left]. now rewrite IH, compress_length.
Qed.

Lemma be_bytes_length n x : length (Sha256.be_bytes n x) = n.
Proof.
  revert x. induction n as [|n IH]; intros x; [reflexivity|].
  cbn [Sha256.be_bytes]. rewrite length_app, IH. cbn. lia.
Qed.

Lemma Sum256_length data : length (Sha256.Sum256 data) = 32%nat.
Proof.
  unfold Sha256.Sum256. rewrite length_map.
  pose proof (digest_words_length (map Sha256.Z_of_byte data)) as H.
  revert H. generalize (Sha256.digest_words (map Sha256.Z_of_byte data)).
  intros ws Hws.
  assert (length (flat_map (Sha256.be_bytes 4) ws) = (4 * length ws)%nat) as ->.
  { clear Hws. induction ws as [|x ws IH]; [reflexivity|].
    cbn [flat_map]. rewrite length_app, be_bytes_length, IH. cbn [length]. lia. }
  lia.
Qed.

Lemma hex_length bs : String.length (Sha256.hex bs) = (2 * length bs)%nat.
Proof.
  induction bs as [|b bs IH]; [reflexivity|].
  cbn [Sha256.hex String.length length]. rewrite IH. lia.
Qed.

Lemma hex_digit_no_sep n : Ascii.eqb (Sha256.hex_digit n) Filepath.Separator = false.
Proof.
  unfold Sha256.hex_digit. generalize (Z.to_nat n). intros k.
  do 16 (destruct k as [|k]; [reflexivity|]). destruct k; reflexivity.
Qed.

Lemma hex_no_sep bs : has_sep (Sha256.hex bs) = false.
Proof.
  induction bs as [|b bs IH]; [reflexivity|].
  cbn [Sha256.hex has_sep]. now rewrite !hex_digit_no_sep, IH.
Qed.

Lemma length_append a b :
  String.length (a +:+ b) = (String.length a + String.length b)%nat.
Proof.
  induction a as [|c a IH]; [reflexivity|].
  rewrite append_String. cbn [String.length]. now rewrite IH.
Qed.

Lemma has_sep_append a b : has_sep (a +:+ b) = has_sep a || has_sep b.
Proof.
  induction a as [|c a IH]; [reflexivity|].
  rewrite append_String. cbn [has_sep]. now rewrite IH, orb_assoc.
Qed.

(** The file name under which [storeImage] keeps an image. *)
Lemma digest_name_plain data :
  plain (Sha256.hex (Sha256.Sum256 data) +:+ ".jpg") = true
  /\ String.length (Sha256.hex (Sha256.Sum256 data) +:+ ".jpg") = 68%nat.
Proof.
  assert (String.length (Sha256.hex (Sha256.Sum256 data) +:+ ".jpg") = 68%nat) as Hlen.
  { rewrite length_append, hex_length, Sum256_length. reflexivity. }
  split; [|exact Hlen]. unfold plain.
  rewrite has_sep_append, hex_no_sep. cbn [has_sep orb negb andb].
  replace (has_sep ".jpg") with false by reflexivity.
  rewrite !andb_true_r.
  repeat (apply andb_true_intro; split); apply negb_true_iff, String.eqb_neq;
    intros H; rewrite H in Hlen; discriminate.
Qed.

(** ** Joining a plain name to a directory, and trimming a prefix *)

Lemma prefix_empty s : String.prefix "" s = true.
Proof. destruct s; reflexivity. Qed.

Lemma HasPrefix_split s p :
  Strings.HasPrefix s p = true -> s = p +:+ Strings.drop (String.length p) s.
Proof.
  unfold Strings.HasPrefix. revert s. induction p as [|a p IH]; intros s.
  - intros _. now destruct s.
  - destruct s as [|b s]; cbn [String.prefix]; [discriminate|].
    destruct (ascii_dec a b) as [->|]; [|discriminate].
    intros H. rewrite append_String. cbn [String.length Strings.drop]. f_equal. now apply IH.
Qed.

Lemma HasPrefix_append p rest : Strings.HasPrefix (p +:+ rest) p = true.
Proof.
  unfold Strings.HasPrefix. induction p as [|a p IH]; [apply prefix_empty|].
  rewrite append_String. cbn [String.prefix].
  destruct (ascii_dec a a); [exact IH|congruence].
Qed.

Lemma drop_append p rest : Strings.drop (String.length p) (p +:+ rest) = rest.
Proof.
  induction p as [|a p IH]; [now destruct rest|].
  rewrite append_String. exact IH.
Qed.

(** A prefix that ends in a separator cannot reach into a name without one. *)
Lemma prefix_before_name p rest front name :
  (p +:+ "/") +:+ rest = front +:+ name ->
  has_sep name = false ->
  (String.length p < String.length front)%nat.
Proof.
  revert front. induction p as [|a p IH]; intros front Heq Hname.
  - destruct front as [|c front]; [|cbn; lia].
    change (String "/" rest = name) in Heq. rewrite <- Heq in Hname. discriminate.
  - destruct front as [|c front].
    + exfalso. change ("" +:+ name) with name in Heq. rewrite <- Heq in Hname.
      rewrite !has_sep_append in Hname.
      replace (has_sep "/") with true in Hname by reflexivity.
      now rewrite orb_true_r in Hname.
    + rewrite !append_String in Heq. injection Heq as _ Heq.
      cbn [String.length]. apply IH in Heq; [lia|exact Hname].
Qed.

Lemma TrimPrefix_keeps_name p front name :
  has_sep name = false ->
  (String.length name
   <= String.length (Strings.TrimPrefix (front +:+ name) (p +:+ "/")))%nat.
Proof.
  intros Hname. unfold Strings.TrimPrefix.
  destruct (Strings.HasPrefix _ _) eqn:Hpre.
  - apply HasPrefix_split in Hpre.
    set (rest := Strings.drop _ _) in *.
    pose proof (prefix_before_name p rest front name (eq_sym Hpre) Hname) as Hlt.
    apply (f_equal String.length) in Hpre.
    rewrite !length_append in Hpre. cbn [String.length] in Hpre. lia.
  - rewrite length_append. lia.
Qed.

Lemma join_sep_snoc l name :
  exists front, Filepath.join_sep (l ++ [name]) = front +:+ name.
Proof.
  induction l as [|x l (front & IH)]; [now exists ""|].
  change ((x :: l) ++ [name]) with (x :: (l ++ [name])).
  rewrite join_sep_cons by (destruct l; discriminate).
  exists (x +:+ String "/" front). rewrite IH.
  clear. induction x as [|c x IHx]; [reflexivity|].
  rewrite !append_String. now rewrite IHx.
Qed.

Lemma split_sep_app a b :
  Filepath.split_sep (a +:+ String "/" b) = Filepath.split_sep a ++ Filepath.split_sep b.
Proof.
  induction a as [|c a IH]; [reflexivity|].
  rewrite append_String, !split_sep_String, IH.
  destruct (Ascii.eqb c Filepath.Separator); [reflexivity|].
  pose proof (split_sep_nonempty a) as Hne.
  destruct (Filepath.split_sep a); [congruence|reflexivity].
Qed.

(** [Join] of a directory and a plain name ends in that name. *)
Lemma Join_plain dir name :
  plain name = true ->
  exists front, Filepath.Join dir name = front +:+ name.
Proof.
  intros Hplain.
  pose proof (plain_no_sep _ Hplain) as Hsep.
  pose proof (plain_not_special _ Hplain) as (Hne & _ & _).
  assert (forall path l, Filepath.split_sep path = l ++ [name] -> path <> "" ->
            exists front, Filepath.Clean path = front +:+ name) as Hclean.
  { intros path l Hsplit Hpath. unfold Filepath.Clean, Filepath.clean_elems.
    apply String.eqb_neq in Hpath. rewrite Hpath, Hsplit, fold_left_app.
    cbn [fold_left]. rewrite clean_step_plain by exact Hplain.
    cbn [rev]. unfold Filepath.render.
    destruct (join_sep_snoc
                (rev (fold_left (Filepath.clean_step (Filepath.rooted path)) l [])) name)
      as (front & Hfront).
    destruct (Filepath.rooted path).
    - exists (String Filepath.Separator front). rewrite Hfront. reflexivity.
    - destruct (rev _ ++ [name]) eqn:Hl; [now destruct (rev _)|].
      exists front. rewrite <- Hfront. reflexivity. }
  unfold Filepath.Join. destruct (String.eqb_spec dir "") as [->|Hdir]; cbn [negb].
  - apply String.eqb_neq in Hne. rewrite Hne. cbn [negb].
    apply (Hclean name []); [now apply split_sep_single|now apply String.eqb_neq].
  - apply (Hclean _ (Filepath.split_sep dir)).
    + change (String Filepath.Separator name) with (String "/" name).
      rewrite split_sep_app, (split_sep_single name) by exact Hsep. reflexivity.
    + destruct dir; [congruence|discriminate].
Qed.

Lemma Join_images name :
  plain name = true -> Filepath.Join "images" name = "images/" +:+ name.
Proof.
  intros Hplain. pose proof (plain_no_sep _ Hplain) as Hsep.
  unfold Filepath.Join. cbn [String.eqb Ascii.eqb negb].
  change ((if negb ("images" =? "")%string
           then Filepath.Clean ("images" +:+ String Filepath.Separator name)
           else if negb (name =? "")%string then Filepath.Clean name else "")
          = "images/" +:+ name)
    with (Filepath.Clean ("images" +:+ String "/" name) = "images/" +:+ name).
  unfold Filepath.Clean, Filepath.clean_elems.
  change (("images" +:+ String "/" name =? "")%string) with false.
  change (Filepath.rooted ("images" +:+ String "/" name)) with false.
  rewrite split_sep_app, (split_sep_single name) by exact Hsep.
  change (Filepath.split_sep "images" ++ [name]) with ["images"; name].
  cbn [fold_left].
  change (Filepath.clean_step false [] "images") with ["images"].
  rewrite clean_step_plain by exact Hplain. reflexivity.
Qed.

Lemma ReadFile_ok name w data w' :
  ReadFile name w = (Ok data, w') ->
  fs w !! name = Some data /\ fs w' = fs w /\ db w' = db w.
Proof.
  unfold ReadFile, bind. destruct (call PathError w) as [[[]|e] w0] eqn:Hc; [|discriminate].
  apply call_frame in Hc as (Hd & _ & Hf). rewrite <- Hf.
  destruct (fs w0 !! name); [|discriminate]. intros [= <- <-]. auto.
Qed.

(** C10. A submission without image bytes that [AddItem] accepts: the
    default image was read from the image directory and stored under its
    digest. So the file named by the digest of the default image is in the
    image directory afterwards: [os.Stat] found it and no file was
    changed, or it was written and holds the bytes of the default image,
    as it does whenever it was not there before; no other file changed.
    The image field of the new item row is the path of that file with a
    leading [images/] trimmed. That is never the name [default.jpg]; with
    the image directory [images] it is the digest file name itself. *)
Theorem AddItem_without_image_stores_default s r req w msg w' :
  parseAddItemRequest r = Ok req ->
  req_Image req = [] ->
  AddItem s r w = (WriteJSON msg, w') ->
  exists defaultImage id cid,
    let name := Sha256.hex (Sha256.Sum256 defaultImage) +:+ ".jpg" in
    let path := Filepath.Join (imgDirPath s) name in
    let image := Strings.TrimPrefix path "images/" in
    fs w !! Filepath.Join (imgDirPath s) "default.jpg" = Some defaultImage
    /\ ((is_Some (fs w !! path) /\ fs w' = fs w) \/ fs w' = <[path := defaultImage]> (fs w))
    /\ (fs w !! path = None -> fs w' !! path = Some defaultImage)
    /\ is_Some (fs w' !! path)
    /\ Sqlite.items (db w')
       = Sqlite.items (db w)
         ++ [{| Sqlite.item_id := id; Sqlite.item_name := req_Name req;
                Sqlite.item_category_id := cid; Sqlite.item_image_name := image |}]
    /\ image <> "default.jpg"
    /\ (imgDirPath s = "images" -> image = name).
Proof.
  intros Hparse Himage. unfold AddItem. rewrite Hparse, Himage.
  cbn [length Nat.ltb Nat.leb]. unfold bind.
  destruct (ReadFile _ w) as [[defaultImage|e] w0] eqn:HR; [|discriminate].
  apply ReadFile_ok in HR as (Hdefault & Hf0 & Hd0).
  destruct (storeImage s defaultImage w0) as [[fileName|e] w1] eqn:HS; [|discriminate].
  apply storeImage_ok in HS as (Hpath & Hd1 & Hfs).
  destruct (Insert _ w1) as [[[]|e] w2] eqn:HI; [|discriminate].
  intros [= _ <-].
  pose proof HI as Hstep.
  apply Insert_step in Hstep as (cid & id & Hrows & _ & _ & _). cbn in Hrows.
  apply Insert_ok in HI as (_ & _ & _ & _ & _ & Hf2).
  exists defaultImage, id, cid. cbv zeta.
  destruct (digest_name_plain defaultImage) as [Hplain Hlen].
  subst fileName. rewrite Hf0, <- Hf2 in Hfs.
  split; [exact Hdefault|]. split; [exact Hfs|].
  split; [|split; [|split; [|split]]].
  - intros Hnone. destruct Hfs as [[Hthere _] | ->].
    + rewrite Hnone in Hthere. now destruct Hthere.
    + apply lookup_insert_eq.
  - destruct Hfs as [[Hthere ->] | ->]; [exact Hthere|].
    rewrite lookup_insert_eq. eauto.
  - rewrite Hrows, Hd1, Hd0. reflexivity.
  - destruct (Join_plain (imgDirPath s) _ Hplain) as (front & ->).
    pose proof (TrimPrefix_keeps_name "images" front _ (plain_no_sep _ Hplain)) as Hle.
    rewrite Hlen in Hle. change ("images" +:+ "/") with "images/" in Hle.
    intros Heq. rewrite Heq in Hle. cbn in Hle. lia.
  - intros ->. rewrite Join_images by exact Hplain.
    unfold Strings.TrimPrefix. rewrite HasPrefix_append. apply drop_append.
Qed.

(** C10 at work: a form without a file, posted to a fresh service. *)
Lemma AddItem_without_image_stores_default_witness :
  let r := {| ContentType := "multipart/form-data; boundary=x"; ParseError := None;
              FormName := "Bike"; FormCategory := "Sports"; FormFile := MissingFile |} in
  let w' := snd (AddItem images_handlers r fresh_world) in
  exists defaultImage id cid,
    let name := Sha256.hex (Sha256.Sum256 defaultImage) +:+ ".jpg" in
    let path := Filepath.Join "images" name in
    let image := Strings.TrimPrefix path "images/" in
    fs fresh_world !! Filepath.Join "images" "default.jpg" = Some defaultImage
    /\ ((is_Some (fs fresh_world !! path) /\ fs w' = fs fresh_world)
        \/ fs w' = <[path := defaultImage]> (fs fresh_world))
    /\ (fs fresh_world !! path = None -> fs w' !! path = Some defaultImage)
    /\ is_Some (fs w' !! path)
    /\ Sqlite.items (db w')
       = Sqlite.items (db fresh_world)
         ++ [{| Sqlite.item_id := id; Sqlite.item_name := "Bike";
                Sqlite.item_category_id := cid; Sqlite.item_image_name := image |}]
    /\ image <> "default.jpg"
    /\ ("images" = "images" -> image = name).
Proof.
  cbv zeta.
  eapply (AddItem_without_image_stores_default images_handlers
            {| ContentType := "multipart/form-data; boundary=x"; ParseError := None;
               FormName := "Bike"; FormCategory := "Sports"; FormFile := MissingFile |}
            {| req_Name := "Bike"; req_Category := "Sports"; req_Image := [] |}
            fresh_world "item received: Bike").
  - reflexivity.
  - reflexivity.
  - vm_compute. reflexivity.
Defined.

(** ** Searching by keyword *)

(** The search example of the spec: both shirts, in storage order, for the
    keyword in lower case; nothing, and no error, for a keyword that occurs
    nowhere. *)
Example SearchItemsByKeyword_shirt :
  fst (SearchItemsByKeyword "shirt" shirts_world)
  = Ok [ {| ID := 1; Name := "Blue Shirt"; Category := "Tops"; Image := "a.jpg" |};
         {| ID := 2; Name := "Shirt"; Category := "Tops"; Image := "b.jpg" |} ]
  /\ fst (SearchItemsByKeyword "zzz" shirts_world) = Ok [].
Proof. split; vm_compute; reflexivity. Qed.

(** C7 fails on keywords that hold a wildcard of LIKE: the keyword is put
    between two [%] as it is. The keyword [_] occurs in none of the three
    names, and the search returns all three items. *)
Theorem SearchItemsByKeyword_wildcard_keyword :
  forallb (fun name => negb (contains_nocase "_" name))
          ["Blue Shirt"; "Shirt"; "Pants"] = true
  /\ fst (SearchItemsByKeyword "_" shirts_world)
     = Ok [ {| ID := 1; Name := "Blue Shirt"; Category := "Tops"; Image := "a.jpg" |};
            {| ID := 2; Name := "Shirt"; Category := "Tops"; Image := "b.jpg" |};
            {| ID := 3; Name := "Pants"; Category := "Bottoms"; Image := "c.jpg" |} ].
Proof. split; vm_compute; reflexivity. Qed.

(** ** A category insert that the engine rejects *)

(** C9 fails as written: [Insert] has no second attempt. The lookup finds
    no category "Sports", the engine rejects the insert of the category row
    because another transaction created it in between, and [Insert]
    returns that error to its caller. *)
Lemma Insert_surfaces_unique_violation :
  fst (Insert (new_item "Bike" "Sports" "f.jpg")
         (set_faults [None; None; Some "UNIQUE constraint failed: categories.name"]
            fresh_world))
  = Err (SqliteError "UNIQUE constraint failed: categories.name").
Proof. vm_compute. reflexivity. Qed.

(** C9, as the code has it. When the lookup of the category finds no row and
    the engine then rejects the insert of the category row, [Insert] does
    not look the category up again: it returns the engine's error as it is
    and the transaction is rolled back. The committed database is the one
    before the call, so category names that were unique still are. *)
Theorem Insert_category_rejected item w msg rest :
  category_seen (Category item) (db w) = false ->
  faults w = None :: None :: Some msg :: rest ->
  exists w', Insert item w = (Err (SqliteError msg), w')
             /\ db w' = db w /\ tx w' = None /\ faults w' = rest
             /\ (NoDup (category_names (db w)) -> NoDup (category_names (db w'))).
Proof.
  intros Hseen Hfaults.
  assert (Sqlite.select_category_id (Category item) (db w) = None) as Hsel.
  { destruct (Sqlite.select_category_id _ _) as [cid|] eqn:Hs; [|reflexivity].
    apply select_category_id_Some in Hs.
    assert (category_seen (Category item) (db w) = true) as Habs; [|congruence].
    apply category_seen_In, in_map_iff. eexists. split; [|exact Hs]. reflexivity. }
  eexists. split.
  - unfold Insert, bind, defer, BeginTx, bind, call. rewrite Hfaults. cbn.
    unfold resolveCategory, catch, queryCategoryID, in_tx, call. cbn. rewrite Hsel. cbn.
    reflexivity.
  - cbn. auto.
Qed.

(** C9 at work on a fresh service. *)
Lemma Insert_category_rejected_witness :
  let w := set_faults [None; None; Some "database is locked"] fresh_world in
  exists w', Insert (new_item "Bike" "Sports" "f.jpg") w
             = (Err (SqliteError "database is locked"), w')
             /\ db w' = db w /\ tx w' = None /\ faults w' = []
             /\ (NoDup (category_names (db w)) -> NoDup (category_names (db w'))).
Proof.
  apply (Insert_category_rejected (new_item "Bike" "Sports" "f.jpg")
           (set_faults [None; None; Some "database is locked"] fresh_world)
           "database is locked" []); reflexivity.
Defined.

(** ** LIKE on a keyword without wildcards is a search for a substring *)

(** Case analysis on the comparisons of characters in the goal. *)
Ltac case_chars :=
  repeat match goal with
         | |- context [?a <? ?b] => first [is_var a | is_var b]; destruct (Z.ltb_spec a b)
         | |- context [?a <=? ?b] => first [is_var a | is_var b]; destruct (Z.leb_spec a b)
         end;
  cbn [andb orb];
  repeat match goal with
         | |- context [?a =? ?b] => destruct (Z.eqb_spec a b)
         end;
  cbn [andb orb]; try reflexivity; try lia.

Lemma byte_value_range b : 0 <= Sqlite.byte_value b < 256.
Proof. destruct b as [[] [] [] [] [] [] [] []]; vm_compute; split; congruence. Qed.

Lemma byte_value_eqb a b : Ascii.eqb a b = (Sqlite.byte_value a =? Sqlite.byte_value b).
Proof.
  destruct (Ascii.eqb_spec a b) as [->|Hne]; [now rewrite Z.eqb_refl|].
  symmetry. apply Z.eqb_neq. intros H. apply Hne.
  unfold Sqlite.byte_value in H. apply N2Z.inj in H.
  rewrite <- (ascii_N_embedding a), <- (ascii_N_embedding b). now rewrite H.
Qed.

Lemma byte_value_lower b :
  Sqlite.byte_value (Sqlite.lower b) = Sqlite.sqlite3Tolower (Sqlite.byte_value b).
Proof. destruct b as [[] [] [] [] [] [] [] []]; reflexivity. Qed.

Lemma utf8_checked_high c : 128 <= Sqlite.utf8_checked c.
Proof.
  unfold Sqlite.utf8_checked. destruct (Z.ltb_spec c 0x80); cbn [orb]; [lia|].
  destruct (_ || _); lia.
Qed.

Lemma stops_at_same_char c c2 : Sqlite.stops_at c c2 = same_char c c2.
Proof.
  unfold Sqlite.stops_at, same_char, Sqlite.sqlite3Toupper, Sqlite.sqlite3Tolower.
  case_chars.
Qed.

Lemma takes_same_char c c2 : c <> Sqlite.matchOne -> Sqlite.takes c c2 = same_char c c2.
Proof.
  intros Hc. unfold Sqlite.takes, same_char.
  apply Z.eqb_neq in Hc. rewrite Hc. now rewrite orb_false_r.
Qed.

Lemma patternCompare_literals keyword s :
  Forall literal keyword ->
  Sqlite.patternCompare false (keyword ++ [Sqlite.matchAll]) s
  = if prefix_chars keyword s then Sqlite.SQLITE_MATCH else Sqlite.SQLITE_NOMATCH.
Proof.
  intros Hk. revert s. induction Hk as [|c keyword [Hall Hone] Hk IH]; intros s.
  - reflexivity.
  - cbn [app Sqlite.patternCompare prefix_chars].
    apply Z.eqb_neq in Hall. rewrite Hall.
    destruct s as [|c2 s]; [reflexivity|].
    rewrite takes_same_char by exact Hone.
    destruct (same_char c c2); [apply IH|reflexivity].
Qed.

Lemma patternCompare_keyword keyword s :
  Forall literal keyword ->
  Sqlite.patternCompare false (Sqlite.matchAll :: keyword ++ [Sqlite.matchAll]) s
  = if contains_chars keyword s
    then Sqlite.SQLITE_MATCH else Sqlite.SQLITE_NOWILDCARDMATCH.
Proof.
  intros Hk. cbn [Sqlite.patternCompare]. rewrite Z.eqb_refl.
  destruct Hk as [|c keyword [Hall Hone] Hk].
  - cbn. now destruct s.
  - cbn [app Sqlite.patternCompare].
    apply Z.eqb_neq in Hall, Hone. rewrite Hall, Hone.
    induction s as [|c2 s IH]; [reflexivity|].
    cbn [contains_chars prefix_chars]. rewrite stops_at_same_char.
    destruct (same_char c c2); cbn [andb].
    + rewrite patternCompare_literals by exact Hk.
      destruct (prefix_chars keyword s); [reflexivity|]. exact IH.
    + exact IH.
Qed.

Lemma cstr_zero_free s : zero_free s = true -> Sqlite.cstr s = s.
Proof.
  induction s as [|c s IH]; [reflexivity|]. cbn.
  destruct (Ascii.eqb c zero); [discriminate|]. cbn. intros H. now rewrite IH.
Qed.

Lemma zero_free_append a b : zero_free (a +:+ b) = zero_free a && zero_free b.
Proof.
  induction a as [|c a IH]; [reflexivity|].
  rewrite append_String. cbn [zero_free]. rewrite IH. apply andb_assoc.
Qed.

Lemma utf8_chars_percent pending s :
  Sqlite.utf8_chars pending (s +:+ "%")
  = Sqlite.utf8_chars pending s ++ [Sqlite.matchAll].
Proof.
  revert pending. induction s as [|b s IH]; intros pending.
  - now destruct pending.
  - rewrite append_String. cbn [Sqlite.utf8_chars].
    destruct pending as [c|];
      repeat match goal with
             | |- context [if ?b then _ else _] => destruct b
             end; cbn [app]; now rewrite ?IH.
Qed.

Lemma utf8_chars_literal pending s :
  wildcard_free s = true -> Forall literal (Sqlite.utf8_chars pending s).
Proof.
  assert (forall c, literal (Sqlite.utf8_checked c)) as Hchecked.
  { intros c. pose proof (utf8_checked_high c).
    unfold literal, Sqlite.matchAll, Sqlite.matchOne. lia. }
  revert pending. induction s as [|b s IH]; intros pending Hfree.
  - destruct pending; cbn; auto.
  - cbn [wildcard_free] in Hfree.
    apply andb_prop in Hfree as [Hb Hfree]. apply andb_prop in Hb as [Hall Hone].
    apply negb_true_iff in Hall, Hone. rewrite byte_value_eqb in Hall, Hone.
    apply Z.eqb_neq in Hall, Hone.
    assert (literal (Sqlite.byte_value b)) as Hlit by (split; assumption).
    cbn [Sqlite.utf8_chars].
    destruct pending as [c|];
      repeat match goal with
             | |- context [if ?b then _ else _] => destruct b
             end; auto.
Qed.

(** LIKE with a keyword without wildcards and zero byte between two [%]: the
    characters of the keyword occur in the text. *)
Lemma like_keyword keyword s :
  wildcard_free keyword = true -> zero_free keyword = true ->
  Sqlite.like ("%" +:+ keyword +:+ "%") s
  = contains_chars (Sqlite.chars keyword) (Sqlite.chars s).
Proof.
  intros Hfree Hzero. unfold Sqlite.like.
  assert (Sqlite.chars ("%" +:+ keyword +:+ "%")
          = Sqlite.matchAll :: Sqlite.chars keyword ++ [Sqlite.matchAll]) as ->.
  { unfold Sqlite.chars. rewrite !cstr_zero_free; try exact Hzero.
    - change ("%" +:+ keyword +:+ "%") with (String "%" (keyword +:+ "%")).
      cbn [Sqlite.utf8_chars]. change (Sqlite.byte_value "%" <? 192) with true.
      cbv iota. now rewrite utf8_chars_percent.
    - change ("%" +:+ keyword +:+ "%") with (String "%" (keyword +:+ "%")).
      cbn [zero_free]. rewrite zero_free_append, Hzero. reflexivity. }
  rewrite patternCompare_keyword.
  - now destruct (contains_chars _ _).
  - unfold Sqlite.chars. rewrite cstr_zero_free by exact Hzero.
    now apply utf8_chars_literal.
Qed.

(** The characters of an ASCII text are its bytes. *)
Lemma utf8_chars_ascii s :
  ascii_only s = true ->
  Sqlite.utf8_chars None s = map Sqlite.byte_value (list_ascii_of_string s).
Proof.
  induction s as [|b s IH]; [reflexivity|]. cbn [ascii_only].
  intros H. apply andb_prop in H as [Hb Hs]. apply Z.ltb_lt in Hb.
  cbn [Sqlite.utf8_chars list_ascii_of_string map].
  destruct (Z.ltb_spec (Sqlite.byte_value b) 192); [|lia]. now rewrite IH.
Qed.

Lemma same_char_bytes k b :
  Sqlite.byte_value k < 128 ->
  same_char (Sqlite.byte_value k) (Sqlite.byte_value b)
  = Ascii.eqb (Sqlite.lower k) (Sqlite.lower b).
Proof.
  intros Hk. rewrite byte_value_eqb, !byte_value_lower.
  pose proof (byte_value_range k). pose proof (byte_value_range b).
  revert Hk H H0. generalize (Sqlite.byte_value k) (Sqlite.byte_value b).
  intros x y Hx Hxr Hyr. unfold same_char, Sqlite.sqlite3Tolower.
  case_chars.
Qed.

Lemma prefix_chars_high k keyword c s :
  Sqlite.byte_value k < 128 -> 128 <= c ->
  prefix_chars (map Sqlite.byte_value (list_ascii_of_string (String k keyword))) (c :: s)
  = false.
Proof.
  intros Hk Hc. cbn [list_ascii_of_string map prefix_chars]. unfold same_char.
  destruct (Z.eqb_spec (Sqlite.byte_value k) c); [lia|].
  destruct (Z.ltb_spec c 128); [lia|]. now rewrite andb_false_r.
Qed.

Lemma prefix_nocase_high k keyword b s :
  Sqlite.byte_value k < 128 -> 128 <= Sqlite.byte_value b ->
  prefix_nocase (String k keyword) (String b s) = false.
Proof.
  intros Hk Hb. cbn [prefix_nocase]. rewrite <- same_char_bytes by exact Hk.
  unfold same_char.
  destruct (Z.eqb_spec (Sqlite.byte_value k) (Sqlite.byte_value b)); [lia|].
  destruct (Z.ltb_spec (Sqlite.byte_value b) 128); [lia|]. now rewrite andb_false_r.
Qed.

(** The first character that comes out of a character that has begun is
    no ASCII character. *)
Lemma utf8_chars_pending c s :
  exists c' rest, Sqlite.utf8_chars (Some c) s = c' :: rest /\ 128 <= c'.
Proof.
  revert c. induction s as [|b s IH]; intros c; cbn [Sqlite.utf8_chars].
  - eauto using utf8_checked_high.
  - destruct (_ && _); [apply IH|]. eauto using utf8_checked_high.
Qed.

Lemma prefix_chars_bytes keyword s :
  ascii_only keyword = true ->
  prefix_chars (map Sqlite.byte_value (list_ascii_of_string keyword))
    (Sqlite.utf8_chars None s)
  = prefix_nocase keyword s.
Proof.
  revert s. induction keyword as [|k keyword IH]; intros s Hascii; [reflexivity|].
  pose proof Hascii as Hk. cbn [ascii_only] in Hk.
  apply andb_prop in Hk as [Hk Hrest]. apply Z.ltb_lt in Hk.
  destruct s as [|b s]; [reflexivity|].
  cbn [Sqlite.utf8_chars].
  destruct (Z.ltb_spec (Sqlite.byte_value b) 192) as [Hb|Hb].
  - cbn [list_ascii_of_string map prefix_chars prefix_nocase].
    now rewrite same_char_bytes, IH by assumption.
  - destruct (utf8_chars_pending (Sqlite.sqlite3Utf8Trans1 (Sqlite.byte_value b)) s)
      as (c' & rest & -> & Hc').
    rewrite prefix_chars_high, prefix_nocase_high by lia. reflexivity.
Qed.

Lemma contains_chars_bytes k keyword pending s :
  ascii_only (String k keyword) = true ->
  contains_chars (map Sqlite.byte_value (list_ascii_of_string (String k keyword)))
    (Sqlite.utf8_chars pending s)
  = contains_nocase (String k keyword) s.
Proof.
  intros Hascii. pose proof Hascii as Hk. cbn [ascii_only] in Hk.
  apply andb_prop in Hk as [Hk _]. apply Z.ltb_lt in Hk.
  set (chars := map Sqlite.byte_value (list_ascii_of_string (String k keyword))).
  assert (forall c l, 128 <= c -> contains_chars chars (c :: l) = contains_chars chars l)
    as Hskip.
  { intros c l Hc. cbn [contains_chars]. unfold chars.
    now rewrite prefix_chars_high by assumption. }
  revert pending. induction s as [|b s IH]; intros pending.
  - destruct pending as [c|]; [|reflexivity].
    cbn [Sqlite.utf8_chars]. rewrite Hskip by apply utf8_checked_high. reflexivity.
  - assert (contains_chars chars (Sqlite.utf8_chars None (String b s))
            = contains_nocase (String k keyword) (String b s)) as Hnone.
    { cbn [contains_nocase].
      rewrite <- (prefix_chars_bytes _ (String b s) Hascii). fold chars.
      cbn [Sqlite.utf8_chars].
      destruct (Z.ltb_spec (Sqlite.byte_value b) 192) as [Hb|Hb].
      - cbn [contains_chars]. now rewrite IH.
      - rewrite IH.
        destruct (utf8_chars_pending (Sqlite.sqlite3Utf8Trans1 (Sqlite.byte_value b)) s)
          as (c' & rest & -> & Hc').
        unfold chars. now rewrite prefix_chars_high by lia. }
    destruct pending as [c|]; [|exact Hnone].
    cbn [Sqlite.utf8_chars] in *.
    destruct (Z.leb_spec 128 (Sqlite.byte_value b)) as [Hlo|Hlo];
      destruct (Z.ltb_spec (Sqlite.byte_value b) 192) as [Hhi|Hhi]; cbn [andb];
      try lia.
    + rewrite IH. cbn [contains_nocase]. now rewrite prefix_nocase_high by lia.
    + now rewrite Hskip by apply utf8_checked_high.
    + now rewrite Hskip by apply utf8_checked_high.
Qed.

Lemma contains_nocase_empty s : contains_nocase "" s = true.
Proof. now destruct s. Qed.

(** For an ASCII keyword the characters need not be looked at: the bytes
    of the keyword occur in the text before its first zero byte. *)
Lemma like_ascii_keyword keyword s :
  wildcard_free keyword = true -> zero_free keyword = true ->
  ascii_only keyword = true ->
  Sqlite.like ("%" +:+ keyword +:+ "%") s = contains_nocase keyword (Sqlite.cstr s).
Proof.
  intros Hfree Hzero Hascii. rewrite like_keyword by assumption.
  unfold Sqlite.chars at 1. rewrite cstr_zero_free by exact Hzero.
  rewrite utf8_chars_ascii by exact Hascii.
  destruct keyword as [|k keyword].
  - cbn. now destruct (Sqlite.chars s), (Sqlite.cstr s).
  - apply contains_chars_bytes. exact Hascii.
Qed.

Lemma filter_ext_in {A} (p q : A -> bool) (l : list A) :
  (forall x, p x = q x) -> List.filter p l = List.filter q l.
Proof.
  intros H. induction l as [|x l IH]; [reflexivity|]. cbn. now rewrite H, IH.
Qed.

(** The pattern of a keyword of at most 49998 bytes is within the limit. *)
Lemma select_like_keyword keyword d :
  Z.of_nat (String.length keyword) <= 49998 ->
  Sqlite.select_like ("%" +:+ keyword +:+ "%") d
  = Sqlite.select_items
      (fun it => Sqlite.like ("%" +:+ keyword +:+ "%") (Sqlite.item_name it)) d.
Proof.
  intros Hlen. unfold Sqlite.select_like, Sqlite.SQLITE_MAX_LIKE_PATTERN_LENGTH.
  change ("%" +:+ keyword +:+ "%") with (String "%" (keyword +:+ "%")).
  cbn [String.length]. rewrite length_append. cbn [String.length].
  destruct (Z.ltb_spec 50000 (Z.of_nat (S (String.length keyword + 1)))); [lia|].
  reflexivity.
Qed.

(** What the engine makes of bytes: the pattern ends at a zero byte, and
    [_] stands for one character, of however many bytes. *)
Example like_reads_characters :
  let a := String "227" (String "129" (String "130" "")) in
  Sqlite.chars a = [0x3042]
  /\ Sqlite.like "%__%" a = false
  /\ Sqlite.like "%_%" a = true
  /\ Sqlite.like ("%" +:+ String zero "%") "Shirt" = true
  /\ Sqlite.like ("%shirt" +:+ String zero "%") "Blue Shirt" = true
  /\ Sqlite.like ("%blue" +:+ String zero "%") "Blue Shirt" = false.
Proof. cbv zeta. repeat split; vm_compute; reflexivity. Qed.

(** For a keyword without [%], [_] and zero byte, of at most 49998 bytes,
    [SearchItemsByKeyword] returns the items in whose name the characters
    of the keyword occur one after the other, upper and lower case ASCII
    letters being equal; each item comes with the name of its category, in
    storage order. The name counts up to its first zero byte, and the
    characters are those the UTF-8 reader of the engine makes of the
    bytes. When the keyword is ASCII this is to say that its bytes occur in
    the name. *)
Theorem SearchItemsByKeyword_plain_keyword keyword w :
  wildcard_free keyword = true ->
  zero_free keyword = true ->
  Z.of_nat (String.length keyword) <= 49998 ->
  no_faults w = true ->
  fst (SearchItemsByKeyword keyword w)
  = Ok (map item_of_row
          (Sqlite.select_items
             (fun it => contains_chars (Sqlite.chars keyword)
                          (Sqlite.chars (Sqlite.item_name it))) (db w)))
  /\ (ascii_only keyword = true ->
      fst (SearchItemsByKeyword keyword w)
      = Ok (map item_of_row
              (Sqlite.select_items
                 (fun it => contains_nocase keyword (Sqlite.cstr (Sqlite.item_name it)))
                 (db w)))).
Proof.
  intros Hfree Hzero Hlen Hok. unfold SearchItemsByKeyword.
  rewrite query_rows_no_faults by exact Hok.
  rewrite select_like_keyword by exact Hlen.
  unfold Sqlite.select_items. split; [|intros Hascii]; do 3 f_equal;
    apply filter_ext_in; intros it.
  - now apply like_keyword.
  - now apply like_ascii_keyword.
Qed.

(** The search example of the spec, and a keyword in Japanese. *)
Lemma SearchItemsByKeyword_plain_keyword_witness :
  let a := String "227" (String "129" (String "130" "")) in
  fst (SearchItemsByKeyword "shirt" shirts_world)
  = Ok (map item_of_row
          (Sqlite.select_items
             (fun it => contains_nocase "shirt" (Sqlite.cstr (Sqlite.item_name it)))
             (db shirts_world)))
  /\ fst (SearchItemsByKeyword a shirts_world)
     = Ok (map item_of_row
             (Sqlite.select_items
                (fun it => contains_chars (Sqlite.chars a)
                             (Sqlite.chars (Sqlite.item_name it))) (db shirts_world))).
Proof.
  cbv zeta. split.
  - refine (proj2 (SearchItemsByKeyword_plain_keyword "shirt" shirts_world _ _ _ _) _);
      first [reflexivity | cbn; lia].
  - refine (proj1 (SearchItemsByKeyword_plain_keyword
                     (String "227" (String "129" (String "130" ""))) shirts_world
                     _ _ _ _));
      first [reflexivity | cbn; lia].
Defined.

(** ** Listing the catalog *)

Lemma filter_single {A} (p : A -> bool) (l : list A) (a : A) :
  NoDup l -> In a l -> p a = true -> (forall b, In b l -> p b = true -> b = a) ->
  List.filter p l = [a].
Proof.
  induction 1 as [|x l Hx Hl IH]; cbn; [tauto|]. intros Hin Hpa Huniq.
  rewrite list_elem_of_In in Hx.
  destruct (p x) eqn:Hpx.
  - assert (x = a) as -> by (apply Huniq; auto).
    f_equal. apply filter_none. intros b Hb.
    destruct (p b) eqn:Hpb; [|reflexivity].
    assert (b = a) as -> by (apply Huniq; auto). tauto.
  - destruct Hin as [->|Hin]; [congruence|]. apply IH; auto.
Qed.

Lemma NoDup_of_map {A B} (f : A -> B) (l : list A) : NoDup (map f l) -> NoDup l.
Proof.
  induction l as [|x l IH]; cbn; [constructor|].
  rewrite !NoDup_cons, !list_elem_of_In. intros [Hx Hl]. split; [|auto].
  intros Hin. apply Hx. now apply in_map.
Qed.

(** In a database made by [Insert]s the join gives one row per item. *)
Lemma join_item_single d it :
  schema_ok d -> references_ok d -> In it (Sqlite.items d) ->
  exists c, In c (Sqlite.categories d)
            /\ Sqlite.cat_id c = Sqlite.item_category_id it
            /\ Sqlite.join_item d it
               = [{| Sqlite.j_id := Sqlite.item_id it; Sqlite.j_name := Sqlite.item_name it;
                     Sqlite.j_category := Sqlite.cat_name c;
                     Sqlite.j_image_name := Sqlite.item_image_name it |}].
Proof.
  intros (Hids & _ & _) Href Hin. unfold references_ok in Href.
  rewrite Forall_forall in Href. specialize (Href it).
  rewrite list_elem_of_In in Href. specialize (Href Hin).
  apply in_map_iff in Href as (c & Hc & Hcin).
  exists c. split; [exact Hcin|]. split; [exact Hc|].
  unfold Sqlite.join_item.
  rewrite (filter_single _ _ c); [reflexivity| | | |].
  - eapply NoDup_of_map, Hids.
  - exact Hcin.
  - apply Z.eqb_eq, Hc.
  - intros b Hb Heq. apply Z.eqb_eq in Heq.
    eapply NoDup_map_inj; eauto. congruence.
Qed.

(** [GetAll], when nothing fails, returns every item of a database made by
    [Insert]s, once, in storage order, each with the name of its category;
    for the empty catalog that is the empty list and no error. *)
Theorem GetAll_lists_every_item w :
  reachable (db w) -> no_faults w = true ->
  exists items, fst (GetAll w) = Ok items
                /\ Forall2 (shows (db w)) (Sqlite.items (db w)) items
                /\ (Sqlite.items (db w) = [] -> items = []).
Proof.
  intros Hreach Hok. apply reachable_consistent in Hreach as [Hschema Href].
  unfold GetAll. rewrite query_rows_no_faults by exact Hok.
  eexists. split; [reflexivity|]. unfold Sqlite.select_items.
  assert (forall l, (forall it, In it l -> In it (Sqlite.items (db w))) ->
            Forall2 (shows (db w)) l
              (map item_of_row
                 (flat_map (Sqlite.join_item (db w)) (List.filter (fun _ => true) l))))
    as Hall.
  { induction l as [|it l IH]; intros Hsub; [constructor|].
    cbn [List.filter flat_map].
    destruct (join_item_single (db w) it Hschema Href) as (c & Hcin & Hc & ->);
      [apply Hsub; now left|].
    cbn [app map]. constructor; [|apply IH; intros x Hx; apply Hsub; now right].
    unfold shows, item_of_row. cbn. repeat split.
    destruct c as [cid cname]. cbn in *. now subst. }
  split; [apply Hall; auto|]. intros ->. reflexivity.
Qed.

Lemma GetAll_lists_every_item_witness :
  exists items, fst (GetAll shirts_world) = Ok items
                /\ Forall2 (shows (db shirts_world)) (Sqlite.items (db shirts_world)) items
                /\ (Sqlite.items (db shirts_world) = [] -> items = []).
Proof.
  apply (GetAll_lists_every_item shirts_world);
    [exact shirts_world_reachable|reflexivity].
Defined.

(** A failure between two rows ends the loop of [GetAll] like the end of the
    rows: the caller gets the items read so far and no error. *)
Example GetAll_fault_between_rows :
  fst (GetAll (set_faults [None; None; Some "disk I/O error"] shirts_world))
  = Ok [ {| ID := 1; Name := "Blue Shirt"; Category := "Tops"; Image := "a.jpg" |} ].
Proof. vm_compute. reflexivity. Qed.

(** ** The traversal check on examples *)

Example under_root_examples :
  under_root "images" "images/2024/a.jpg"
  /\ ~ under_root "images" "secret.jpg"
  /\ ~ under_root "images" "imagesX/a.jpg".
Proof.
  split; [|split].
  - exists ["2024"; "a.jpg"]. split; [repeat constructor|reflexivity].
  - intros (names & _ & H). vm_compute in H. destruct names; discriminate.
  - intros (names & _ & H). vm_compute in H. destruct names; discriminate.
Qed.

Example buildImagePath_rejects_escape :
  fst (buildImagePath images_handlers "../secret.jpg" fresh_world)
  = ("", Some (Errorf "invalid image path: secret.jpg"))
  /\ fst (buildImagePath images_handlers "a/../../etc/passwd" fresh_world)
     = ("", Some (Errorf "invalid image path: etc/passwd"))
  /\ fst (buildImagePath images_handlers "default.png" fresh_world)
     = ("", Some (Errorf "image path does not end with .jpg or .jpeg: images/default.png")).
Proof. repeat split; vm_compute; reflexivity. Qed.

(** ** [Insert], whatever happens *)

(** Every call of [Insert] either returns an error and leaves the committed
    database as it was, or returns nil and has added exactly one item row,
    with a fresh id, the submitted name and image name, and the id of a
    category row of the submitted category name. *)
Theorem Insert_all_or_nothing item w :
  match Insert item w with
  | (Err _, w') => db w' = db w
  | (Ok _, w') =>
      exists id cid,
        Sqlite.items (db w')
        = Sqlite.items (db w) ++ [{| Sqlite.item_id := id; Sqlite.item_name := Name item;
                                     Sqlite.item_category_id := cid;
                                     Sqlite.item_image_name := Image item |}]
        /\ ~ In id (map Sqlite.item_id (Sqlite.items (db w)))
        /\ In {| Sqlite.cat_id := cid; Sqlite.cat_name := Category item |}
              (Sqlite.categories (db w'))
  end.
Proof.
  destruct (Insert item w) as [[[]|e] w'] eqn:H.
  - apply Insert_step in H as (cid & id & Hrows & Hfresh & Hin & _). eauto.
  - now apply Insert_err_unchanged in H.
Qed.

(** ** A missing image under the directory *)

(** Whether a path is rooted shows on its first element. *)
Lemma rooted_elems p :
  Filepath.rooted p = match Filepath.elems p with
                      | x :: _ => String.eqb x ""
                      | [] => false
                      end.
Proof.
  unfold Filepath.elems.
  destruct (String.eqb_spec p "") as [->|Hp]; [reflexivity|].
  destruct (String.eqb_spec p "/") as [->|Hp']; [reflexivity|].
  destruct p as [|c rest]; [congruence|].
  rewrite split_sep_String. cbn [Filepath.rooted].
  destruct (Ascii.eqb c Filepath.Separator); [reflexivity|].
  destruct (Filepath.split_sep rest); reflexivity.
Qed.

Lemma strip_common_app common ts :
  Filepath.strip_common common (common ++ ts) = ([], ts).
Proof.
  induction common as [|c common IH]; cbn; [reflexivity|].
  now rewrite String.eqb_refl.
Qed.

(** A plain name decides by itself whether what follows it begins with two
    dots. *)
Lemma HasPrefix_plain_append name tail :
  plain name = true ->
  Strings.HasPrefix (name +:+ tail) ".." = Strings.HasPrefix name "..".
Proof.
  unfold Strings.HasPrefix. intros Hplain.
  destruct name as [|a [|b name]].
  - discriminate.
  - rewrite append_String. cbn [String.prefix].
    destruct (ascii_dec "." a) as [<-|]; [discriminate|reflexivity].
  - rewrite !append_String. cbn [String.prefix].
    destruct (ascii_dec "." a); [|reflexivity].
    destruct (ascii_dec "." b); [|reflexivity].
    now rewrite !prefix_empty.
Qed.

(** The other direction of the traversal check: [Rel] accepts a cleaned
    path under the directory unless the first name below the directory
    begins with two dots. *)
Lemma Rel_of_under_root dir y names :
  Forall (fun e => plain e = true) names ->
  Filepath.elems (Filepath.Clean y) = root_elems dir ++ names ->
  Strings.HasPrefix (hd "" names) ".." = false ->
  exists rel, Filepath.Rel dir (Filepath.Clean y) = Some rel
              /\ Strings.HasPrefix rel ".." = false.
Proof.
  intros Hplain Helems Hhd.
  unfold Filepath.Rel. rewrite Clean_idempotent.
  set (p := Filepath.Clean y) in *. set (base := Filepath.Clean dir).
  destruct (p =? base)%string; [exists "."; split; reflexivity|].
  set (base' := if (base =? ".")%string then "" else base).
  assert (Hroot : root_elems dir = Filepath.elems base') by reflexivity.
  assert (Filepath.rooted base' = Filepath.rooted p) as ->.
  { rewrite !rooted_elems, Helems, <- Hroot.
    destruct (root_elems dir) as [|x l]; [|reflexivity].
    destruct Hplain as [|name rest Hname _]; [reflexivity|].
    apply plain_not_special in Hname. cbn [app].
    symmetry. apply String.eqb_neq. tauto. }
  rewrite Bool.eqb_reflx. cbn [negb].
  rewrite Helems, <- Hroot, strip_common_app.
  eexists. split; [reflexivity|].
  destruct Hplain as [|name rest Hname _]; [reflexivity|].
  destruct (join_sep_head name rest) as (tail & ->).
  now rewrite HasPrefix_plain_append.
Qed.

(** A file name whose cleaned path lies under the image directory, with a
    first name below the directory that does not begin with two dots, and
    ends in an accepted suffix: when no file is behind it, [buildImagePath]
    returns the path together with [errImageNotFound], and [GetImage]
    serves the default image of the directory instead of an error. *)
Theorem GetImage_missing_file_serves_default s fileName w names :
  let imgPath := Filepath.Join (imgDirPath s) (Filepath.Clean fileName) in
  Forall (fun e => plain e = true) names ->
  Filepath.elems imgPath = root_elems (imgDirPath s) ++ names ->
  Strings.HasPrefix (hd "" names) ".." = false ->
  accepted_suffix imgPath = true ->
  fs w !! imgPath = None ->
  fst (buildImagePath s fileName w) = (imgPath, Some errImageNotFound)
  /\ (fileName <> "" ->
      fst (GetImage s fileName w)
      = ServeFile (Filepath.Join (imgDirPath s) "default.jpg")).
Proof.
  cbv zeta. intros Hplain Helems Hhd Hsuffix Hnone.
  destruct (Join_is_Clean (imgDirPath s) (Filepath.Clean fileName)
              (Clean_not_empty fileName)) as (y & Hy).
  assert (fst (buildImagePath s fileName w)
          = (Filepath.Join (imgDirPath s) (Filepath.Clean fileName),
             Some errImageNotFound)) as Hbuild.
  { unfold buildImagePath. rewrite Hy in Helems |- *.
    destruct (Rel_of_under_root _ _ _ Hplain Helems Hhd) as (rel & -> & ->).
    rewrite <- Hy. unfold accepted_suffix in Hsuffix.
    apply orb_prop in Hsuffix.
    replace (negb (Strings.HasSuffix _ ".jpg") && negb (Strings.HasSuffix _ ".jpeg"))
      with false by (destruct Hsuffix as [-> | ->]; cbn;
                     [reflexivity|now rewrite andb_false_r]).
    unfold Stat, bind, call.
    destruct (faults w) as [|[msg|] rest]; cbn; rewrite ?Hnone; reflexivity. }
  split; [exact Hbuild|]. intros Hname.
  unfold GetImage, parseGetImageRequest.
  apply String.eqb_neq in Hname. rewrite Hname.
  destruct (buildImagePath s fileName w) as [[p e] w']. cbn in Hbuild.
  injection Hbuild as -> ->. reflexivity.
Qed.

(** A well-formed name that was never stored. *)
Lemma GetImage_missing_file_serves_default_witness :
  fst (buildImagePath images_handlers "nothere.jpg" fresh_world)
  = ("images/nothere.jpg", Some errImageNotFound)
  /\ fst (GetImage images_handlers "nothere.jpg" fresh_world)
     = ServeFile "images/default.jpg".
Proof.
  destruct (GetImage_missing_file_serves_default images_handlers "nothere.jpg"
              fresh_world ["nothere.jpg"]) as [Hbuild Hserve];
    try (vm_compute; reflexivity).
  - repeat constructor.
  - split; [exact Hbuild|]. apply Hserve. discriminate.
Defined.

(** ** The catalog, row by row *)

Lemma find_by_id c cats :
  NoDup (map Sqlite.cat_id cats) -> In c cats ->
  List.find (fun c' => Sqlite.cat_id c' =? Sqlite.cat_id c) cats = Some c.
Proof.
  induction cats as [|x cats IH]; cbn; [tauto|].
  intros Hnd Hin. inversion Hnd as [|? ? Hx Hnd']; subst.
  destruct (Z.eqb_spec (Sqlite.cat_id x) (Sqlite.cat_id c)) as [Heq|Hne].
  - destruct Hin as [->|Hin]; [reflexivity|].
    exfalso. apply Hx. rewrite Heq. apply list_elem_of_In. now apply in_map.
  - destruct Hin as [->|Hin]; [congruence|]. now apply IH.
Qed.

(** In a database that keeps its promises the join gives every selected
    item row once, with the name of its category. *)
Lemma select_items_shown d where_ :
  schema_ok d -> references_ok d ->
  map item_of_row (Sqlite.select_items where_ d)
  = map (shown d) (List.filter where_ (Sqlite.items d)).
Proof.
  intros Hschema Href. unfold Sqlite.select_items.
  assert (forall it, In it (List.filter where_ (Sqlite.items d)) ->
                     In it (Sqlite.items d)) as Hsub
    by (intros it Hit; now apply List.filter_In in Hit).
  induction (List.filter where_ (Sqlite.items d)) as [|it l IH]; [reflexivity|].
  cbn [flat_map map]. rewrite map_app, IH by (intros; apply Hsub; now right).
  destruct (join_item_single d it Hschema Href) as (c & Hc & Hid & ->);
    [apply Hsub; now left|].
  cbn. f_equal. unfold shown, item_of_row, category_name_of. cbn.
  rewrite <- Hid, find_by_id; [reflexivity| |exact Hc].
  now destruct Hschema.
Qed.

Lemma GetAll_no_faults w :
  reachable (db w) -> no_faults w = true ->
  fst (GetAll w) = Ok (map (shown (db w)) (Sqlite.items (db w))).
Proof.
  intros Hreach Hok. apply reachable_consistent in Hreach as [Hschema Href].
  unfold GetAll. rewrite query_rows_no_faults by exact Hok.
  rewrite select_items_shown by assumption.
  f_equal. f_equal. induction (Sqlite.items (db w)) as [|x l IH]; cbn; congruence.
Qed.

Lemma response_Items_spec items :
  fold_left (fun acc item => append_slice acc (item_json item)) items None
  = match items with
    | [] => None
    | _ => Some (map item_json items)
    end.
Proof.
  assert (forall l acc,
            fold_left (fun acc item => append_slice acc (item_json item)) l (Some acc)
            = Some (acc ++ map item_json l)) as Hsome.
  { induction l as [|x l IH]; intros acc; cbn [fold_left map];
      [now rewrite app_nil_r|].
    change (append_slice (Some acc) (item_json x)) with (Some (acc ++ [item_json x])).
    now rewrite IH, <- app_assoc. }
  destruct items as [|x l]; [reflexivity|].
  cbn [fold_left].
  change (append_slice None (item_json x)) with (Some [item_json x]).
  now rewrite Hsome.
Qed.

(** [GetItems] on a catalog made by [Insert]s. When no call of the driver
    fails, the answer is one JSON object whose member [items] holds every
    item in storage order, each with the name of its category; for the
    empty catalog that member is [null], not an empty array, since nothing
    was appended to the nil slice. When the query fails the answer is the
    driver's message with status 500 and nothing else. *)
Theorem Handlers_GetItems_answers w :
  reachable (db w) ->
  (no_faults w = true ->
   fst (Handlers.GetItems w)
   = json_answer EncodeJSON
       (JObject [("items",
                  match Sqlite.items (db w) with
                  | [] => JNull
                  | rows => JArray (map (fun it => item_json (shown (db w) it)) rows)
                  end)]))
  /\ (forall msg rest, faults w = Some msg :: rest ->
      fst (Handlers.GetItems w) = ([SendError msg 500], Returned)).
Proof.
  intros Hreach. split.
  - intros Hok. pose proof (GetAll_no_faults w Hreach Hok) as Hall.
    unfold Handlers.GetItems. destruct (GetAll w) as [r w']. cbn in Hall. subst r.
    rewrite response_Items_spec. unfold json_answer. cbn [fst].
    destruct (Sqlite.items (db w)) as [|x l]; [reflexivity|].
    cbn [map slice_json]. now rewrite map_map.
  - intros msg rest Hf. unfold Handlers.GetItems, GetAll, query_rows, bind, call.
    rewrite Hf. reflexivity.
Qed.

(** The empty catalog and the catalog of three items. *)
Lemma Handlers_GetItems_answers_witness :
  fst (Handlers.GetItems fresh_world)
  = json_answer EncodeJSON (JObject [("items", JNull)])
  /\ fst (Handlers.GetItems shirts_world)
     = json_answer EncodeJSON
         (JObject [("items",
            JArray (map item_json
              [ {| ID := 1; Name := "Blue Shirt"; Category := "Tops"; Image := "a.jpg" |};
                {| ID := 2; Name := "Shirt"; Category := "Tops"; Image := "b.jpg" |};
                {| ID := 3; Name := "Pants"; Category := "Bottoms"; Image := "c.jpg" |} ]))]).
Proof.
  split.
  - destruct (Handlers_GetItems_answers fresh_world reachable_empty) as [H _].
    exact (H eq_refl).
  - destruct (Handlers_GetItems_answers shirts_world shirts_world_reachable) as [H _].
    exact (H eq_refl).
Defined.

(** ** Reading never writes, and the loop over the rows never fails *)

Lemma query_row_frame {A} (q : Sqlite.DB -> list A) w :
  db (snd (query_row q w)) = db w /\ tx (snd (query_row q w)) = tx w
  /\ fs (snd (query_row q w)) = fs w.
Proof.
  unfold query_row, bind.
  destruct (call SqliteError w) as [[[]|e] w1] eqn:Hc;
    apply call_frame in Hc; exact Hc.
Qed.

Lemma next_rows_spec {A} (rows : list A) w :
  (exists n, fst (next_rows rows w) = firstn n rows)
  /\ db (snd (next_rows rows w)) = db w /\ tx (snd (next_rows rows w)) = tx w
  /\ fs (snd (next_rows rows w)) = fs w.
Proof.
  revert w. induction rows as [|r rows IH]; intros w; cbn [next_rows];
    destruct (call SqliteError w) as [[[]|e] w1] eqn:Hc; apply call_frame in Hc;
    cbn [fst snd]; try (split; [now exists 0%nat|exact Hc]).
  destruct (IH w1) as ((n & Hn) & Hd & Ht & Hf).
  destruct (next_rows rows w1) as [got w2]. cbn [fst snd] in *.
  split; [exists (S n); cbn; congruence|].
  destruct Hc as (? & ? & ?). repeat split; congruence.
Qed.

Lemma query_rows_frame {A} (q : Sqlite.DB -> list A) w :
  db (snd (query_rows q w)) = db w /\ tx (snd (query_rows q w)) = tx w
  /\ fs (snd (query_rows q w)) = fs w.
Proof.
  unfold query_rows, bind.
  destruct (call SqliteError w) as [[[]|e] w1] eqn:Hc; apply call_frame in Hc;
    [|exact Hc].
  destruct (next_rows_spec (q (db w1)) w1) as (_ & Hd & Ht & Hf).
  destruct (next_rows (q (db w1)) w1) as [got w2]. cbn [fst snd] in *.
  destruct Hc as (? & ? & ?). repeat split; congruence.
Qed.

(** What a query with its loop returns: the error of the query itself, or
    the rows up to the first [rows.Next()] that fails, as if they were all. *)
Lemma query_rows_cases {A} (q : Sqlite.DB -> list A) w :
  match fst (query_rows q w) with
  | Ok got => next_call_ok w = true /\ exists n, got = firstn n (q (db w))
  | Err e => exists msg rest, faults w = Some msg :: rest /\ e = SqliteError msg
  end.
Proof.
  unfold query_rows, bind, next_call_ok.
  destruct (call SqliteError w) as [[[]|e] w1] eqn:Hc.
  - pose proof (call_frame _ _ _ _ Hc) as (Hd & _ & _).
    destruct (next_rows_spec (q (db w1)) w1) as ((n & Hn) & _).
    destruct (next_rows (q (db w1)) w1) as [got w2]. cbn [fst] in *.
    split; [|exists n; congruence].
    unfold call in Hc. destruct (faults w) as [|[msg|] rest]; [reflexivity|discriminate|reflexivity].
  - cbn [fst]. unfold call in Hc.
    destruct (faults w) as [|[msg|] rest]; [discriminate| |discriminate].
    injection Hc as <- _. eauto.
Qed.

Lemma next_rows_fault_at {A} (rows : list A) n msg rest w :
  (n <= length rows)%nat ->
  faults w = repeat None n ++ Some msg :: rest ->
  fst (next_rows rows w) = firstn n rows.
Proof.
  revert n w. induction rows as [|r rows IH]; intros n w Hn Hf; cbn [next_rows].
  - assert (n = 0%nat) as -> by (cbn in Hn; lia). cbn in Hf.
    unfold call. rewrite Hf. reflexivity.
  - destruct n as [|n]; cbn [repeat app] in Hf; unfold call; rewrite Hf; [reflexivity|].
    specialize (IH n (set_faults (repeat None n ++ Some msg :: rest) w)).
    destruct (next_rows rows _) as [got w2]. cbn [fst firstn] in *.
    f_equal. apply IH; [cbn in Hn; lia|reflexivity].
Qed.

(** [GetAll] and [SearchItemsByKeyword] return an error only when the query
    itself fails. Once the query has started, a failure of the driver
    between two rows ends the loop like the end of the rows ([rows.Err()]
    is never read): the caller gets the rows read so far, in order, and no
    error. So what comes back is the beginning of what would have come
    back had no call failed, and for [GetAll] every such beginning can
    come back that way. *)
Theorem rows_error_is_swallowed keyword w :
  let beginning (whole : result (list Item)) (r : result (list Item)) :=
    match r with
    | Ok items =>
        next_call_ok w = true /\ exists n rows, whole = Ok rows /\ items = firstn n rows
    | Err e => exists msg rest, faults w = Some msg :: rest /\ e = SqliteError msg
    end in
  let all := map item_of_row (Sqlite.select_items (fun _ => true) (db w)) in
  fst (GetAll (set_faults [] w)) = Ok all
  /\ beginning (Ok all) (fst (GetAll w))
  /\ beginning (fst (SearchItemsByKeyword keyword (set_faults [] w)))
       (fst (SearchItemsByKeyword keyword w))
  /\ forall n msg, (n <= length all)%nat ->
       fst (GetAll (set_faults (repeat None (S n) ++ [Some msg]) w))
       = Ok (firstn n all).
Proof.
  cbv zeta.
  split; [unfold GetAll; now rewrite query_rows_no_faults by reflexivity|].
  split; [|split].
  - pose proof (query_rows_cases
                  (fun d => map item_of_row (Sqlite.select_items (fun _ => true) d)) w)
      as H.
    fold GetAll in H. destruct (fst (GetAll w)) as [items|e]; [|exact H].
    destruct H as (Hok & n & ->). eauto.
  - pose proof (query_rows_cases
                  (fun d => map item_of_row
                              (Sqlite.select_like ("%" +:+ keyword +:+ "%") d)) w) as H.
    fold (SearchItemsByKeyword keyword) in H.
    destruct (fst (SearchItemsByKeyword keyword w)) as [items|e]; [|exact H].
    destruct H as (Hok & n & ->). split; [exact Hok|]. exists n. eexists.
    split; [|reflexivity].
    unfold SearchItemsByKeyword. now rewrite query_rows_no_faults by reflexivity.
  - intros n msg Hn. unfold GetAll, query_rows, bind, call. cbn [faults set_faults repeat app].
    set (w1 := set_faults _ (set_faults _ w)).
    pose proof (next_rows_fault_at
                  (map item_of_row (Sqlite.select_items (fun _ => true) (db w1)))
                  n msg [] w1 Hn eq_refl) as Hrows.
    destruct (next_rows _ w1) as [got w2]. cbn [fst] in *. now subst got.
Qed.

(** A disk that fails after the first of three rows. *)
Lemma rows_error_is_swallowed_witness :
  fst (GetAll (set_faults [None; None; Some "disk I/O error"] shirts_world))
  = Ok [ {| ID := 1; Name := "Blue Shirt"; Category := "Tops"; Image := "a.jpg" |} ].
Proof.
  destruct (rows_error_is_swallowed "" shirts_world) as (_ & _ & _ & H).
  apply (H 1%nat "disk I/O error"). vm_compute. lia.
Defined.

(** ** The handlers of the catalog *)

Section HandlerFacts.

Variable text_to_integer : string -> option Z.

Lemma GetItemById_missing item_id w :
  next_call_ok w = true ->
  List.filter (id_equals text_to_integer item_id) (Sqlite.items (db w)) = [] ->
  fst (GetItemById text_to_integer item_id w) = Err errItemNotFound.
Proof.
  intros Hok Hnone. unfold GetItemById, catch.
  pose proof (query_row_ok (fun d => map item_of_row
                (Sqlite.select_items (id_equals text_to_integer item_id) d)) w Hok) as Hq.
  destruct (query_row _ w) as [r w1]. cbn in Hq. subst r.
  unfold Sqlite.select_items. rewrite Hnone. reflexivity.
Qed.

Lemma GetItemById_found item_id w it rest :
  next_call_ok w = true -> reachable (db w) ->
  List.filter (id_equals text_to_integer item_id) (Sqlite.items (db w)) = it :: rest ->
  fst (GetItemById text_to_integer item_id w) = Ok (shown (db w) it).
Proof.
  intros Hok Hreach Hsome. apply reachable_consistent in Hreach as [Hschema Href].
  unfold GetItemById, catch.
  pose proof (query_row_ok (fun d => map item_of_row
                (Sqlite.select_items (id_equals text_to_integer item_id) d)) w Hok) as Hq.
  destruct (query_row _ w) as [r w1]. cbn in Hq. subst r.
  rewrite select_items_shown, Hsome by assumption. reflexivity.
Qed.

Lemma GetItemById_fault item_id w msg rest :
  faults w = Some msg :: rest ->
  fst (GetItemById text_to_integer item_id w) = Err (SqliteError msg).
Proof.
  intros Hf. unfold GetItemById, catch.
  pose proof (query_row_fault (fun d => map item_of_row
                (Sqlite.select_items (id_equals text_to_integer item_id) d)) w _ _ Hf) as Hq.
  destruct (query_row _ w) as [r w1]. cbn in Hq. subst r. reflexivity.
Qed.

(** The handler [GetItemById]. Without an id it reports status 400 and
    then panics on the nil request, before the repository is asked. With
    an id, on a catalog made by [Insert]s and a query that runs: the answer
    has status 404 exactly when no item has that id, and otherwise is the
    JSON object of the first item of that id with the name of its category.
    When the query fails, the driver's message goes out with status 400
    and, with no return after it, the JSON object of the zero item
    follows in the same body. *)
Theorem Handlers_GetItemById_answers w :
  Handlers.GetItemById text_to_integer "" w
  = (([SendError "id is required" 400], Panicked), w)
  /\ forall item_id, item_id <> "" ->
       let answer := fst (Handlers.GetItemById text_to_integer item_id w) in
       let found := List.filter (id_equals text_to_integer item_id) (Sqlite.items (db w)) in
       (next_call_ok w = true -> reachable (db w) ->
        match found with
        | [] => answer = ([SendError "item not found" 404], Returned)
        | it :: _ => answer = json_answer WriteBody (item_json (shown (db w) it))
        end
        /\ (status_code (fst answer) = 404 <-> found = []))
       /\ (forall msg rest, faults w = Some msg :: rest ->
           answer = ([SendError msg 400;
                      SetHeader "Content-Type" "application/json";
                      WriteBody (item_json zero_Item)], Returned)
           /\ documents (fst answer)
              = [JObject [("id", JNumber 0); ("name", JString "");
                          ("category", JString ""); ("image_name", JString "")]]).
Proof.
  split; [reflexivity|]. intros item_id Hid. cbv zeta.
  unfold Handlers.GetItemById, parseGetItemByIdRequest.
  apply String.eqb_neq in Hid. rewrite Hid. split.
  - intros Hok Hreach.
    destruct (List.filter _ (Sqlite.items (db w))) as [|it rest] eqn:Hfound.
    + pose proof (GetItemById_missing item_id w Hok Hfound) as Hget.
      destruct (GetItemById text_to_integer item_id w) as [r w']. cbn in Hget. subst r.
      cbn. split; [reflexivity|]. split; reflexivity.
    + pose proof (GetItemById_found item_id w it rest Hok Hreach Hfound) as Hget.
      destruct (GetItemById text_to_integer item_id w) as [r w']. cbn in Hget. subst r.
      cbn. split; [reflexivity|]. split; discriminate.
  - intros msg rest Hf.
    pose proof (GetItemById_fault item_id w msg rest Hf) as Hget.
    destruct (GetItemById text_to_integer item_id w) as [r w']. cbn in Hget. subst r.
    split; reflexivity.
Qed.

End HandlerFacts.

(** The handler on the catalog of three items: the second item, an id that
    is no number, and a query that fails. *)
Lemma Handlers_GetItemById_answers_witness :
  fst (Handlers.GetItemById decimal_text "2" shirts_world)
  = json_answer WriteBody
      (item_json {| ID := 2; Name := "Shirt"; Category := "Tops"; Image := "b.jpg" |})
  /\ fst (Handlers.GetItemById decimal_text "abc" shirts_world)
     = ([SendError "item not found" 404], Returned)
  /\ status_code
       (fst (fst (Handlers.GetItemById decimal_text "2"
                    (set_faults [Some "disk I/O error"] shirts_world)))) = 400.
Proof.
  split; [|split].
  - destruct (Handlers_GetItemById_answers decimal_text shirts_world) as [_ H].
    destruct (H "2") as [H2 _]; [discriminate|].
    destruct (H2 eq_refl shirts_world_reachable) as [Hfound _]. exact Hfound.
  - destruct (Handlers_GetItemById_answers decimal_text shirts_world) as [_ H].
    destruct (H "abc") as [H2 _]; [discriminate|].
    destruct (H2 eq_refl shirts_world_reachable) as [Hfound _]. exact Hfound.
  - destruct (Handlers_GetItemById_answers decimal_text
                (set_faults [Some "disk I/O error"] shirts_world)) as [_ H].
    destruct (H "2") as [_ H2]; [discriminate|].
    destruct (H2 "disk I/O error" [] eq_refl) as [-> _]. reflexivity.
Defined.

(** The handler [SearchItemsByKeyword]. Without a keyword it reports status
    400 and does not ask the repository. With one, the status is 200 or
    400 and never 404, and the last thing written is a JSON array, never
    [null]: all the items the repository finds when no call of the driver
    fails, the items read before a failure between two rows, and, after
    the driver's message with status 400 when the query itself fails, the
    empty array. *)
Theorem Handlers_SearchItemsByKeyword_answers w :
  Handlers.SearchItemsByKeyword "" w
  = (([SendError "keyword is required" 400], Returned), w)
  /\ forall keyword, keyword <> "" ->
       let answer := fst (Handlers.SearchItemsByKeyword keyword w) in
       exists matching,
         fst (SearchItemsByKeyword keyword (set_faults [] w)) = Ok matching
         /\ (no_faults w = true ->
             fst (SearchItemsByKeyword keyword w) = Ok matching
             /\ answer = json_answer WriteBody (JArray (map item_json matching)))
         /\ (next_call_ok w = true ->
             exists n, answer
                       = json_answer WriteBody (JArray (map item_json (firstn n matching))))
         /\ (forall msg rest, faults w = Some msg :: rest ->
             answer = ([SendError msg 400;
                        SetHeader "Content-Type" "application/json";
                        WriteBody (JArray [])], Returned))
         /\ (status_code (fst answer) = 200 \/ status_code (fst answer) = 400)
         /\ exists items, documents (fst answer) = [JArray items].
Proof.
  split; [reflexivity|]. intros keyword Hkw. cbv zeta.
  exists (map item_of_row (Sqlite.select_like ("%" +:+ keyword +:+ "%") (db w))).
  split; [unfold SearchItemsByKeyword; now rewrite query_rows_no_faults by reflexivity|].
  unfold Handlers.SearchItemsByKeyword, parseGetItemByKeywordRequest.
  apply String.eqb_neq in Hkw. rewrite Hkw.
  pose proof (query_rows_cases
                (fun d => map item_of_row
                            (Sqlite.select_like ("%" +:+ keyword +:+ "%") d)) w) as Hcases.
  pose proof (query_rows_no_faults
                (fun d => map item_of_row
                            (Sqlite.select_like ("%" +:+ keyword +:+ "%") d)) w) as Hall.
  fold (SearchItemsByKeyword keyword) in Hcases, Hall.
  destruct (SearchItemsByKeyword keyword w) as [[items|e] w']; unfold fst in *.
  - destruct Hcases as (Hok & n & Hitems). subst items.
    unfold json_answer.
    split; [intros Hnf; specialize (Hall Hnf); split; congruence|].
    split; [intros _; exists n; reflexivity|].
    split; [intros msg rest Hf; unfold next_call_ok in Hok; rewrite Hf in Hok; discriminate|].
    split; [left; reflexivity|]. eexists. reflexivity.
  - destruct Hcases as (msg & rest & Hf & He). subst e.
    change (is_errItemNotFound (SqliteError msg)) with false. cbv iota.
    change (Error (SqliteError msg)) with msg.
    split; [intros Hnf; specialize (Hall Hnf); discriminate|].
    split; [intros Hok; unfold next_call_ok in Hok; rewrite Hf in Hok; discriminate|].
    split; [intros msg' rest' Hf'; rewrite Hf in Hf'; injection Hf' as -> _; reflexivity|].
    split; [right; reflexivity|]. eexists. reflexivity.
Qed.

(** The search on the catalog of three items, with and without a match. *)
Lemma Handlers_SearchItemsByKeyword_answers_witness :
  fst (Handlers.SearchItemsByKeyword "shirt" shirts_world)
  = json_answer WriteBody
      (JArray (map item_json
         [ {| ID := 1; Name := "Blue Shirt"; Category := "Tops"; Image := "a.jpg" |};
           {| ID := 2; Name := "Shirt"; Category := "Tops"; Image := "b.jpg" |} ]))
  /\ fst (Handlers.SearchItemsByKeyword "zzz" shirts_world)
     = json_answer WriteBody (JArray []).
Proof.
  destruct (Handlers_SearchItemsByKeyword_answers shirts_world) as [_ H].
  split.
  - destruct (H "shirt") as (matching & Hfound & Hall & _); [discriminate|].
    destruct (Hall eq_refl) as [_ ->].
    vm_compute in Hfound. injection Hfound as <-. reflexivity.
  - destruct (H "zzz") as (matching & Hfound & Hall & _); [discriminate|].
    destruct (Hall eq_refl) as [_ ->].
    vm_compute in Hfound. injection Hfound as <-. reflexivity.
Defined.

Lemma Stat_untouched name w : untouched w (snd (Stat name w)).
Proof.
  unfold Stat, bind, untouched.
  destruct (call PathError w) as [[[]|e] w1] eqn:Hc; apply call_frame in Hc;
    [|exact Hc].
  destruct (fs w1 !! name); exact Hc.
Qed.

(** The handlers of the GET routes only read: whatever they answer, and
    whatever fails on the way, the database, the open transaction and the
    files are afterwards what they were. *)
Theorem GET_handlers_read_only w :
  untouched w (snd (Handlers.Hello w))
  /\ untouched w (snd (Handlers.GetItems w))
  /\ (forall text_to_integer item_id,
        untouched w (snd (Handlers.GetItemById text_to_integer item_id w)))
  /\ (forall keyword, untouched w (snd (Handlers.SearchItemsByKeyword keyword w)))
  /\ (forall s fileName, untouched w (snd (GetImage s fileName w))).
Proof.
  split; [now unfold untouched|]. split; [|split; [|split]].
  - unfold Handlers.GetItems.
    pose proof (query_rows_frame
                  (fun d => map item_of_row (Sqlite.select_items (fun _ => true) d)) w) as H.
    fold GetAll in H. destruct (GetAll w) as [[items|e] w']; exact H.
  - intros text_to_integer item_id. unfold Handlers.GetItemById.
    destruct (parseGetItemByIdRequest item_id) as [req|e]; [|now unfold untouched].
    pose proof (query_row_frame
                  (fun d => map item_of_row
                              (Sqlite.select_items (id_equals text_to_integer req) d)) w) as H.
    unfold GetItemById, catch.
    destruct (query_row _ w) as [[item|e] w']; cbn [snd] in H.
    + exact H.
    + destruct (is_ErrNoRows e); cbn; [exact H|].
      destruct (is_errItemNotFound e); exact H.
  - intros keyword. unfold Handlers.SearchItemsByKeyword.
    destruct (parseGetItemByKeywordRequest keyword) as [req|e]; [|now unfold untouched].
    pose proof (query_rows_frame
                  (fun d => map item_of_row
                              (Sqlite.select_like ("%" +:+ req +:+ "%") d)) w) as H.
    fold (SearchItemsByKeyword req) in H.
    destruct (SearchItemsByKeyword req w) as [[items|e] w']; [exact H|].
    destruct (is_errItemNotFound e); exact H.
  - intros s fileName. unfold GetImage.
    destruct (parseGetImageRequest fileName) as [req|e]; [|now unfold untouched].
    assert (untouched w (snd (buildImagePath s req w))) as H.
    { unfold buildImagePath.
      destruct (Filepath.Rel _ _) as [rel|]; [|now unfold untouched].
      destruct (Strings.HasPrefix rel ".."); [now unfold untouched|].
      destruct (negb _ && negb _); [now unfold untouched|].
      pose proof (Stat_untouched
                    (Filepath.Join (imgDirPath s) (Filepath.Clean req)) w) as HS.
      destruct (Stat _ w) as [[[]|e] w']; exact HS. }
    destruct (buildImagePath s req w) as [[imgPath [err|]] w']; [|exact H].
    destruct (negb (is_errImageNotFound err)); exact H.
Qed.

(** ** The search inside the listing *)

Lemma filter_join_item d it (keep : string -> bool) :
  List.filter (fun item => keep (Name item)) (map item_of_row (Sqlite.join_item d it))
  = if keep (Sqlite.item_name it) then map item_of_row (Sqlite.join_item d it) else [].
Proof.
  unfold Sqlite.join_item.
  induction (List.filter _ (Sqlite.categories d)) as [|c l IH];
    [now destruct (keep _)|].
  cbn [map List.filter item_of_row Name Sqlite.j_name]. rewrite IH.
  now destruct (keep (Sqlite.item_name it)).
Qed.

Lemma select_items_filter d (keep : string -> bool) :
  map item_of_row (Sqlite.select_items (fun it => keep (Sqlite.item_name it)) d)
  = List.filter (fun item => keep (Name item))
      (map item_of_row (Sqlite.select_items (fun _ => true) d)).
Proof.
  unfold Sqlite.select_items.
  induction (Sqlite.items d) as [|it l IH]; [reflexivity|].
  cbn [List.filter flat_map]. rewrite map_app, List.filter_app, <- IH, filter_join_item.
  destruct (keep (Sqlite.item_name it)); [|reflexivity].
  cbn [flat_map]. now rewrite map_app.
Qed.

Lemma filter_all {A} (p : A -> bool) (l : list A) :
  (forall x, p x = true) -> List.filter p l = l.
Proof.
  intros H. induction l as [|x l IH]; cbn; [reflexivity|]. now rewrite H, IH.
Qed.

Lemma filter_sublist {A} (p : A -> bool) (l : list A) : sublist (List.filter p l) l.
Proof.
  induction l as [|x l IH]; [constructor|]. cbn.
  destruct (p x); now constructor.
Qed.

Lemma like_every_name s : Sqlite.like "%%" s = true.
Proof. unfold Sqlite.like. change (Sqlite.chars "%%") with [37; 37]. reflexivity. Qed.

(** What [SearchItemsByKeyword] finds is part of what [GetAll] lists, in
    the same order, whatever the keyword. The empty keyword, which the
    repository does not refuse, finds the whole listing. A keyword of more
    than 49998 bytes finds nothing, and no error tells so: the engine
    refuses the pattern inside [rows.Next()], whose error is not read. *)
Theorem SearchItemsByKeyword_filters_GetAll keyword w :
  no_faults w = true ->
  exists all found,
    fst (GetAll w) = Ok all
    /\ fst (SearchItemsByKeyword keyword w) = Ok found
    /\ sublist found all
    /\ fst (SearchItemsByKeyword "" w) = Ok all
    /\ (49998 < Z.of_nat (String.length keyword) -> found = []).
Proof.
  intros Hok. do 2 eexists. unfold GetAll, SearchItemsByKeyword.
  rewrite !query_rows_no_faults by exact Hok.
  split; [reflexivity|]. split; [reflexivity|]. split; [|split].
  - unfold Sqlite.select_like. destruct (_ <? _); [apply sublist_nil_l|].
    rewrite (select_items_filter (db w)
               (fun name => Sqlite.like ("%" +:+ keyword +:+ "%") name)).
    apply filter_sublist.
  - apply f_equal. rewrite (select_like_keyword "") by (cbn; lia).
    rewrite (select_items_filter (db w) (fun name => Sqlite.like ("%" +:+ "" +:+ "%") name)).
    apply filter_all. intros item. apply like_every_name.
  - intros Hlong. unfold Sqlite.select_like, Sqlite.SQLITE_MAX_LIKE_PATTERN_LENGTH.
    change ("%" +:+ keyword +:+ "%") with (String "%" (keyword +:+ "%")).
    cbn [String.length]. rewrite length_append. cbn [String.length].
    destruct (Z.ltb_spec 50000 (Z.of_nat (S (String.length keyword + 1)))); [reflexivity|lia].
Qed.

(** The search in the catalog of three items. *)
Lemma SearchItemsByKeyword_filters_GetAll_witness :
  exists all found,
    fst (GetAll shirts_world) = Ok all
    /\ fst (SearchItemsByKeyword "pa" shirts_world) = Ok found
    /\ sublist found all
    /\ fst (SearchItemsByKeyword "" shirts_world) = Ok all
    /\ (49998 < Z.of_nat (String.length "pa") -> found = []).
Proof.
  apply (SearchItemsByKeyword_filters_GetAll "pa" shirts_world). reflexivity.
Defined.

(** ** Ids in the order of the inserts *)

Lemma insert_item_larger name cid image d d2 :
  Sqlite.insert_item name cid image d = Sqlite.Done d2 ->
  exists id, item_ids d2 = item_ids d ++ [id]
             /\ Forall (fun old => old < id) (item_ids d)
             /\ Sqlite.items_seq d < id
             /\ Sqlite.items_seq d2 = id
             /\ id = fold_right Z.max (Sqlite.items_seq d) (item_ids d) + 1.
Proof.
  unfold Sqlite.insert_item, Sqlite.next_rowid, item_ids.
  destruct (_ <? Sqlite.max_rowid); [|discriminate]. intros [= <-]. cbn.
  exists (fold_right Z.max (Sqlite.items_seq d) (map Sqlite.item_id (Sqlite.items d)) + 1).
  split; [now rewrite map_app|]. split; [|split; [|split; reflexivity]].
  - apply Forall_forall. intros x Hx. apply list_elem_of_In in Hx.
    pose proof (fold_max_ge _ (Sqlite.items_seq d) x Hx). lia.
  - assert (forall l, Sqlite.items_seq d <= fold_right Z.max (Sqlite.items_seq d) l) as H
      by (induction l; cbn; lia).
    specialize (H (map Sqlite.item_id (Sqlite.items d))). lia.
Qed.

Lemma category_resolved_items name d cid d1 :
  category_resolved name d cid d1 ->
  item_ids d1 = item_ids d /\ Sqlite.items_seq d1 = Sqlite.items_seq d.
Proof.
  unfold item_ids. intros [cid' _|cid' d1' _ Hins _]; [auto|].
  apply insert_category_Done in Hins as (id & _ & _ & _ & -> & ->). auto.
Qed.

Lemma StronglySorted_snoc (l : list Z) (x : Z) :
  StronglySorted Z.lt l -> Forall (fun old => old < x) l ->
  StronglySorted Z.lt (l ++ [x]).
Proof.
  induction 1 as [|a l Hl IH Ha]; intros Hx; cbn.
  - repeat constructor.
  - inversion Hx as [|? ? Hax Hlx]; subst. constructor; [now apply IH|].
    apply Forall_app. split; [exact Ha|]. now constructor.
Qed.

Lemma Insert_larger_id item w w' :
  Insert item w = (Ok tt, w') ->
  exists id, item_ids (db w') = item_ids (db w) ++ [id]
             /\ Forall (fun old => old < id) (item_ids (db w))
             /\ Sqlite.items_seq (db w) < id
             /\ Sqlite.items_seq (db w') = id
             /\ id = fold_right Z.max (Sqlite.items_seq (db w)) (item_ids (db w)) + 1.
Proof.
  intros H. apply Insert_ok in H as (cid & d1 & Hres & Hins & _).
  apply category_resolved_items in Hres as [Hids Hseq].
  apply insert_item_larger in Hins. now rewrite Hids, Hseq in Hins.
Qed.

Lemma reachable_ids_sorted d :
  reachable d ->
  StronglySorted Z.lt (item_ids d) /\ Forall (fun id => 0 < id) (item_ids d)
  /\ 0 <= Sqlite.items_seq d.
Proof.
  induction 1 as [|w item r w' Hreach IH Hins].
  - cbn. repeat constructor. reflexivity.
  - destruct r as [[]|e].
    + destruct IH as (Hsorted & Hpos & Hseq).
      apply Insert_larger_id in Hins as (id & -> & Hlt & Hid & -> & _).
      split; [now apply StronglySorted_snoc|]. split; [|lia].
      apply Forall_app. split; [exact Hpos|]. constructor; [lia|constructor].
    + apply Insert_err_unchanged in Hins as [-> _]. exact IH.
Qed.

(** In a catalog made by [Insert]s the ids of the items are positive and
    grow in storage order, and every successful [Insert] gives its item an
    id larger than all of them; the first item of an empty catalog gets 1.
    So an id is never used twice, and the order of the ids is the order of
    the inserts. *)
Theorem Insert_ids_increase item w w' :
  reachable (db w) ->
  Insert item w = (Ok tt, w') ->
  exists id,
    item_ids (db w') = item_ids (db w) ++ [id]
    /\ Forall (fun old => 0 < old < id) (item_ids (db w))
    /\ StronglySorted Z.lt (item_ids (db w'))
    /\ (item_ids (db w) = [] -> Sqlite.items_seq (db w) = 0 -> id = 1).
Proof.
  intros Hreach Hins.
  pose proof (reachable_ids_sorted _ Hreach) as (_ & Hpos & _).
  pose proof (reachable_ids_sorted _ (reachable_Insert _ _ _ _ Hreach Hins))
    as (Hsorted & _ & _).
  apply Insert_larger_id in Hins as (id & Hids & Hlt & Hseq & _ & Hid).
  exists id. split; [exact Hids|]. split; [|split; [exact Hsorted|]].
  - rewrite Forall_forall in *. intros x Hx. split; [now apply Hpos|now apply Hlt].
  - intros Hnil Hzero. rewrite Hnil, Hzero in Hid. exact Hid.
Qed.

(** A fourth item after the three of the catalog. *)
Lemma Insert_ids_increase_witness :
  exists id,
    item_ids (db (after (Insert (new_item "Bike" "Sports" "f.jpg")) shirts_world))
    = item_ids (db shirts_world) ++ [id]
    /\ Forall (fun old => 0 < old < id) (item_ids (db shirts_world))
    /\ StronglySorted Z.lt
         (item_ids (db (after (Insert (new_item "Bike" "Sports" "f.jpg")) shirts_world)))
    /\ (item_ids (db shirts_world) = [] -> Sqlite.items_seq (db shirts_world) = 0 -> id = 1).
Proof.
  apply (Insert_ids_increase (new_item "Bike" "Sports" "f.jpg") shirts_world).
  - exact shirts_world_reachable.
  - reflexivity.
Defined.

(** ** What the image store and [AddItem] leave behind *)

Lemma storeImage_cases s image w :
  let path := Filepath.Join (imgDirPath s) (Sha256.hex (Sha256.Sum256 image) +:+ ".jpg") in
  match storeImage s image w with
  | (Ok p, w1) =>
      p = path /\ db w1 = db w /\ tx w1 = tx w
      /\ ((is_Some (fs w !! path) /\ fs w1 = fs w) \/ fs w1 = <[path := image]> (fs w))
  | (Err e, w1) =>
      db w1 = db w /\ tx w1 = tx w
      /\ (exists cause, e = Wrap "failed to write image file" (PathError cause))
      /\ (fs w1 = fs w
          \/ exists n, (n <= length image)%nat
                       /\ fs w1 = <[path := firstn n image]> (fs w))
  end.
Proof.
  cbv zeta. unfold storeImage, Filepath.ToSlash.
  set (p := Filepath.Join (imgDirPath s) (Sha256.hex (Sha256.Sum256 image) +:+ ".jpg")).
  unfold catch, bind, ret, throw.
  pose proof (Stat_untouched p w) as (Hd & Ht & Hf).
  destruct (Stat p w) as [[[]|e] w0] eqn:HS; cbn [snd] in *.
  - apply Stat_ok in HS. auto 6.
  - pose proof (WriteFile_cases p image w0) as HW.
    destruct (WriteFile p image w0) as [[[]|e'] w2].
    + destruct HW as (Hf2 & Hd2 & Ht2).
      split; [reflexivity|]. split; [congruence|]. split; [congruence|].
      right. congruence.
    + destruct HW as (Hd2 & Ht2 & (cause & ->) & Hfs).
      split; [congruence|]. split; [congruence|]. split; [eauto|].
      rewrite <- Hf. exact Hfs.
Qed.

(** [storeImage] changes no file but the one named by the digest, and not
    even that one when [os.Stat] finds it there, whatever it holds. It
    never changes the database. When the write fails, the error is that of
    [os.WriteFile] behind the words "failed to write image file", and the
    file is as before, if it could not be opened, or holds the bytes that
    were written before the failure: a file cut short under the name of
    the digest is not removed. *)
Theorem storeImage_touches_only_digest_file s image w :
  let path := Filepath.Join (imgDirPath s) (Sha256.hex (Sha256.Sum256 image) +:+ ".jpg") in
  let w1 := snd (storeImage s image w) in
  db w1 = db w /\ tx w1 = tx w
  /\ (forall name, name <> path -> fs w1 !! name = fs w !! name)
  /\ (next_call_ok w = true -> is_Some (fs w !! path) ->
      fst (storeImage s image w) = Ok path /\ fs w1 = fs w)
  /\ match fst (storeImage s image w) with
     | Ok p => p = path /\ is_Some (fs w1 !! path)
     | Err e =>
         (exists cause, e = Wrap "failed to write image file" (PathError cause)
                        /\ Error e = "failed to write image file: " +:+ cause)
         /\ (fs w1 = fs w
             \/ exists n, (n <= length image)%nat
                          /\ fs w1 = <[path := firstn n image]> (fs w))
     end.
Proof.
  cbv zeta. pose proof (storeImage_cases s image w) as H. cbv zeta in H.
  set (path := Filepath.Join (imgDirPath s) (Sha256.hex (Sha256.Sum256 image) +:+ ".jpg"))
    in *.
  assert (next_call_ok w = true -> is_Some (fs w !! path) ->
          fst (storeImage s image w) = Ok path
          /\ fs (snd (storeImage s image w)) = fs w) as Hthere.
  { intros Hok Hsome. pose proof (storeImage_found s image w Hok Hsome) as ->.
    auto. }
  destruct (storeImage s image w) as [[p|e] w1]; cbn [fst snd] in *.
  - destruct H as (-> & Hd & Ht & Hfs).
    split; [exact Hd|]. split; [exact Ht|]. split; [|split; [exact Hthere|]].
    + intros name Hne. destruct Hfs as [[_ ->]| ->]; [reflexivity|].
      now rewrite lookup_insert_ne by congruence.
    + split; [reflexivity|]. destruct Hfs as [[Hsome ->]| ->]; [exact Hsome|].
      rewrite lookup_insert_eq. eauto.
  - destruct H as (Hd & Ht & (cause & ->) & Hfs).
    split; [exact Hd|]. split; [exact Ht|]. split; [|split; [exact Hthere|]].
    + intros name Hne. destruct Hfs as [->|(n & _ & ->)]; [reflexivity|].
      now rewrite lookup_insert_ne by congruence.
    + split; [exists cause; split; reflexivity|exact Hfs].
Qed.

(** A file that is already there under the digest's name is kept. A disk
    that is full after the first of three bytes leaves that byte under the
    digest's name, and the next call takes the file for the image. *)
Lemma storeImage_touches_only_digest_file_witness :
  let path := "images/ba7816bf8f01cfea414140de5dae2223b00361a396177a9cb410ff61f20015ad.jpg" in
  let w := set_fs (<[path := bytes_of_string "something else"]> (fs fresh_world))
             fresh_world in
  let full := set_faults [None; None; None; Some "no space left on device"] fresh_world in
  (fst (storeImage images_handlers (bytes_of_string "abc") w) = Ok path
   /\ fs (snd (storeImage images_handlers (bytes_of_string "abc") w)) = fs w)
  /\ fst (storeImage images_handlers (bytes_of_string "abc") full)
     = Err (Wrap "failed to write image file" (PathError "no space left on device"))
  /\ fs (snd (storeImage images_handlers (bytes_of_string "abc") full)) !! path
     = Some (bytes_of_string "a")
  /\ storeImage images_handlers (bytes_of_string "abc")
       (snd (storeImage images_handlers (bytes_of_string "abc") full))
     = (Ok path, snd (storeImage images_handlers (bytes_of_string "abc") full)).
Proof.
  cbv zeta. split.
  - destruct (storeImage_touches_only_digest_file images_handlers (bytes_of_string "abc")
                (set_fs (<["images/ba7816bf8f01cfea414140de5dae2223b00361a396177a9cb410ff61f20015ad.jpg"
                           := bytes_of_string "something else"]> (fs fresh_world))
                   fresh_world)) as (_ & _ & _ & H & _).
    apply H; [reflexivity|vm_compute; eauto].
  - repeat split; vm_compute; reflexivity.
Defined.

(** [parseAddItemRequest] accepts a request exactly when the form was
    parsed, name and category are not empty, and the image is one it takes;
    the accepted request carries that name, category and image. A form
    that is not multipart never carries an image, and the case of the
    letters of the file name's extension does not matter. *)
Theorem parseAddItemRequest_accepts r req :
  parseAddItemRequest r = Ok req
  <-> ParseError r = None /\ FormName r <> "" /\ FormCategory r <> ""
      /\ req_Name req = FormName r /\ req_Category req = FormCategory r
      /\ accepted_image r (req_Image req).
Proof.
  unfold parseAddItemRequest, accepted_image, jpg_name.
  destruct (Strings.HasPrefix (ContentType r) "multipart/form-data");
    destruct (ParseError r) as [msg|];
    try (split; [discriminate|intros (H & _); discriminate]).
  - destruct (FormFile r) as [|msg|filename imageData|filename msg].
    + destruct (String.eqb_spec (FormName r) "") as [Hn|Hn];
        [split; [discriminate|tauto]|].
      destruct (String.eqb_spec (FormCategory r) "") as [Hc|Hc];
        [split; [discriminate|tauto]|].
      split.
      * intros [= <-]. cbn. auto 10.
      * intros (_ & _ & _ & H1 & H2 & [[_ H3]|(f & Hf & _)]); [|discriminate].
        destruct req; cbn in *. congruence.
    + split; [discriminate|].
      intros (_ & _ & _ & _ & _ & [[H _]|(f & Hf & _)]); discriminate.
    + destruct (Strings.HasSuffix (Strings.ToLower filename) ".jpg"
                || Strings.HasSuffix (Strings.ToLower filename) ".jpeg") eqn:Hjpg;
        cbn [negb].
      * destruct imageData as [|b data]; cbn [length Nat.eqb].
        -- split; [discriminate|].
           intros (_ & _ & _ & _ & _ & [[H _]|(f & Hf & Hne & _)]); [discriminate|].
           injection Hf as _ Himg. congruence.
        -- destruct (String.eqb_spec (FormName r) "") as [Hn|Hn];
             [split; [discriminate|tauto]|].
           destruct (String.eqb_spec (FormCategory r) "") as [Hc|Hc];
             [split; [discriminate|tauto]|].
           split.
           ++ intros [= <-]. cbn. repeat (split; [auto; fail|]).
              right. exists filename. split; [reflexivity|]. split; [discriminate|exact Hjpg].
           ++ intros (_ & _ & _ & H1 & H2 & [[H _]|(f & Hf & _)]); [discriminate|].
              injection Hf as _ Himg. destruct req; cbn in *. congruence.
      * split; [discriminate|].
        intros (_ & _ & _ & _ & _ & [[H _]|(f & Hf & _ & Hj)]); [discriminate|].
        injection Hf as Hname _. subst f. congruence.
    + split; [destruct (negb _); discriminate|].
      intros (_ & _ & _ & _ & _ & [[H _]|(f & Hf & _)]); discriminate.
  - destruct (String.eqb_spec (FormName r) "") as [Hn|Hn];
      [split; [discriminate|tauto]|].
    destruct (String.eqb_spec (FormCategory r) "") as [Hc|Hc];
      [split; [discriminate|tauto]|].
    split.
    + intros [= <-]. cbn. auto 10.
    + intros (_ & _ & _ & H1 & H2 & H3). destruct req; cbn in *. congruence.
Qed.

(** A photo with an upper-case extension is taken; a file sent in a form
    that is not multipart is not looked at. *)
Lemma parseAddItemRequest_accepts_witness :
  parseAddItemRequest
    {| ContentType := "multipart/form-data; boundary=x"; ParseError := None;
       FormName := "Bike"; FormCategory := "Sports";
       FormFile := Uploaded "BIKE.JPG" (bytes_of_string "abc") |}
  = Ok {| req_Name := "Bike"; req_Category := "Sports";
          req_Image := bytes_of_string "abc" |}
  /\ parseAddItemRequest
       {| ContentType := "application/x-www-form-urlencoded"; ParseError := None;
          FormName := "Bike"; FormCategory := "Sports";
          FormFile := Uploaded "bike.jpg" (bytes_of_string "abc") |}
     = Ok {| req_Name := "Bike"; req_Category := "Sports"; req_Image := [] |}.
Proof.
  split.
  - apply parseAddItemRequest_accepts. cbn.
    repeat (split; [reflexivity || discriminate|]).
    right. exists "BIKE.JPG". repeat split; discriminate.
  - apply parseAddItemRequest_accepts. cbn.
    repeat (split; [reflexivity || discriminate|]). reflexivity.
Defined.

Lemma parseAddItemRequest_Ok r req :
  parseAddItemRequest r = Ok req ->
  req_Name req = FormName r /\ req_Category req = FormCategory r
  /\ FormName r <> "" /\ FormCategory r <> ""
  /\ (req_Image req <> [] -> exists filename, FormFile r = Uploaded filename (req_Image req)).
Proof.
  assert (forall image,
            (if (FormName r =? "")%string then Err (Errorf "name is required")
             else if (FormCategory r =? "")%string then Err (Errorf "category is required")
             else Ok {| req_Name := FormName r; req_Category := FormCategory r;
                        req_Image := image |}) = Ok req ->
            req_Name req = FormName r /\ req_Category req = FormCategory r
            /\ FormName r <> "" /\ FormCategory r <> "" /\ req_Image req = image) as Hvalidate.
  { intros image.
    destruct (String.eqb_spec (FormName r) ""); [discriminate|].
    destruct (String.eqb_spec (FormCategory r) ""); [discriminate|].
    intros [= <-]. auto. }
  unfold parseAddItemRequest.
  destruct (Strings.HasPrefix (ContentType r) "multipart/form-data");
    destruct (ParseError r) as [msg|]; try discriminate.
  - destruct (FormFile r) as [|msg|filename imageData|filename msg]; try discriminate.
    + intros H. apply Hvalidate in H as (? & ? & ? & ? & ->). tauto.
    + destruct (negb _); [discriminate|].
      destruct (length imageData =? 0)%nat; [discriminate|].
      intros H. apply Hvalidate in H as (? & ? & ? & ? & ->). eauto 10.
    + destruct (negb _); discriminate.
  - intros H. apply Hvalidate in H as (? & ? & ? & ? & ->). tauto.
Qed.

Lemma ReadFile_untouched name w : untouched w (snd (ReadFile name w)).
Proof.
  unfold ReadFile, bind, untouched.
  destruct (call PathError w) as [[[]|e] w1] eqn:Hc; apply call_frame in Hc;
    [|exact Hc].
  destruct (fs w1 !! name); exact Hc.
Qed.

Lemma storeImage_db s image w : db (snd (storeImage s image w)) = db w.
Proof.
  pose proof (storeImage_cases s image w) as H. cbv zeta in H.
  destruct (storeImage s image w) as [[p|e] w1]; cbn [snd]; tauto.
Qed.

(** The image step of [AddItem], whatever the request: it does not change
    the database. *)
Lemma AddItem_stored_db s (req : AddItemRequest) w :
  db (snd ((if (0 <? length (req_Image req))%nat
            then storeImage s (req_Image req) w
            else (let* defaultImage :=
                    ReadFile (Filepath.Join (imgDirPath s) "default.jpg") in
                  storeImage s defaultImage) w)))
  = db w.
Proof.
  destruct (0 <? length (req_Image req))%nat; [apply storeImage_db|].
  unfold bind.
  pose proof (ReadFile_untouched (Filepath.Join (imgDirPath s) "default.jpg") w)
    as (Hd & _).
  destruct (ReadFile _ w) as [[data|e] w0]; cbn [snd] in *; [|exact Hd].
  now rewrite storeImage_db.
Qed.

(** [AddItem] answers in one of two ways. Either with status 500, whatever
    went wrong, a refused form included, and then the catalog is as it was;
    or with the message "item received: " and the name, and then the form
    had a name and a category and exactly one item row was added, with
    that name, under a category row of that category name. *)
Theorem AddItem_outcomes s r w :
  match AddItem s r w with
  | (WriteJSON message, w') =>
      message = "item received: " +:+ FormName r
      /\ FormName r <> "" /\ FormCategory r <> ""
      /\ exists id cid image,
           Sqlite.items (db w')
           = Sqlite.items (db w)
             ++ [{| Sqlite.item_id := id; Sqlite.item_name := FormName r;
                    Sqlite.item_category_id := cid; Sqlite.item_image_name := image |}]
           /\ In {| Sqlite.cat_id := cid; Sqlite.cat_name := FormCategory r |}
                 (Sqlite.categories (db w'))
  | (HttpError _ status, w') => status = 500 /\ db w' = db w
  | (ServeFile _, _) => False
  end.
Proof.
  unfold AddItem.
  destruct (parseAddItemRequest r) as [req|e] eqn:Hparse; [|auto].
  apply parseAddItemRequest_Ok in Hparse as (Hname & Hcat & Hn & Hc & _).
  pose proof (AddItem_stored_db s req w) as Hdb.
  destruct (if (0 <? length (req_Image req))%nat then _ else _) as [[fileName|e] w1];
    cbn [snd] in Hdb; [|auto].
  destruct (Insert _ w1) as [[[]|e] w2] eqn:Hins.
  - apply Insert_step in Hins as (cid & id & Hrows & _ & Hin & _). cbn in Hrows, Hin.
    rewrite Hname. split; [reflexivity|]. split; [exact Hn|]. split; [exact Hc|].
    exists id, cid, (Strings.TrimPrefix fileName "images/").
    rewrite <- Hdb, <- Hname, <- Hcat. auto.
  - apply Insert_err_unchanged in Hins as [Hd _]. split; [reflexivity|congruence].
Qed.

(** [AddItem] stores the image before it inserts the item, and the two are
    not undone together: when [Insert] fails after the image was stored,
    the answer has status 500 and the catalog is as it was, but the image
    file stays in the directory. *)
Theorem AddItem_image_outlives_failed_Insert s r req w path w1 e w2 :
  parseAddItemRequest r = Ok req ->
  req_Image req <> [] ->
  storeImage s (req_Image req) w = (Ok path, w1) ->
  Insert {| ID := 0; Name := req_Name req; Category := req_Category req;
            Image := Strings.TrimPrefix path "images/" |} w1 = (Err e, w2) ->
  AddItem s r w = (HttpError (Error e) 500, w2)
  /\ db w2 = db w
  /\ is_Some (fs w2 !! path)
  /\ (fs w !! path = None -> fs w2 !! path = Some (req_Image req)).
Proof.
  intros Hparse Himg Hstore Hins. unfold AddItem. rewrite Hparse.
  assert ((0 <? length (req_Image req))%nat = true) as ->
    by (destruct (req_Image req); [congruence|reflexivity]).
  rewrite Hstore, Hins. split; [reflexivity|].
  apply Insert_err_unchanged in Hins as [Hd Hf].
  apply storeImage_ok in Hstore as (_ & Hd1 & Hfs).
  split; [congruence|]. rewrite Hf.
  destruct Hfs as [[Hsome ->]| ->].
  - split; [exact Hsome|]. intros Hnone. rewrite Hnone in Hsome. now destruct Hsome.
  - rewrite lookup_insert_eq. eauto.
Qed.

(** A photo is uploaded while the database is locked: the six calls of the
    image store go through, [BeginTx] does not. *)
Lemma AddItem_image_outlives_failed_Insert_witness :
  let r := {| ContentType := "multipart/form-data; boundary=x"; ParseError := None;
              FormName := "Bike"; FormCategory := "Sports";
              FormFile := Uploaded "bike.jpg" (bytes_of_string "abc") |} in
  let w := set_faults (repeat None 6 ++ [Some "database is locked"]) fresh_world in
  let path := "images/ba7816bf8f01cfea414140de5dae2223b00361a396177a9cb410ff61f20015ad.jpg" in
  fst (AddItem images_handlers r w) = HttpError "database is locked" 500
  /\ db (snd (AddItem images_handlers r w)) = db w
  /\ fs (snd (AddItem images_handlers r w)) !! path = Some (bytes_of_string "abc").
Proof.
  cbv zeta.
  set (r := {| ContentType := "multipart/form-data; boundary=x"; ParseError := None;
               FormName := "Bike"; FormCategory := "Sports";
               FormFile := Uploaded "bike.jpg" (bytes_of_string "abc") |}).
  set (w := set_faults (repeat None 6 ++ [Some "database is locked"]) fresh_world).
  destruct (AddItem_image_outlives_failed_Insert images_handlers r
              {| req_Name := "Bike"; req_Category := "Sports";
                 req_Image := bytes_of_string "abc" |}
              w
              "images/ba7816bf8f01cfea414140de5dae2223b00361a396177a9cb410ff61f20015ad.jpg"
              (snd (storeImage images_handlers (bytes_of_string "abc") w))
              (SqliteError "database is locked")
              (snd (AddItem images_handlers r w)))
    as (Hanswer & Hdb & _ & Hfile);
    try (vm_compute; reflexivity).
  - discriminate.
  - rewrite Hanswer. split; [reflexivity|]. split; [exact Hdb|].
    apply Hfile. vm_compute. reflexivity.
Defined.

(** ** From the upload to the image route *)

Lemma Clean_plain name : plain name = true -> Filepath.Clean name = name.
Proof.
  intros Hplain.
  assert (clean_shape false [name]) as Hshape
    by (exists 0%nat, [name]; split; [reflexivity|]; split; [now constructor|reflexivity]).
  exact (Clean_render_id false [name] Hshape).
Qed.

Lemma elems_images name :
  plain name = true ->
  Filepath.elems ("images/" +:+ name) = root_elems "images" ++ [name].
Proof.
  intros Hplain. apply plain_no_sep in Hplain.
  unfold Filepath.elems.
  change ("images/" +:+ name) with ("images" +:+ String "/" name).
  change (("images" +:+ String "/" name =? "")%string) with false.
  change (("images" +:+ String "/" name =? "/")%string) with false.
  cbv iota. rewrite split_sep_app_no_sep by reflexivity.
  now rewrite split_sep_single.
Qed.

Lemma list_ascii_of_string_append a b :
  list_ascii_of_string (a +:+ b) = list_ascii_of_string a ++ list_ascii_of_string b.
Proof.
  induction a as [|c a IH]; [reflexivity|].
  rewrite append_String. cbn [list_ascii_of_string app]. now rewrite IH.
Qed.

Lemma string_of_list_ascii_append x y :
  string_of_list_ascii (x ++ y) = string_of_list_ascii x +:+ string_of_list_ascii y.
Proof.
  induction x as [|c x IH]; [reflexivity|].
  cbn [app string_of_list_ascii]. now rewrite IH.
Qed.

Lemma HasSuffix_append a b : Strings.HasSuffix (a +:+ b) b = true.
Proof.
  unfold Strings.HasSuffix, Strings.reverse.
  rewrite list_ascii_of_string_append, rev_app_distr, string_of_list_ascii_append.
  apply HasPrefix_append.
Qed.

Lemma append_assoc a b c : (a +:+ b) +:+ c = a +:+ (b +:+ c).
Proof.
  induction a as [|x a IH]; [reflexivity|]. now rewrite !append_String, IH.
Qed.

Lemma hex_digit_not_dot n : Ascii.eqb (Sha256.hex_digit n) "." = false.
Proof.
  unfold Sha256.hex_digit. generalize (Z.to_nat n). intros k.
  do 16 (destruct k as [|k]; [reflexivity|]). destruct k; reflexivity.
Qed.

Lemma digest_name_no_dotdot data :
  Strings.HasPrefix (Sha256.hex (Sha256.Sum256 data) +:+ ".jpg") ".." = false.
Proof.
  pose proof (Sum256_length data) as Hlen.
  destruct (Sha256.Sum256 data) as [|b rest]; [discriminate|].
  unfold Strings.HasPrefix. cbn [Sha256.hex]. rewrite append_String.
  cbn [String.prefix].
  destruct (ascii_dec "." (Sha256.hex_digit (Sha256.Z_of_byte b / 16))) as [E|]; [|reflexivity].
  pose proof (hex_digit_not_dot (Sha256.Z_of_byte b / 16)) as H.
  rewrite <- E in H. discriminate.
Qed.

(** A name that passes the checks of [buildImagePath] and has a file. *)
Lemma buildImagePath_accepts s fileName w names :
  let imgPath := Filepath.Join (imgDirPath s) (Filepath.Clean fileName) in
  Forall (fun e => plain e = true) names ->
  Filepath.elems imgPath = root_elems (imgDirPath s) ++ names ->
  Strings.HasPrefix (hd "" names) ".." = false ->
  accepted_suffix imgPath = true ->
  is_Some (fs w !! imgPath) -> next_call_ok w = true ->
  fst (buildImagePath s fileName w) = (imgPath, None).
Proof.
  cbv zeta. intros Hplain Helems Hhd Hsuffix Hsome Hok.
  destruct (Join_is_Clean (imgDirPath s) (Filepath.Clean fileName)
              (Clean_not_empty fileName)) as (y & Hy).
  unfold buildImagePath. rewrite Hy in Helems |- *.
  destruct (Rel_of_under_root _ _ _ Hplain Helems Hhd) as (rel & -> & ->).
  rewrite <- Hy. unfold accepted_suffix in Hsuffix. apply orb_prop in Hsuffix.
  replace (negb (Strings.HasSuffix _ ".jpg") && negb (Strings.HasSuffix _ ".jpeg"))
    with false by (destruct Hsuffix as [-> | ->]; cbn;
                   [reflexivity|now rewrite andb_false_r]).
  destruct (Stat_found _ w Hok Hsome) as (w' & -> & _). reflexivity.
Qed.

Lemma parseAddItemRequest_uploaded r req filename image :
  Strings.HasPrefix (ContentType r) "multipart/form-data" = true ->
  FormFile r = Uploaded filename image ->
  parseAddItemRequest r = Ok req ->
  req_Image req = image /\ image <> [].
Proof.
  intros Hmulti Hfile. unfold parseAddItemRequest. rewrite Hmulti, Hfile.
  destruct (ParseError r); [discriminate|].
  destruct (negb _); [discriminate|].
  destruct image as [|b image]; [discriminate|]. cbn [length Nat.eqb].
  destruct (FormName r =? "")%string; [discriminate|].
  destruct (FormCategory r =? "")%string; [discriminate|].
  intros [= <-]. split; [reflexivity|discriminate].
Qed.

Lemma TrimPrefix_images name :
  Strings.TrimPrefix ("images/" +:+ name) "images/" = name.
Proof.
  unfold Strings.TrimPrefix. rewrite HasPrefix_append. apply drop_append.
Qed.

(** An upload that [AddItem] accepts, with the image directory [images]:
    the new item row bears the digest's file name, the file of that name is
    in the directory, holding the uploaded bytes unless a file of that name
    was there before, and [GetImage], asked for the item's image name,
    serves that very file as long as it is there. *)
Theorem AddItem_image_round_trip r filename image w message w' :
  Strings.HasPrefix (ContentType r) "multipart/form-data" = true ->
  FormFile r = Uploaded filename image ->
  AddItem images_handlers r w = (WriteJSON message, w') ->
  let name := Sha256.hex (Sha256.Sum256 image) +:+ ".jpg" in
  (exists id cid,
     Sqlite.items (db w')
     = Sqlite.items (db w)
       ++ [{| Sqlite.item_id := id; Sqlite.item_name := FormName r;
              Sqlite.item_category_id := cid; Sqlite.item_image_name := name |}])
  /\ is_Some (fs w' !! ("images/" +:+ name))
  /\ (fs w !! ("images/" +:+ name) = None -> fs w' !! ("images/" +:+ name) = Some image)
  /\ forall w2, fs w2 = fs w' -> next_call_ok w2 = true ->
       fst (GetImage images_handlers name w2) = ServeFile ("images/" +:+ name).
Proof.
  intros Hmulti Hfile Hadd. cbv zeta.
  set (name := Sha256.hex (Sha256.Sum256 image) +:+ ".jpg").
  destruct (digest_name_plain image) as [Hplain _]. fold name in Hplain.
  unfold AddItem in Hadd.
  destruct (parseAddItemRequest r) as [req|e] eqn:Hparse; [|discriminate].
  destruct (parseAddItemRequest_uploaded r req filename image Hmulti Hfile Hparse)
    as [Himg Hne].
  apply parseAddItemRequest_Ok in Hparse as (Hname & _).
  rewrite Himg in Hadd.
  assert ((0 <? length image)%nat = true) as Hlen
    by (destruct image; [congruence|reflexivity]).
  rewrite Hlen in Hadd.
  destruct (storeImage images_handlers image w) as [[fileName|e] w1] eqn:Hstore;
    [|discriminate].
  apply storeImage_ok in Hstore as (Hpath & Hd1 & Hfs).
  cbn [imgDirPath images_handlers] in Hpath. fold name in Hpath.
  rewrite Join_images in Hpath by exact Hplain. subst fileName.
  rewrite TrimPrefix_images in Hadd.
  destruct (Insert _ w1) as [[[]|e] w2] eqn:Hins; [|discriminate].
  injection Hadd as _ <-.
  pose proof Hins as Hstep. apply Insert_step in Hstep as (cid & id & Hrows & _).
  apply Insert_ok in Hins as (_ & _ & _ & _ & _ & Hf2).
  cbn [Name Image] in Hrows. rewrite Hname, Hd1 in Hrows.
  assert (is_Some (fs w2 !! ("images/" +:+ name))) as Hsome.
  { rewrite Hf2. destruct Hfs as [[Hsome ->]| ->]; [exact Hsome|].
    rewrite lookup_insert_eq. eauto. }
  split; [eauto|]. split; [exact Hsome|]. split.
  - intros Hnone. rewrite Hf2. destruct Hfs as [[Hthere _]| ->].
    + rewrite Hnone in Hthere. now destruct Hthere.
    + apply lookup_insert_eq.
  - intros w3 Hf3 Hok. unfold GetImage, parseGetImageRequest.
    assert ((name =? "")%string = false) as ->
      by (apply String.eqb_neq; now apply plain_not_special in Hplain).
    assert (Filepath.Join (imgDirPath images_handlers) (Filepath.Clean name)
            = "images/" +:+ name) as Hjoin
      by (rewrite Clean_plain by exact Hplain; now apply Join_images).
    pose proof (buildImagePath_accepts images_handlers name w3 [name]) as Hbuild.
    cbv zeta in Hbuild. rewrite Hjoin in Hbuild.
    assert (accepted_suffix ("images/" +:+ name) = true) as Hsuffix
      by (unfold accepted_suffix, name;
          rewrite <- append_assoc, HasSuffix_append; reflexivity).
    assert (is_Some (fs w3 !! ("images/" +:+ name))) as Hthere by now rewrite Hf3.
    assert (Forall (fun e => plain e = true) [name]) as Hnames by now constructor.
    specialize (Hbuild Hnames
                  (elems_images name Hplain) (digest_name_no_dotdot image)
                  Hsuffix Hthere Hok).
    destruct (buildImagePath images_handlers name w3) as [[p e] w4].
    cbn [fst] in Hbuild. injection Hbuild as -> ->. reflexivity.
Qed.

(** The three bytes "abc" uploaded to a fresh service, and asked for again. *)
Lemma AddItem_image_round_trip_witness :
  let r := {| ContentType := "multipart/form-data; boundary=x"; ParseError := None;
              FormName := "Bike"; FormCategory := "Sports";
              FormFile := Uploaded "bike.jpg" (bytes_of_string "abc") |} in
  let name := "ba7816bf8f01cfea414140de5dae2223b00361a396177a9cb410ff61f20015ad.jpg" in
  let w' := snd (AddItem images_handlers r fresh_world) in
  fs w' !! ("images/" +:+ name) = Some (bytes_of_string "abc")
  /\ fst (GetImage images_handlers name w') = ServeFile ("images/" +:+ name).
Proof.
  cbv zeta.
  destruct (AddItem_image_round_trip
              {| ContentType := "multipart/form-data; boundary=x"; ParseError := None;
                 FormName := "Bike"; FormCategory := "Sports";
                 FormFile := Uploaded "bike.jpg" (bytes_of_string "abc") |}
              "bike.jpg" (bytes_of_string "abc") fresh_world
              "item received: Bike"
              (snd (AddItem images_handlers
                      {| ContentType := "multipart/form-data; boundary=x";
                         ParseError := None;
                         FormName := "Bike"; FormCategory := "Sports";
                         FormFile := Uploaded "bike.jpg" (bytes_of_string "abc") |}
                      fresh_world)))
    as (_ & _ & Hfile & Hget); try (vm_compute; reflexivity).
  split.
  - apply Hfile. vm_compute. reflexivity.
  - apply Hget; reflexivity.
Defined.

(** ** [StoreImage], the function that is no longer called *)

Lemma ReadFile_found name w data :
  next_call_ok w = true -> fs w !! name = Some data ->
  fst (ReadFile name w) = Ok data.
Proof.
  intros Hok Hsome. unfold ReadFile, bind, call.
  unfold next_call_ok in Hok.
  destruct (faults w) as [|[msg|] rest]; [|discriminate|]; cbn; now rewrite Hsome.
Qed.

Lemma Join_images_parent name :
  plain name = true -> Filepath.Join "images" ("../" +:+ name) = name.
Proof.
  intros Hplain. pose proof (plain_no_sep _ Hplain) as Hsep.
  unfold Filepath.Join.
  change (negb ("images" =? "")%string) with true. cbv iota.
  unfold Filepath.Clean, Filepath.clean_elems.
  change ("images" +:+ String Filepath.Separator ("../" +:+ name))
    with ("images" +:+ String "/" (".." +:+ String "/" name)).
  change (("images" +:+ String "/" (".." +:+ String "/" name) =? "")%string) with false.
  change (Filepath.rooted ("images" +:+ String "/" (".." +:+ String "/" name))) with false.
  cbv iota.
  rewrite split_sep_app_no_sep, split_sep_app_no_sep, split_sep_single
    by (reflexivity || exact Hsep).
  cbn [fold_left].
  change (Filepath.clean_step false [] "images") with ["images"].
  change (Filepath.clean_step false ["images"] "..") with (@nil string).
  rewrite clean_step_plain by exact Hplain. reflexivity.
Qed.

(** [StoreImage] with a plain file name writes the file of that name in
    [images]: afterwards it holds exactly the bytes given, whatever it held
    before, and reading it gives them back; no other file and nothing in
    the database changes. A write that fails leaves the files as they
    were, if the file could not be opened, or leaves in the file the bytes
    written before the failure, in place of what it held. The name is not
    checked: one that starts with [../] is written next to the directory,
    not inside it. *)
Theorem StoreImage_writes_file fileName image w :
  plain fileName = true ->
  let outcome (path : string) (r : result unit * World) :=
    match r with
    | (Ok _, w') =>
        fs w' = <[path := image]> (fs w)
        /\ db w' = db w
        /\ forall w2, fs w2 = fs w' -> next_call_ok w2 = true ->
             fst (ReadFile path w2) = Ok image
    | (Err _, w') =>
        db w' = db w /\ tx w' = tx w
        /\ (fs w' = fs w
            \/ exists n, (n <= length image)%nat
                         /\ fs w' = <[path := firstn n image]> (fs w))
    end in
  outcome ("images/" +:+ fileName) (StoreImage fileName image w)
  /\ outcome fileName (StoreImage ("../" +:+ fileName) image w).
Proof.
  intros Hplain. cbv zeta. unfold StoreImage, Filepath.ToSlash.
  rewrite Join_images, Join_images_parent by exact Hplain.
  assert (forall path,
            match WriteFile path image w with
            | (Ok _, w') =>
                fs w' = <[path := image]> (fs w)
                /\ db w' = db w
                /\ forall w2, fs w2 = fs w' -> next_call_ok w2 = true ->
                     fst (ReadFile path w2) = Ok image
            | (Err _, w') =>
                db w' = db w /\ tx w' = tx w
                /\ (fs w' = fs w
                    \/ exists n, (n <= length image)%nat
                                 /\ fs w' = <[path := firstn n image]> (fs w))
            end) as H.
  { intros path. pose proof (WriteFile_cases path image w) as H.
    destruct (WriteFile path image w) as [[[]|e] w'].
    - destruct H as (Hf & Hd & _). split; [exact Hf|]. split; [exact Hd|].
      intros w2 Hf2 Hok. apply ReadFile_found; [exact Hok|].
      rewrite Hf2, Hf. apply lookup_insert_eq.
    - tauto. }
  split; apply H.
Qed.

(** A photo stored under a name of its own, and one that leaves the
    directory. *)
Lemma StoreImage_writes_file_witness :
  fs (snd (StoreImage "bike.jpg" (bytes_of_string "abc") fresh_world))
  = <["images/bike.jpg" := bytes_of_string "abc"]> (fs fresh_world)
  /\ fs (snd (StoreImage "../bike.jpg" (bytes_of_string "abc") fresh_world))
     = <["bike.jpg" := bytes_of_string "abc"]> (fs fresh_world).
Proof.
  destruct (StoreImage_writes_file "bike.jpg" (bytes_of_string "abc") fresh_world eq_refl)
    as [Hin Hout].
  split; [exact (proj1 Hin)|exact (proj1 Hout)].
Defined.

(** ** What [GetImage] serves *)

Lemma clean_elems_snoc dir name :
  dir <> "" -> plain name = true ->
  Filepath.rooted (dir +:+ String "/" name) = Filepath.rooted dir
  /\ Filepath.clean_elems (dir +:+ String "/" name) = Filepath.clean_elems dir ++ [name].
Proof.
  intros Hdir Hplain.
  assert (Filepath.rooted (dir +:+ String "/" name) = Filepath.rooted dir) as Hroot
    by (destruct dir; [congruence|reflexivity]).
  split; [exact Hroot|]. unfold Filepath.clean_elems.
  rewrite Hroot, split_sep_app, (split_sep_single name) by now apply plain_no_sep.
  rewrite fold_left_app. cbn [fold_left]. now rewrite clean_step_plain.
Qed.

Lemma clean_shape_snoc r names name :
  clean_shape r names -> plain name = true -> clean_shape r (names ++ [name]).
Proof.
  intros (k & ps & -> & Hps & Hk) Hplain. exists k, (ps ++ [name]).
  split; [now rewrite app_assoc|]. split; [|exact Hk].
  apply Forall_app. split; [exact Hps|now constructor].
Qed.

Lemma root_elems_render dir :
  dir <> "" ->
  root_elems dir
  = (if Filepath.rooted dir then [""] else []) ++ Filepath.clean_elems dir.
Proof.
  intros Hdir. pose proof (clean_elems_shape dir) as Hshape.
  unfold root_elems, Filepath.Clean.
  apply String.eqb_neq in Hdir. rewrite Hdir.
  pose proof (elems_render _ _ Hshape) as Helems.
  destruct (Filepath.rooted dir).
  - change ((Filepath.render true (Filepath.clean_elems dir) =? ".")%string) with false.
    exact Helems.
  - destruct (Filepath.clean_elems dir) as [|x l] eqn:Hce; [reflexivity|].
    destruct (String.eqb_spec (Filepath.render false (x :: l)) ".") as [Hdot|_];
      [|exact Helems].
    exfalso. rewrite Hdot in Helems. cbn in Helems. injection Helems as <- <-.
    destruct Hshape as (k & ps & Hnames & Hps & _).
    destruct k as [|k]; [|discriminate].
    cbn in Hnames. subst ps. inversion Hps as [|? ? Hx _]. discriminate.
Qed.

(** A plain name joined to a directory lies right below that directory. *)
Lemma Join_plain_under_root dir name :
  plain name = true ->
  Filepath.elems (Filepath.Join dir name) = root_elems dir ++ [name].
Proof.
  intros Hplain. unfold Filepath.Join.
  destruct (String.eqb_spec dir "") as [->|Hdir]; cbn [negb].
  - pose proof (plain_not_special _ Hplain) as (Hne & _ & _).
    apply String.eqb_neq in Hne. rewrite Hne. cbn [negb].
    rewrite Clean_plain by exact Hplain.
    assert (clean_shape false [name]) as Hshape
      by (exists 0%nat, [name]; split; [reflexivity|]; split; [now constructor|reflexivity]).
    exact (elems_render false [name] Hshape).
  - change (String Filepath.Separator name) with (String "/" name).
    destruct (clean_elems_snoc dir name Hdir Hplain) as [Hroot Hce].
    unfold Filepath.Clean.
    assert ((dir +:+ String "/" name =? "")%string = false) as ->
      by (destruct dir; [congruence|reflexivity]).
    rewrite Hroot, Hce, root_elems_render by exact Hdir.
    pose proof (clean_shape_snoc _ _ name (clean_elems_shape dir) Hplain) as Hshape.
    rewrite (elems_render _ _ Hshape).
    destruct (Filepath.rooted dir); [reflexivity|].
    destruct (Filepath.clean_elems dir); reflexivity.
Qed.

(** Whatever file name it is asked for, [GetImage] serves only a path that
    leads to the image directory or below it and ends in [.jpg] or [.jpeg];
    to everything else it answers with status 400. *)
Theorem GetImage_serves_under_root s fileName w :
  match fst (GetImage s fileName w) with
  | ServeFile path =>
      under_root (imgDirPath s) path /\ accepted_suffix path = true
  | HttpError _ status => status = 400
  | WriteJSON _ => False
  end.
Proof.
  unfold GetImage. destruct (parseGetImageRequest fileName) as [req|e]; [|reflexivity].
  assert (under_root (imgDirPath s) (Filepath.Join (imgDirPath s) "default.jpg")
          /\ accepted_suffix (Filepath.Join (imgDirPath s) "default.jpg") = true)
    as Hdefault.
  { split.
    - exists ["default.jpg"]. split; [now constructor|].
      now apply Join_plain_under_root.
    - destruct (Join_plain (imgDirPath s) "default.jpg" eq_refl) as (front & ->).
      unfold accepted_suffix.
      change (front +:+ "default.jpg") with (front +:+ ("default" +:+ ".jpg")).
      now rewrite <- append_assoc, HasSuffix_append. }
  destruct (Join_is_Clean (imgDirPath s) (Filepath.Clean req) (Clean_not_empty req))
    as (y & Hy).
  pose proof (buildImagePath_cases s req w) as Hcases. cbv zeta in Hcases.
  destruct (buildImagePath s req w) as [[imgPath [err|]] w']; cbn [fst snd] in *.
  - destruct (negb (is_errImageNotFound err)); [reflexivity|exact Hdefault].
  - destruct Hcases as [(Hinv & _)|(_ & -> & Hsuf & rel & HRel & Hpre)]; [discriminate|].
    rewrite Hy in HRel, Hsuf |- *.
    destruct (Rel_accepts_under_root _ _ _ HRel Hpre Hsuf) as [Hunder _]. auto.
Qed.

(** A name that is not there, for which the default image is served, and a
    name that leaves the directory. *)
Lemma GetImage_serves_under_root_witness :
  (under_root "images" "images/default.jpg"
   /\ accepted_suffix "images/default.jpg" = true)
  /\ match fst (GetImage images_handlers "../secret.jpg" fresh_world) with
     | HttpError _ status => status = 400
     | _ => False
     end.
Proof.
  split.
  - exact (GetImage_serves_under_root images_handlers "nothere.jpg" fresh_world).
  - exact (GetImage_serves_under_root images_handlers "../secret.jpg" fresh_world).
Defined.

(** ** [Insert] before it ran in a transaction *)

Lemma query_row_no_faults {A} (q : Sqlite.DB -> list A) w :
  no_faults w = true ->
  exists w1, query_row q w = (scan_row (q (db w)), w1)
             /\ db w1 = db w /\ no_faults w1 = true.
Proof.
  intros Hok. unfold query_row, bind.
  destruct (call_no_faults SqliteError w Hok) as (w1 & -> & Hd & Hok1).
  exists w1. rewrite Hd. auto.
Qed.

Lemma Exec_no_faults stmt w d' :
  no_faults w = true -> stmt (db w) = Sqlite.Done d' ->
  exists w1, Exec stmt w = (Ok d', w1) /\ db w1 = d' /\ no_faults w1 = true.
Proof.
  intros Hok Hstmt. unfold Exec, bind.
  destruct (call_no_faults SqliteError w Hok) as (w1 & -> & Hd & Hok1).
  rewrite Hd, Hstmt. exists (set_db d' w1). auto.
Qed.

(** The id of a category row just created is what [LastInsertId] gives. *)
Lemma created_category_id name d d1 cid :
  Sqlite.select_category_id name d = None ->
  Sqlite.insert_category name d = Sqlite.Done d1 ->
  Sqlite.select_category_id name d1 = Some cid ->
  LastInsertId d1 = cid.
Proof.
  unfold Sqlite.select_category_id, Sqlite.insert_category, LastInsertId.
  intros Hnone. destruct (existsb _ _); [discriminate|].
  destruct (Sqlite.next_rowid _ _) as [id|]; [|discriminate].
  intros [= <-]. cbn [Sqlite.categories Sqlite.categories_seq].
  destruct (List.find _ (Sqlite.categories d)) as [c|] eqn:Hfind; [discriminate|].
  assert (forall l, List.find (fun c => (Sqlite.cat_name c =? name)%string) l = None ->
            List.find (fun c => (Sqlite.cat_name c =? name)%string)
              (l ++ [{| Sqlite.cat_id := id; Sqlite.cat_name := name |}])
            = Some {| Sqlite.cat_id := id; Sqlite.cat_name := name |}) as Hlast.
  { induction l as [|x l IH]; cbn.
    - now rewrite String.eqb_refl.
    - destruct (Sqlite.cat_name x =? name)%string; [discriminate|exact IH]. }
  rewrite Hlast by exact Hfind. cbn. congruence.
Qed.

(** The earlier [Insert], three statements without a transaction. When all
    goes well it leaves the database that today's [Insert] leaves. But the
    category it creates is committed at once: when the insert of the item
    fails after that, the error is returned and the new category row stays
    behind, with no item. *)
Theorem Earlier_Insert_not_atomic item w :
  (forall w', no_faults w = true -> Insert item w = (Ok tt, w') ->
     fst (Earlier.Insert item w) = Ok tt
     /\ db (snd (Earlier.Insert item w)) = db w')
  /\ (forall d1 msg rest,
        Sqlite.select_category_id (Category item) (db w) = None ->
        Sqlite.insert_category (Category item) (db w) = Sqlite.Done d1 ->
        faults w = None :: None :: Some msg :: rest ->
        fst (Earlier.Insert item w) = Err (SqliteError msg)
        /\ db (snd (Earlier.Insert item w)) = d1
        /\ Sqlite.items d1 = Sqlite.items (db w)
        /\ exists cid,
             Sqlite.categories d1
             = Sqlite.categories (db w)
               ++ [{| Sqlite.cat_id := cid; Sqlite.cat_name := Category item |}]).
Proof.
  split.
  - intros w' Hok Hins.
    apply Insert_ok in Hins as (cid & d1 & Hres & Hitem & _).
    unfold Earlier.Insert, bind, catch, ret.
    destruct (query_row_no_faults
                (fun d => match Sqlite.select_category_id (Category item) d with
                          | Some id => [id]
                          | None => []
                          end) w Hok) as (w1 & -> & Hd1 & Hok1).
    destruct Hres as [cid Hsome|cid d1 Hnone Hcat Hsome].
    + rewrite Hsome. cbn [scan_row].
      rewrite <- Hd1 in Hitem.
      destruct (Exec_no_faults _ w1 _ Hok1 Hitem) as (w2 & -> & Hd2 & _). auto.
    + rewrite Hnone. cbn [scan_row is_ErrNoRows].
      rewrite <- Hd1 in Hcat.
      destruct (Exec_no_faults _ w1 _ Hok1 Hcat) as (w2 & -> & Hd2 & Hok2).
      rewrite Hd1 in Hcat.
      rewrite (created_category_id _ _ _ _ Hnone Hcat Hsome).
      rewrite <- Hd2 in Hitem.
      destruct (Exec_no_faults _ w2 _ Hok2 Hitem) as (w3 & -> & Hd3 & _). auto.
  - intros d1 msg rest Hnone Hcat Hf.
    destruct w as [d t f fl]. cbn [faults db] in *. subst fl.
    unfold Earlier.Insert, catch, ret, query_row, Exec, bind, call, set_faults, set_db.
    cbn [faults db tx fs]. rewrite Hnone.
    cbn [scan_row is_ErrNoRows faults db tx fs]. rewrite Hcat.
    cbn [faults db tx fs fst snd].
    split; [reflexivity|]. split; [reflexivity|].
    apply insert_category_Done in Hcat as (cid & Hcats & _ & _ & Hitems & _). eauto.
Qed.

(** A new category and a disk that fails when the item is written: the
    category is there afterwards, and no item, where today's [Insert]
    leaves nothing; and the same insert when nothing fails. *)
Lemma Earlier_Insert_not_atomic_witness :
  let w := set_faults [None; None; Some "disk I/O error"] fresh_world in
  (fst (Earlier.Insert (new_item "Bike" "Sports" "f.jpg") w)
   = Err (SqliteError "disk I/O error")
   /\ Sqlite.items (db (snd (Earlier.Insert (new_item "Bike" "Sports" "f.jpg") w))) = []
   /\ Sqlite.categories (db (snd (Earlier.Insert (new_item "Bike" "Sports" "f.jpg") w)))
      = [{| Sqlite.cat_id := 1; Sqlite.cat_name := "Sports" |}]
   /\ db (snd (Insert (new_item "Bike" "Sports" "f.jpg")
                 (set_faults [None; None; None; None; Some "disk I/O error"] fresh_world)))
      = Sqlite.empty_db)
  /\ db (snd (Earlier.Insert (new_item "Bike" "Sports" "f.jpg") fresh_world))
     = db (snd (Insert (new_item "Bike" "Sports" "f.jpg") fresh_world)).
Proof.
  cbv zeta. split.
  - destruct (Earlier_Insert_not_atomic (new_item "Bike" "Sports" "f.jpg")
                (set_faults [None; None; Some "disk I/O error"] fresh_world)) as [_ H].
    destruct (H {| Sqlite.categories :=
                     [{| Sqlite.cat_id := 1; Sqlite.cat_name := "Sports" |}];
                   Sqlite.categories_seq := 1; Sqlite.items := [];
                   Sqlite.items_seq := 0 |}
                "disk I/O error" [] eq_refl eq_refl eq_refl)
      as (Herr & Hdb & _ & _).
    rewrite Herr, Hdb. repeat split; reflexivity.
  - destruct (Earlier_Insert_not_atomic (new_item "Bike" "Sports" "f.jpg") fresh_world)
      as [H _].
    destruct (H (snd (Insert (new_item "Bike" "Sports" "f.jpg") fresh_world))
                eq_refl eq_refl) as [_ Hdb].
    exact Hdb.
Defined.

(** ** The picture in the item list *)

Lemma buildImagePath_missing s fileName w names :
  let imgPath := Filepath.Join (imgDirPath s) (Filepath.Clean fileName) in
  Forall (fun e => plain e = true) names ->
  Filepath.elems imgPath = root_elems (imgDirPath s) ++ names ->
  Strings.HasPrefix (hd "" names) ".." = false ->
  accepted_suffix imgPath = true ->
  fs w !! imgPath = None ->
  fst (buildImagePath s fileName w) = (imgPath, Some errImageNotFound).
Proof.
  cbv zeta. intros Hplain Helems Hhd Hsuffix Hnone.
  destruct (Join_is_Clean (imgDirPath s) (Filepath.Clean fileName)
              (Clean_not_empty fileName)) as (y & Hy).
  unfold buildImagePath. rewrite Hy in Helems |- *.
  destruct (Rel_of_under_root _ _ _ Hplain Helems Hhd) as (rel & -> & ->).
  rewrite <- Hy. unfold accepted_suffix in Hsuffix. apply orb_prop in Hsuffix.
  replace (negb (Strings.HasSuffix _ ".jpg") && negb (Strings.HasSuffix _ ".jpeg"))
    with false by (destruct Hsuffix as [-> | ->]; cbn;
                   [reflexivity|now rewrite andb_false_r]).
  unfold Stat, bind, call.
  destruct (faults w) as [|[msg|] rest]; cbn; rewrite ?Hnone; reflexivity.
Qed.

Lemma plain_long name :
  has_sep name = false -> (2 < String.length name)%nat -> plain name = true.
Proof.
  intros Hsep Hlen. unfold plain. rewrite Hsep.
  destruct name as [|a [|b [|c name]]]; cbn in Hlen; try lia.
  cbn. destruct (Ascii.eqb a "."); [|reflexivity].
  destruct (Ascii.eqb b "."); reflexivity.
Qed.

Lemma TrimPrefix_append p rest : Strings.TrimPrefix (p +:+ rest) p = rest.
Proof. unfold Strings.TrimPrefix. rewrite HasPrefix_append. apply drop_append. Qed.

(** The item list asks for the picture of an item under the item's image
    name with [.jpg] added. For an item that [AddItem] stored, whose image
    name is the digest's and ends in [.jpg] already, that is a name of 72
    characters, which [storeImage] never gives to a file; so unless such a
    file got into the directory some other way, [GetImage] answers the
    request of the list with the default image, not with the picture that
    was uploaded. *)
Theorem ItemList_asks_for_another_file image :
  let image_name := Sha256.hex (Sha256.Sum256 image) +:+ ".jpg" in
  let requested :=
    Strings.TrimPrefix (ItemList_img_src image_name) "http://localhost:9000/images/" in
  requested = image_name +:+ ".jpg"
  /\ (forall data,
        Filepath.Join "images" (Sha256.hex (Sha256.Sum256 data) +:+ ".jpg")
        <> "images/" +:+ requested)
  /\ (forall w, fs w !! ("images/" +:+ requested) = None ->
        fst (GetImage images_handlers requested w) = ServeFile "images/default.jpg").
Proof.
  cbv zeta. unfold ItemList_img_src. rewrite TrimPrefix_append.
  set (image_name := Sha256.hex (Sha256.Sum256 image) +:+ ".jpg").
  destruct (digest_name_plain image) as [Hplain Hlen]. fold image_name in Hplain, Hlen.
  assert (plain (image_name +:+ ".jpg") = true) as Hplain2.
  { apply plain_long.
    - rewrite has_sep_append, (plain_no_sep _ Hplain). reflexivity.
    - rewrite length_append, Hlen. cbn. lia. }
  split; [reflexivity|]. split.
  - intros data Heq. destruct (digest_name_plain data) as [Hp Hl].
    set (other := Sha256.hex (Sha256.Sum256 data) +:+ ".jpg") in *.
    rewrite Join_images in Heq by exact Hp.
    apply (f_equal String.length) in Heq.
    rewrite !length_append, Hl, Hlen in Heq. cbn in Heq. lia.
  - intros w Hnone. unfold GetImage, parseGetImageRequest.
    assert ((image_name +:+ ".jpg" =? "")%string = false) as ->
      by (apply String.eqb_neq; now apply plain_not_special in Hplain2).
    assert (Filepath.Join (imgDirPath images_handlers)
              (Filepath.Clean (image_name +:+ ".jpg"))
            = "images/" +:+ image_name +:+ ".jpg") as Hjoin
      by (rewrite Clean_plain by exact Hplain2; now apply Join_images).
    pose proof (buildImagePath_missing images_handlers (image_name +:+ ".jpg") w
                  [image_name +:+ ".jpg"]) as Hbuild.
    cbv zeta in Hbuild. rewrite Hjoin in Hbuild.
    assert (Forall (fun e => plain e = true) [image_name +:+ ".jpg"]) as Hnames
      by now constructor.
    assert (Strings.HasPrefix (hd "" [image_name +:+ ".jpg"]) ".." = false) as Hhd
      by (cbn [hd]; rewrite HasPrefix_plain_append by exact Hplain;
          apply digest_name_no_dotdot).
    assert (accepted_suffix ("images/" +:+ image_name +:+ ".jpg") = true) as Hsuffix
      by (unfold accepted_suffix;
          rewrite <- (append_assoc "images/" image_name ".jpg"), HasSuffix_append;
          reflexivity).
    specialize (Hbuild Hnames (elems_images _ Hplain2) Hhd Hsuffix Hnone).
    destruct (buildImagePath images_handlers (image_name +:+ ".jpg") w) as [[p e] w'].
    cbn [fst] in Hbuild. injection Hbuild as -> ->. reflexivity.
Qed.

(** The picture of the item with the image "abc", in a service where only
    [AddItem] has written to the directory. *)
Lemma ItemList_asks_for_another_file_witness :
  let r := {| ContentType := "multipart/form-data; boundary=x"; ParseError := None;
              FormName := "Bike"; FormCategory := "Sports";
              FormFile := Uploaded "bike.jpg" (bytes_of_string "abc") |} in
  let image_name := "ba7816bf8f01cfea414140de5dae2223b00361a396177a9cb410ff61f20015ad.jpg" in
  fst (GetImage images_handlers (image_name +:+ ".jpg")
         (snd (AddItem images_handlers r fresh_world)))
  = ServeFile "images/default.jpg".
Proof.
  cbv zeta.
  destruct (ItemList_asks_for_another_file (bytes_of_string "abc")) as (_ & _ & H).
  apply (H (snd (AddItem images_handlers
                   {| ContentType := "multipart/form-data; boundary=x"; ParseError := None;
                      FormName := "Bike"; FormCategory := "Sports";
                      FormFile := Uploaded "bike.jpg" (bytes_of_string "abc") |}
                   fresh_world))).
  vm_compute. reflexivity.
Defined.

(** ** What was added is what is listed *)

Lemma AddItem_ok s r w message w' :
  AddItem s r w = (WriteJSON message, w') ->
  exists req fileName w1,
    parseAddItemRequest r = Ok req /\ db w1 = db w
    /\ Insert {| ID := 0; Name := req_Name req; Category := req_Category req;
                 Image := Strings.TrimPrefix fileName "images/" |} w1 = (Ok tt, w').
Proof.
  unfold AddItem.
  destruct (parseAddItemRequest r) as [req|e] eqn:Hparse; [|discriminate].
  pose proof (AddItem_stored_db s req w) as Hdb.
  destruct (if (0 <? length (req_Image req))%nat then _ else _) as [[fileName|e] w1];
    cbn [snd] in Hdb; [|discriminate].
  destruct (Insert _ w1) as [[[]|e] w2] eqn:Hins; [|discriminate].
  intros [= _ <-]. eauto 10.
Qed.

Lemma find_app_Some {A} (p : A -> bool) (l extra : list A) a :
  List.find p l = Some a -> List.find p (l ++ extra) = Some a.
Proof.
  induction l as [|x l IH]; cbn; [discriminate|]. destruct (p x); auto.
Qed.

(** Rows of categories that are added do not change how an item is shown. *)
Lemma shown_stable d d' extra it :
  references_ok d -> In it (Sqlite.items d) ->
  Sqlite.categories d' = Sqlite.categories d ++ extra ->
  shown d' it = shown d it.
Proof.
  intros Href Hin Hcats. unfold shown, category_name_of. rewrite Hcats.
  unfold references_ok in Href. rewrite Forall_forall in Href.
  specialize (Href it). rewrite list_elem_of_In in Href. specialize (Href Hin).
  apply in_map_iff in Href as (c & Hc & Hcin).
  destruct (List.find (fun c => Sqlite.cat_id c =? Sqlite.item_category_id it)
              (Sqlite.categories d)) as [c'|] eqn:Hfind.
  - now rewrite (find_app_Some _ _ _ _ Hfind).
  - exfalso. eapply List.find_none in Hfind; [|exact Hcin].
    apply Z.eqb_neq in Hfind. congruence.
Qed.

(** After [AddItem] has answered "item received", [GetItems] lists what it
    listed before, unchanged and in the same order, and then the new item:
    with an id of its own, the name and the category of the form, and the
    image name that [AddItem] gave it. *)
Theorem AddItem_then_GetItems s r w message w' :
  reachable (db w) ->
  AddItem s r w = (WriteJSON message, w') ->
  exists id image,
    ~ In id (item_ids (db w))
    /\ forall w2, db w2 = db w' -> no_faults w2 = true ->
         fst (Handlers.GetItems w2)
         = json_answer EncodeJSON
             (JObject [("items",
                JArray (map item_json
                          (map (shown (db w)) (Sqlite.items (db w))
                           ++ [{| ID := id; Name := FormName r;
                                  Category := FormCategory r; Image := image |}])))]).
Proof.
  intros Hreach Hadd.
  apply AddItem_ok in Hadd as (req & fileName & w1 & Hparse & Hd1 & Hins).
  apply parseAddItemRequest_Ok in Hparse as (Hname & Hcat & _).
  rewrite <- Hd1 in Hreach.
  pose proof (reachable_Insert _ _ _ _ Hreach Hins) as Hreach'.
  pose proof (reachable_consistent _ Hreach) as [_ Href].
  pose proof (reachable_consistent _ Hreach') as [Hschema' _].
  apply Insert_step in Hins as (cid & id & Hrows & Hfresh & Hin & Hcats).
  cbn [Name Category Image] in Hrows, Hin, Hcats. rewrite Hname in Hrows.
  rewrite Hcat in Hin, Hcats. rewrite Hd1 in *.
  exists id, (Strings.TrimPrefix fileName "images/"). split; [exact Hfresh|].
  intros w2 Hd2 Hok. rewrite <- Hd2 in Hreach', Hschema'.
  pose proof (GetAll_no_faults w2 Hreach' Hok) as Hall.
  unfold Handlers.GetItems. destruct (GetAll w2) as [res w3]. cbn [fst] in Hall.
  subst res. rewrite response_Items_spec, Hd2, Hrows, map_app.
  assert (exists extra, Sqlite.categories (db w')
                        = Sqlite.categories (db w) ++ extra) as (extra & Hextra).
  { destruct (category_seen (FormCategory r) (db w)).
    - exists []. now rewrite app_nil_r.
    - destruct Hcats as [-> _]. eauto. }
  assert (map (shown (db w')) (Sqlite.items (db w))
          = map (shown (db w)) (Sqlite.items (db w))) as ->.
  { apply map_ext_in. intros it Hit. eapply shown_stable; eauto. }
  assert (shown (db w')
            {| Sqlite.item_id := id; Sqlite.item_name := FormName r;
               Sqlite.item_category_id := cid;
               Sqlite.item_image_name := Strings.TrimPrefix fileName "images/" |}
          = {| ID := id; Name := FormName r; Category := FormCategory r;
               Image := Strings.TrimPrefix fileName "images/" |}) as Hnew.
  { unfold shown, category_name_of. cbn [Sqlite.item_id Sqlite.item_name
      Sqlite.item_category_id Sqlite.item_image_name].
    rewrite Hd2 in Hschema'. destruct Hschema' as (Hids & _).
    pose proof (find_by_id _ _ Hids Hin) as Hfind. cbn [Sqlite.cat_id] in Hfind.
    now rewrite Hfind. }
  cbn [map]. rewrite Hnew. unfold json_answer.
  destruct (map (shown (db w)) (Sqlite.items (db w))); reflexivity.
Qed.

(** A fourth item, with a photo, after the three of the catalog. *)
Lemma AddItem_then_GetItems_witness :
  let r := {| ContentType := "multipart/form-data; boundary=x"; ParseError := None;
              FormName := "Bike"; FormCategory := "Sports";
              FormFile := Uploaded "bike.jpg" (bytes_of_string "abc") |} in
  exists id image,
    ~ In id (item_ids (db shirts_world))
    /\ forall w2, db w2 = db (snd (AddItem images_handlers r shirts_world)) ->
         no_faults w2 = true ->
         fst (Handlers.GetItems w2)
         = json_answer EncodeJSON
             (JObject [("items",
                JArray (map item_json
                          (map (shown (db shirts_world)) (Sqlite.items (db shirts_world))
                           ++ [{| ID := id; Name := "Bike";
                                  Category := "Sports"; Image := image |}])))]).
Proof.
  cbv zeta.
  apply (AddItem_then_GetItems images_handlers
           {| ContentType := "multipart/form-data; boundary=x"; ParseError := None;
              FormName := "Bike"; FormCategory := "Sports";
              FormFile := Uploaded "bike.jpg" (bytes_of_string "abc") |}
           shirts_world "item received: Bike").
  - exact shirts_world_reachable.
  - vm_compute. reflexivity.
Defined.

(** ** The image route on a name that passes the checks *)

(** A file name that was given, whose cleaned path lies under the image
    directory with a first name below it that does not begin with two
    dots, and ends in an accepted suffix: [GetImage] serves the file of
    that path when [os.Stat] finds it, and the default image when
    [os.Stat] fails, for whatever reason. *)
Theorem GetImage_serves_the_file s fileName w names :
  let imgPath := Filepath.Join (imgDirPath s) (Filepath.Clean fileName) in
  fileName <> "" ->
  Forall (fun e => plain e = true) names ->
  Filepath.elems imgPath = root_elems (imgDirPath s) ++ names ->
  Strings.HasPrefix (hd "" names) ".." = false ->
  accepted_suffix imgPath = true ->
  (is_Some (fs w !! imgPath) -> next_call_ok w = true ->
   fst (GetImage s fileName w) = ServeFile imgPath)
  /\ (forall msg rest, faults w = Some msg :: rest ->
      fst (GetImage s fileName w)
      = ServeFile (Filepath.Join (imgDirPath s) "default.jpg")).
Proof.
  cbv zeta. intros Hname Hplain Helems Hhd Hsuffix.
  apply String.eqb_neq in Hname. unfold GetImage, parseGetImageRequest. rewrite Hname.
  split.
  - intros Hsome Hok.
    pose proof (buildImagePath_accepts s fileName w names
                  Hplain Helems Hhd Hsuffix Hsome Hok) as Hbuild.
    destruct (buildImagePath s fileName w) as [[p e] w'].
    cbn [fst] in Hbuild. injection Hbuild as -> ->. reflexivity.
  - intros msg rest Hf.
    destruct (Join_is_Clean (imgDirPath s) (Filepath.Clean fileName)
                (Clean_not_empty fileName)) as (y & Hy).
    unfold buildImagePath. rewrite Hy in Helems |- *.
    destruct (Rel_of_under_root _ _ _ Hplain Helems Hhd) as (rel & -> & ->).
    rewrite <- Hy. unfold accepted_suffix in Hsuffix. apply orb_prop in Hsuffix.
    replace (negb (Strings.HasSuffix _ ".jpg") && negb (Strings.HasSuffix _ ".jpeg"))
      with false by (destruct Hsuffix as [-> | ->]; cbn;
                     [reflexivity|now rewrite andb_false_r]).
    unfold Stat, bind, call. rewrite Hf. reflexivity.
Qed.

(** The default image asked for by its own name, found and not readable. *)
Lemma GetImage_serves_the_file_witness :
  fst (GetImage images_handlers "default.jpg" fresh_world) = ServeFile "images/default.jpg"
  /\ fst (GetImage images_handlers "sub/../default.jpg"
            (set_faults [Some "permission denied"] fresh_world))
     = ServeFile "images/default.jpg".
Proof.
  assert (Forall (fun e => plain e = true) ["default.jpg"]) as Hnames by now constructor.
  split.
  - assert ("default.jpg" <> "") as Hname by discriminate.
    destruct (GetImage_serves_the_file images_handlers "default.jpg" fresh_world
                ["default.jpg"] Hname Hnames eq_refl eq_refl eq_refl) as [H _].
    apply H; [vm_compute; eauto|reflexivity].
  - assert ("sub/../default.jpg" <> "") as Hname by discriminate.
    destruct (GetImage_serves_the_file images_handlers "sub/../default.jpg"
                (set_faults [Some "permission denied"] fresh_world)
                ["default.jpg"] Hname Hnames eq_refl eq_refl eq_refl) as [_ H].
    apply (H "permission denied" []). reflexivity.
Defined.
